(** * The relation engine of [src/graph.js], embedded in Rocq

    The engine stores parent/child relations directly on caller-owned
    JavaScript objects.  Objects and arrays have identity and are mutated
    in place, so the embedding keeps an explicit store: a list of cells
    addressed by their index.  A record cell holds the own fields of an
    object, an array cell the elements of an array.

    Scope of the model: own properties only (nothing inherited from the
    built-in prototypes, no accessor such as [__proto__]), dense arrays,
    filter predicates that are total and free of side effects, numbers held
    in fields that are integers or NaN.  The [generations] argument is a
    double. *)

From Stdlib Require Import ZArith PrimFloat.
From stdpp Require Import base option list strings gmap pretty.

(** ** Values and the store *)

Abbreviation loc := nat.

Inductive value : Type :=
  | VUndef
  | VNull
  | VBool (b : bool)
  | VNum (z : Z)
  | VNaN
  | VStr (s : string)
  | VRef (l : loc).

#[global] Instance value_eq_dec : EqDecision value.
Proof. solve_decision. Defined.

Inductive cell : Type :=
  | Obj (fields : gmap string value)
  | Arr (elems : list value).

Abbreviation heap := (list cell).

(** [a === b]: identity on references, equality on primitives, and NaN
    different from everything, itself included. *)
Definition strict_eq (a b : value) : bool :=
  if bool_decide (a = VNaN) then false else bool_decide (a = b).

(** ToBoolean, as used by [x || y]. *)
Definition truthy (v : value) : bool :=
  match v with
  | VUndef | VNull | VNaN => false
  | VBool b => b
  | VNum z => negb (z =? 0)%Z
  | VStr s => negb (String.eqb s "")
  | VRef _ => true
  end.

(** The index an array of [n] elements stores under the property key [k]:
    the [i < n] whose decimal spelling is [k]. *)
Definition array_index (n : nat) (k : string) : option nat :=
  List.find (fun i => bool_decide (pretty i = k)) (seq 0 n).

Definition arr_prop (xs : list value) (k : string) : value :=
  if decide (k = "length") then VNum (Z.of_nat (length xs))
  else match array_index (length xs) k with
       | Some i => default VUndef (xs !! i)
       | None => VUndef
       end.

Definition str_prop (s : string) (k : string) : value :=
  if decide (k = "length") then VNum (Z.of_nat (String.length s))
  else match array_index (String.length s) k with
       | Some i => match String.get i s with
                   | Some c => VStr (String c EmptyString)
                   | None => VUndef
                   end
       | None => VUndef
       end.

Definition get_own (c : cell) (k : string) : value :=
  match c with
  | Obj o => default VUndef (o !! k)
  | Arr xs => arr_prop xs k
  end.

(** [v[k]] as a read of the store; [None] is the TypeError raised by reading
    a property of [undefined] or [null]. *)
Definition prop (h : heap) (v : value) (k : string) : option value :=
  match v with
  | VUndef | VNull => None
  | VRef l => match h !! l with
              | Some c => Some (get_own c k)
              | None => None
              end
  | VStr s => Some (str_prop s k)
  | VBool _ | VNum _ | VNaN => Some VUndef
  end.

(** [Object.keys(v)] for a value that is neither [undefined] nor [null]. *)
Definition Object_keys (h : heap) (v : value) : list string :=
  match v with
  | VRef l => match h !! l with
              | Some (Obj o) => (map_to_list o).*1
              | Some (Arr xs) => pretty <$> seq 0 (length xs)
              | None => []
              end
  | VStr s => pretty <$> seq 0 (String.length s)
  | _ => []
  end.

(** Results of the read-only part of the engine: a value, a TypeError, or
    no result because the recursion does not end. *)
Inductive res (A : Type) : Type :=
  | Val (a : A)
  | Throws
  | Diverges.
Arguments Val {A} a.
Arguments Throws {A}.
Arguments Diverges {A}.

(** ** [resembles] (graph.js, lines 14-26) *)

(** The inner function [check]; [key] is the captured counter.  Reading
    [keys[key]] past the end gives [undefined], and [undefined] used as a
    property key is the string ["undefined"]. *)
Fixpoint check (h : heap) (self obj : value) (keys : list string)
    (len key fuel : nat) : res bool :=
  match fuel with
  | 0 => Diverges
  | S fuel =>
      let k := default "undefined" (keys !! key) in
      match prop h self k, prop h obj k with
      | Some a, Some b =>
          if strict_eq a b then
            let key := key + 1 in
            if (key <=? len)%nat then check h self obj keys len key fuel
            else Val true
          else Val false
      | _, _ => Throws
      end
  end.

Definition resembles (h : heap) (self obj : value) : res bool :=
  let keys := Object_keys h self in
  let len := length keys in
  check h self obj keys len 0 (S (S len)).

(** ** The read-only traversal [get] (graph.js, lines 40-57) *)

Definition res_bind {A B} (m : res A) (f : A → res B) : res B :=
  match m with
  | Val a => f a
  | Throws => Throws
  | Diverges => Diverges
  end.

Notation "x <~ m ;; k" := (res_bind m (fun x => k))
  (at level 100, m at next level, right associativity).

(** The elements of [v] when [v] is an array; the array methods the engine
    calls ([forEach], [filter], [splice]) exist on arrays only, so calling
    one on anything else is a TypeError. *)
Definition elems_of (h : heap) (v : value) : option (list value) :=
  match v with
  | VRef l => match h !! l with
              | Some (Arr xs) => Some xs
              | _ => None
              end
  | _ => None
  end.

Definition res_of {A} (o : option A) : res A :=
  match o with
  | Some a => Val a
  | None => Throws
  end.

(** [xs.filter(f)] for a callback that may throw. *)
Fixpoint filter_res (f : value → res bool) (xs : list value) : res (list value) :=
  match xs with
  | [] => Val []
  | x :: xs =>
      b <~ f x ;;
      rest <~ filter_res f xs ;;
      Val (if b : bool then x :: rest else rest)
  end.

(** [xs.forEach(f)] for a callback that reads and assigns one captured
    variable and leaves the store alone. *)
Fixpoint each_res {A} (f : value → A → res A) (xs : list value) (var : A) : res A :=
  match xs with
  | [] => Val var
  | x :: xs => var <~ f x var ;; each_res f xs var
  end.

(** The [filter] argument: a function, or any other value. *)
Inductive filter_arg : Type :=
  | FFunction (p : heap → value → bool)
  | FValue (v : value).

(** The [generations] argument: left out ([undefined]), [null], or a
    number, which in JavaScript is an IEEE 754 double. *)
Inductive depth : Type :=
  | GUndefined
  | GNull
  | GNumber (x : float).

(** [generations > 0 || generations === undefined]; [null > 0] compares 0
    with 0, and every comparison with NaN is false. *)
Definition goes_deeper (generations : depth) : bool :=
  match generations with
  | GUndefined => true
  | GNull => false
  | GNumber x => PrimFloat.ltb 0%float x
  end.

(** ToBoolean of a number: 0, -0 and NaN are falsy. *)
Definition falsy_number (x : float) : bool :=
  PrimFloat.eqb x 0%float || negb (PrimFloat.eqb x x).

(** [generations && generations - 1]: a falsy value is passed on as it is,
    and the subtraction is that of doubles, with its rounding. *)
Definition next_generations (generations : depth) : depth :=
  match generations with
  | GUndefined => GUndefined
  | GNull => GNull
  | GNumber x => if falsy_number x then GNumber x else GNumber (PrimFloat.sub x 1%float)
  end.

(** The inner, recursive [get]; [fuel] bounds the depth of the recursion. *)
Fixpoint get_rec (fuel : nat) (h : heap) (relation : string)
    (filterFn : value → res bool) (nodes : value) (generations : depth)
    : res (list value) :=
  match fuel with
  | 0 => Diverges
  | S fuel =>
      let nextGen :=
        if goes_deeper generations then get_rec fuel h relation filterFn
        else fun _ _ => Val [] in
      ns <~ res_of (elems_of h nodes) ;;
      each_res (fun node (_ : list value) =>
          r <~ res_of (prop h node relation) ;;
          rs <~ res_of (elems_of h r) ;;
          filtered <~ filter_res filterFn rs ;;
          deeper <~ nextGen r (next_generations generations) ;;
          Val (filtered ++ deeper))
        ns []
  end.

(** The outer [get]: [filter || {}] allocates an empty record when [filter]
    is falsy. *)
Definition get (fuel : nat) (h : heap) (nodes : loc) (relation : string)
    (filter : filter_arg) (generations : depth) : res (list value) :=
  match filter with
  | FFunction p => get_rec fuel h relation (fun child => Val (p h child)) (VRef nodes) generations
  | FValue v =>
      let '(self, h) :=
        if truthy v then (v, h) else (VRef (length h), h ++ [Obj ∅]) in
      get_rec fuel h relation (fun child => resembles h self child) (VRef nodes) generations
  end.

(** ** The mutating operations: a state-and-exception monad over the store *)

(** An operation either returns with the store it leaves, or raises a
    TypeError, leaving the store as it was when the error was raised. *)
Inductive outcome (A : Type) : Type :=
  | Ok (a : A) (h : heap)
  | TypeError (h : heap).
Arguments Ok {A} a h.
Arguments TypeError {A} h.

Definition M (A : Type) : Type := heap → outcome A.

Definition ret {A} (a : A) : M A := fun h => Ok a h.

Definition bind {A B} (m : M A) (f : A → M B) : M B := fun h =>
  match m h with
  | Ok a h => f a h
  | TypeError h => TypeError h
  end.

Notation "x <- m ;; k" := (bind m (fun x => k))
  (at level 100, m at next level, right associativity).
Notation "m ;;; k" := (bind m (fun _ => k))
  (at level 100, right associativity).

Definition final_store {A} (o : outcome A) : heap :=
  match o with
  | Ok _ h => h
  | TypeError h => h
  end.

Definition returns {A} (o : outcome A) : bool :=
  match o with
  | Ok _ _ => true
  | TypeError _ => false
  end.

Definition lift {A} (f : heap → option A) : M A := fun h =>
  match f h with
  | Some a => Ok a h
  | None => TypeError h
  end.

Definition get_prop (v : value) (k : string) : M value :=
  lift (fun h => prop h v k).

Definition alloc (c : cell) : M loc := fun h => Ok (length h) (h ++ [c]).

(** [v[k] = x] in strict mode.  On an array the engine only ever assigns an
    index in range (the read before it has to yield something with a
    [concat] method), on a string primitive the assignment is a TypeError;
    the remaining cases cannot be reached from the engine. *)
Definition set_prop (v : value) (k : string) (x : value) : M unit := fun h =>
  match v with
  | VRef l =>
      match h !! l with
      | Some (Obj o) => Ok tt (<[l := Obj (<[k := x]> o)]> h)
      | Some (Arr xs) =>
          match array_index (length xs) k with
          | Some i => Ok tt (<[l := Arr (<[i := x]> xs)]> h)
          | None => TypeError h
          end
      | None => TypeError h
      end
  | _ => TypeError h
  end.

(** [xs.indexOf(v)]: the first index holding a value strictly equal to [v],
    or -1. *)
Fixpoint index_from (xs : list value) (v : value) (i : Z) : Z :=
  match xs with
  | [] => (-1)%Z
  | x :: xs => if strict_eq x v then i else index_from xs v (i + 1)%Z
  end.

Definition indexOf (xs : list value) (v : value) : Z := index_from xs v 0%Z.

(** What [xs.splice(start, deleteCount)] leaves in [xs]: a negative [start]
    counts from the end of the array. *)
Definition splice (xs : list value) (start deleteCount : Z) : list value :=
  let len := Z.of_nat (length xs) in
  let actualStart :=
    if (start <? 0)%Z then Z.max (len + start) 0 else Z.min start len in
  let actualDeleteCount := Z.min (Z.max deleteCount 0) (len - actualStart) in
  take (Z.to_nat actualStart) xs
    ++ drop (Z.to_nat (actualStart + actualDeleteCount)) xs.

(** [arr.forEach(f)]: the length is read once, the elements are read from
    the store as the loop reaches them, and an index the array no longer has
    is skipped. *)
Fixpoint forEach_from (arr : loc) (f : value → M unit) (k n : nat) : M unit := fun h =>
  match n with
  | 0 => Ok tt h
  | S n =>
      match h !! arr with
      | Some (Arr xs) =>
          match xs !! k with
          | Some v => (f v ;;; forEach_from arr f (S k) n) h
          | None => forEach_from arr f (S k) n h
          end
      | _ => TypeError h
      end
  end.

Definition forEach (arr : loc) (f : value → M unit) : M unit := fun h =>
  match h !! arr with
  | Some (Arr xs) => forEach_from arr f 0 (length xs) h
  | _ => TypeError h
  end.

(** [r.indexOf(v)] and [r.splice(i, 1)] on the value [r] of a relation
    field.  (A string has an [indexOf] but no [splice], so for a string the
    call as a whole is a TypeError as well.) *)
Definition indexOf_in (r v : value) : M Z :=
  lift (fun h => (fun xs => indexOf xs v) <$> elems_of h r).

Definition splice_in (r : value) (start deleteCount : Z) : M unit := fun h =>
  match r with
  | VRef l =>
      match h !! l with
      | Some (Arr xs) => Ok tt (<[l := Arr (splice xs start deleteCount)]> h)
      | _ => TypeError h
      end
  | _ => TypeError h
  end.

(** The function [remove] passes to the inner [forEach]:
    [node[relation].splice(node[relation].indexOf(relatedNode), 1)]. *)
Definition remove_callback (relation : string) (node relatedNode : value) : M unit :=
  r <- get_prop node relation ;;
  r' <- get_prop node relation ;;
  i <- indexOf_in r' relatedNode ;;
  splice_in r i 1.

(** [remove] (graph.js, lines 61-68). *)
Definition remove (nodes : loc) (relation : string) (relatedNodes : loc) : M loc :=
  forEach nodes (fun node =>
    forEach relatedNodes (remove_callback relation node)) ;;;
  ret nodes.

(** The text [String.prototype.concat] makes of an array argument.  It is
    only produced when a relation field holds a string; the engine never
    looks at it, so it is left as a parameter of the model. *)
Class ArrayText : Type := array_to_string : heap → list value → string.

Section Engine.
Context `{ArrayText}.

(** [r.concat(arg)]: a fresh array for an array [r], a longer string for a
    string [r], a TypeError for anything else.  An argument that is not an
    array is appended as one element. *)
Definition concat (r : value) (arg : loc) : M value := fun h =>
  let ys := default [VRef arg] (elems_of h (VRef arg)) in
  match r with
  | VRef l =>
      match h !! l with
      | Some (Arr xs) => (l' <- alloc (Arr (xs ++ ys)) ;; ret (VRef l')) h
      | _ => TypeError h
      end
  | VStr s => Ok (VStr (s +:+ array_to_string h ys)) h
  | _ => TypeError h
  end.

(** The function [add] passes to [forEach]:
    [node[relation] = node[relation].concat(relatedNodes)]. *)
Definition add_callback (relation : string) (relatedNodes : loc) (node : value) : M unit :=
  r <- get_prop node relation ;;
  c <- concat r relatedNodes ;;
  set_prop node relation c.

(** [add] (graph.js, lines 30-35). *)
Definition add (nodes : loc) (relation : string) (relatedNodes : loc) : M loc :=
  forEach nodes (add_callback relation relatedNodes) ;;;
  ret nodes.

End Engine.

(** ** The factory [Graph] (graph.js, lines 10-11 and 79-157) *)

(** The store together with the two variables [lastParentsKey] and
    [lastChildrenKey] of the enclosing module. *)
Record state : Type := State {
  store : heap;
  lastParentsKey : string;
  lastChildrenKey : string
}.

(** The module as loaded: [var lastParentsKey = "parents"] and
    [var lastChildrenKey = "children"]. *)
Definition initial (h : heap) : state := State h "parents" "children".

(** [toNodes]: an array is passed through, anything else is wrapped in a
    fresh one-element array. *)
Definition toNodes (nodes : value) : M loc := fun h =>
  match nodes, elems_of h nodes with
  | VRef l, Some _ => Ok l h
  | _, _ => alloc (Arr [nodes]) h
  end.

(** [key || last] for an optional string argument: an omitted argument and
    the empty string are both falsy. *)
Definition or_key (key : option string) (last : string) : string :=
  match key with
  | Some k => if String.eqb k "" then last else k
  | None => last
  end.

(** A handle closes over its array of nodes and nothing else: the key names
    are read from the module's variables whenever a method runs. *)
Record handle : Type := Handle { bound : loc }.

Definition Graph (nodes : value) (parentsKey childrenKey : option string)
    (s : state) : handle * state :=
  let '(nodes, h) :=
    match toNodes nodes (store s) with
    | Ok l h => (l, h)
    | TypeError h => (0, h)
    end in
  (Handle nodes,
   State h (or_key parentsKey (lastParentsKey s))
           (or_key childrenKey (lastChildrenKey s))).

(** The state a method leaves: no method assigns the module's variables. *)
Definition after {A} (s : state) (o : outcome A) : state :=
  State (final_store o) (lastParentsKey s) (lastChildrenKey s).

Definition parents (fuel : nat) (g : handle) (filter : filter_arg)
    (generations : depth) (s : state) : res (list value) :=
  get fuel (store s) (bound g) (lastParentsKey s) filter generations.

Definition children (fuel : nat) (g : handle) (filter : filter_arg)
    (generations : depth) (s : state) : res (list value) :=
  get fuel (store s) (bound g) (lastChildrenKey s) filter generations.

Section Methods.
Context `{ArrayText}.

Definition addParents (g : handle) (parents : value) (s : state) : outcome loc :=
  (ps <- toNodes parents ;;
   related <- add ps (lastChildrenKey s) (bound g) ;;
   add (bound g) (lastParentsKey s) related) (store s).

Definition addChildren (g : handle) (children : value) (s : state) : outcome loc :=
  (cs <- toNodes children ;;
   related <- add cs (lastParentsKey s) (bound g) ;;
   add (bound g) (lastChildrenKey s) related) (store s).

End Methods.

Definition removeParents (g : handle) (parents : value) (s : state) : outcome loc :=
  (ps <- toNodes parents ;;
   related <- remove ps (lastChildrenKey s) (bound g) ;;
   remove (bound g) (lastParentsKey s) related) (store s).

Definition removeChildren (g : handle) (children : value) (s : state) : outcome loc :=
  (cs <- toNodes children ;;
   related <- remove cs (lastParentsKey s) (bound g) ;;
   remove (bound g) (lastChildrenKey s) related) (store s).

(** ** Vocabulary of the statements *)

(** The relation list of [node] under the key [k]: the elements of the array
    [node[k]], when there is one. *)
Definition relation_list (h : heap) (node : value) (k : string) : option (list value) :=
  prop h node k ≫= elems_of h.

(** A closed instance of the parameter, for the concrete examples: array
    text is never produced in them. *)
Definition no_text : ArrayText := fun _ _ => EmptyString.


(** The handle [g] used in state [s] works on the keys [pk] and [ck]: each
    of its six methods is the engine's primitive at those keys. *)
Definition operates_on `{ArrayText} (g : handle) (s : state) (pk ck : string) : Prop :=
  (∀ fuel f gen, parents fuel g f gen s = get fuel (store s) (bound g) pk f gen) ∧
  (∀ fuel f gen, children fuel g f gen s = get fuel (store s) (bound g) ck f gen) ∧
  (∀ x, addParents g x s =
     (ps <- toNodes x ;; r <- add ps ck (bound g) ;; add (bound g) pk r) (store s)) ∧
  (∀ x, addChildren g x s =
     (cs <- toNodes x ;; r <- add cs pk (bound g) ;; add (bound g) ck r) (store s)) ∧
  (∀ x, removeParents g x s =
     (ps <- toNodes x ;; r <- remove ps ck (bound g) ;; remove (bound g) pk r) (store s)) ∧
  (∀ x, removeChildren g x s =
     (cs <- toNodes x ;; r <- remove cs pk (bound g) ;; remove (bound g) ck r) (store s)).

(** [omits_names s s']: [s'] is reached from [s] by method calls and by
    constructions that supply no key name (or the empty string). *)
Inductive omits_names : state → state → Prop :=
  | omits_refl s : omits_names s s
  | omits_Graph s s' nodes pk ck :
      omits_names s s' →
      pk = None ∨ pk = Some EmptyString →
      ck = None ∨ ck = Some EmptyString →
      omits_names s (Graph nodes pk ck s').2
  | omits_method s s' A (o : outcome A) :
      omits_names s s' → omits_names s (after s' o).

(** The record of cell [l] holds, under the key [k], the array of cell [r],
    whose elements are [xs]. *)
Definition field_array (h : heap) (l : loc) (k : string) (r : loc)
    (xs : list value) : Prop :=
  ∃ o, h !! l = Some (Obj o) ∧ o !! k = Some (VRef r) ∧ h !! r = Some (Arr xs).

(** A well-formed node for the key [k]: a record with an array under [k]. *)
Definition is_node (h : heap) (k : string) (v : value) : Prop :=
  ∃ l r xs, v = VRef l ∧ field_array h l k r xs.

(** One unlinking, [xs.splice(xs.indexOf(v), 1)], and one after the other
    for every element of [vs]. *)
Definition remove_one (v : value) (xs : list value) : list value :=
  splice xs (indexOf xs v) 1.

Definition remove_all (vs xs : list value) : list value :=
  foldl (fun acc v => remove_one v acc) xs vs.

(** [n] copies of [xs], one after the other. *)
Fixpoint times {A} (n : nat) (xs : list A) : list A :=
  match n with
  | 0 => []
  | S n => xs ++ times n xs
  end.

(** The number of occurrences of [v] in [xs]. *)
Fixpoint count (v : value) (xs : list value) : nat :=
  match xs with
  | [] => 0
  | x :: xs => (if decide (x = v) then 1 else 0) + count v xs
  end.

(** [f] run on the elements of a list, in order: what [forEach] does when
    the callback leaves the array it iterates alone. *)
Fixpoint each (f : value → M unit) (xs : list value) : M unit :=
  match xs with
  | [] => ret tt
  | x :: xs => f x ;;; each f xs
  end.

(** The store after [node[k] = node[k].concat(...)] on the record [o] of
    cell [l]: a fresh array holding [ys], and the field [k] pointing at it. *)
Definition repoint (h : heap) (l : loc) (o : gmap string value) (k : string)
    (ys : list value) : heap :=
  <[l := Obj (<[k := VRef (length h)]> o)]> (h ++ [Arr ys]).

(** Exclusive ownership of relation arrays.  [own l k] marks the field [k]
    of the record [l]; every marked field holds an array outside the
    protected cells [P], and no two marked fields hold the same array. *)
Definition owns (P : loc → Prop) (own : loc → string → Prop) (h : heap) : Prop :=
  (∀ l k, own l k → ∃ r xs, field_array h l k r xs ∧ ¬ P r) ∧
  (∀ l k l' k' r xs xs',
     own l k → own l' k' →
     field_array h l k r xs → field_array h l' k' r xs' → l = l' ∧ k = k').

(** What [add] with the key [K] on the nodes [N] and the related nodes [R]
    changes between two stores. *)
Record added (K : string) (N R : list value) (h h' : heap) : Prop := {
  added_length : length h ≤ length h';
  added_arrays : ∀ r ys, h !! r = Some (Arr ys) → h' !! r = Some (Arr ys);
  added_records : ∀ l o, h !! l = Some (Obj o) →
    ∃ o', h' !! l = Some (Obj o') ∧
          ∀ k, ¬ (VRef l ∈ N ∧ k = K) → o' !! k = o !! k;
  added_no_record : ∀ l o', h' !! l = Some (Obj o') → ∃ o, h !! l = Some (Obj o);
  added_lists : ∀ l k r ys, field_array h l k r ys →
    ∃ r', field_array h' l k r'
            (ys ++ if decide (k = K) then times (count (VRef l) N) R else [])
}.

(** What a run of unlinkings changes between two stores: the list of every
    owned field [k] of [l] goes from [ys] to [g l k ys], in the same array. *)
Record removed (P : loc → Prop) (own : loc → string → Prop)
    (g : loc → string → list value → list value) (h h' : heap) : Prop := {
  removed_length : length h' = length h;
  removed_protected : ∀ r ys, P r → h !! r = Some (Arr ys) → h' !! r = Some (Arr ys);
  removed_records : ∀ l o, h !! l = Some (Obj o) ↔ h' !! l = Some (Obj o);
  removed_lists : ∀ l k r ys, own l k → field_array h l k r ys →
    field_array h' l k r (g l k ys)
}.

(** [h'] has every cell of [h], unchanged. *)
Definition extends (h h' : heap) : Prop :=
  ∀ l c, h !! l = Some c → h' !! l = Some c.

(** Two cells of the same kind that agree on every property but [K]. *)
Definition same_except (K : string) (c c' : cell) : Prop :=
  match c, c' with
  | Obj o, Obj o' => ∀ k, k ≠ K → o' !! k = o !! k
  | Arr es, Arr es' =>
      length es' = length es ∧ ∀ k, k ≠ K → arr_prop es' k = arr_prop es k
  | _, _ => False
  end.

(** The frame of [add] with the key [K] on the nodes [N]: every cell keeps
    its kind and every property other than [K], and a cell that is not one
    of the nodes is left as it was. *)
Definition add_frame (K : string) (N : list value) (h h' : heap) : Prop :=
  ∀ l c, h !! l = Some c →
    ∃ c', h' !! l = Some c' ∧ same_except K c c' ∧ (VRef l ∉ N → c' = c).

(** The frame of [remove] with the key [K] on the nodes [N]: no record is
    changed at all (every field holds the value, a reference for a relation
    list, it held before), and when the nodes are not themselves arrays, an
    array is only spliced if some node holds it under [K]. *)
Definition remove_frame (K : string) (N : list value) (h h' : heap) : Prop :=
  (∀ l o, h !! l = Some (Obj o) → h' !! l = Some (Obj o))
  ∧ ((∀ l es, VRef l ∈ N → h !! l ≠ Some (Arr es)) →
     ∀ r, (∀ v, v ∈ N → prop h v K ≠ Some (VRef r)) → h' !! r = h !! r).

(** What unlinking can do to a cell: nothing to a record, and an array can
    only lose elements. *)
Definition shrunk (c c' : cell) : Prop :=
  match c, c' with
  | Obj o, Obj o' => o' = o
  | Arr es, Arr es' => ∀ v, v ∈ es' → v ∈ es
  | _, _ => False
  end.

(** A value that is not a well-formed node for the key [K]: a primitive,
    or a record without the field [K]. *)
Definition lacks (h : heap) (K : string) (v : value) : Prop :=
  match v with
  | VRef l => ∃ o, h !! l = Some (Obj o) ∧ o !! K = None
  | _ => True
  end.

(** The array [arr] holds, at the index [i], a value that lacks [K]. *)
Definition lacking_at (arr : loc) (i : nat) (K : string) (h : heap) : Prop :=
  ∃ xs v, h !! arr = Some (Arr xs) ∧ xs !! i = Some v ∧ lacks h K v.

(** The elements of the relation list of the record [l] under [k]; none
    when there is no such list. *)
Definition kids (h : heap) (l : loc) (k : string) : list value :=
  default [] (relation_list h (VRef l) k).

(** The symmetry invariant, with multiplicities: [a] occurs in the children
    list of [b] as many times as [b] occurs in the parents list of [a]. *)
Definition symmetric (h : heap) (pk ck : string) : Prop :=
  ∀ a b oa ob, h !! a = Some (Obj oa) → h !! b = Some (Obj ob) →
    count (VRef a) (kids h b ck) = count (VRef b) (kids h a pk).

(** No field of a record holds a reference to a cell the store does not
    have. *)
Definition closed (h : heap) : Prop :=
  ∀ l o k r, h !! l = Some (Obj o) → o !! k = Some (VRef r) → r < length h.

(** No relation array is shared: the arrays held by the fields of records
    are pairwise distinct cells, none of them among the cells [P]. *)
Definition unshared (P : loc → Prop) (h : heap) : Prop :=
  owns P (fun l k => ∃ r ys, field_array h l k r ys) h.

(** The symmetry invariant by membership alone: [a] occurs in the children
    list of [b] iff [b] occurs in the parents list of [a]. *)
Definition mutual (h : heap) (pk ck : string) : Prop :=
  ∀ a b oa ob, h !! a = Some (Obj oa) → h !! b = Some (Obj ob) →
    (VRef a ∈ kids h b ck ↔ VRef b ∈ kids h a pk).

(** A value whose properties can be read: anything but [undefined], [null]
    and a reference to a cell the store does not have. *)
Definition readable (h : heap) (v : value) : Prop :=
  match v with
  | VUndef | VNull => False
  | VRef l => is_Some (h !! l)
  | _ => True
  end.

#[global] Instance readable_dec h v : Decision (readable h v).
Proof. destruct v; simpl; apply _. Defined.

(** No element of an array of the store is [undefined] or [null], or has
    a field named "undefined". *)
Definition no_undefined_field (h : heap) : Prop :=
  ∀ r xs v, h !! r = Some (Arr xs) → v ∈ xs →
    prop h v "undefined" = Some VUndef.

(** A filter function that accepts every node. *)
Definition matches_all : filter_arg := FFunction (fun _ _ => true).

(** *** Concrete stores for the examples

    Cells 0, 1 and 2 are the nodes A, B and C; the arrays follow. *)

Definition node (ps cs : value) : cell :=
  Obj {[ "parents" := ps; "children" := cs ]}.

(** An empty filter and a candidate whose only field is named "undefined". *)
Definition store_undefined_field : heap :=
  [Obj ∅; Obj {[ "undefined" := VNum 1 ]}].

(** A1 has the child B1, A2 has the child B2; cell 8 is the array [A1, A2]. *)
Definition store_two_parents : heap :=
  [node (VRef 4) (VRef 5); node (VRef 6) (VRef 7);
   node (VRef 4) (VRef 4); node (VRef 4) (VRef 4);
   Arr []; Arr [VRef 2]; Arr []; Arr [VRef 3]; Arr [VRef 0; VRef 1]].

(** A has the child C, which has the parent A; B is unrelated.  Cell 9 is
    the array [A] and cell 10 the array [B]. *)
Definition store_unrelated : heap :=
  [node (VRef 3) (VRef 4); node (VRef 5) (VRef 6); node (VRef 7) (VRef 8);
   Arr []; Arr [VRef 2]; Arr []; Arr []; Arr [VRef 0]; Arr [];
   Arr [VRef 0]; Arr [VRef 1]].

(** A single node with a child B under "children" and a child C under
    "down". *)
Definition store_two_vocabularies : heap :=
  [Obj {[ "parents" := VRef 3; "children" := VRef 4; "up" := VRef 3; "down" := VRef 5 ]};
   node (VRef 3) (VRef 3); node (VRef 3) (VRef 3);
   Arr []; Arr [VRef 1]; Arr [VRef 2]].

(** The chain A -> B -> C: A has the child B, B the child C, C none.  Cell 9
    is the array [A], cell 10 the array [B]. *)
Definition store_chain : heap :=
  [node (VRef 3) (VRef 4); node (VRef 5) (VRef 6); node (VRef 7) (VRef 8);
   Arr []; Arr [VRef 1]; Arr [VRef 0]; Arr [VRef 2]; Arr [VRef 1]; Arr [];
   Arr [VRef 0]; Arr [VRef 1]].

(** A is a node, B (cell 1) is a record without relation fields.  Cell 4
    is the array [A], cell 5 the array [B]. *)
Definition store_malformed : heap :=
  [node (VRef 2) (VRef 3); Obj ∅; Arr []; Arr []; Arr [VRef 0]; Arr [VRef 1]].

(** A has the child B twice, B has the parent A once.  Cell 6 is the array
    [A], cell 7 the array [B]. *)
Definition store_double_link : heap :=
  [node (VRef 2) (VRef 3); node (VRef 4) (VRef 5);
   Arr []; Arr [VRef 1; VRef 1]; Arr [VRef 0]; Arr [];
   Arr [VRef 0]; Arr [VRef 1]].

(** A single node A whose only relation field is named "rel"; cell 2 is
    the array [A]. *)
Definition store_one_field : heap :=
  [Obj {[ "rel" := VRef 1 ]}; Arr []; Arr [VRef 0]].

(** Three records: a filter, a candidate with one more field, and a
    filter whose field holds NaN. *)
Definition store_filter : heap :=
  [Obj {[ "a" := VNum 1 ]}; Obj {[ "a" := VNum 1; "b" := VNum 2 ]};
   Obj {[ "a" := VNaN ]}].

(** A is its own child; cell 3 is the array [A]. *)
Definition store_self_loop : heap :=
  [node (VRef 1) (VRef 2); Arr []; Arr [VRef 0]; Arr [VRef 0]].

(** A node whose "children" field holds a string; cell 1 is the array
    [A]. *)
Definition store_string_field : heap :=
  [Obj {[ "children" := VStr "x" ]}; Arr [VRef 0]].

(** The array of cell 3 is shared: it is A's "parents" and "children" and
    D's "children", and holds C.  Cell 8 is the array [A], cell 9 the
    array [C]. *)
Definition store_alias : heap :=
  [node (VRef 3) (VRef 3); node (VRef 5) (VRef 3); node (VRef 6) (VRef 7);
   Arr [VRef 2]; Arr []; Arr []; Arr []; Arr []; Arr [VRef 0]; Arr [VRef 2]].

(** * Properties *)

(** ** [resembles] *)

Lemma check_spec h self obj keys len key fuel :
  len = length keys →
  key ≤ len →
  len - key < fuel →
  (∀ k, is_Some (prop h self k)) →
  (∀ k, is_Some (prop h obj k)) →
  check h self obj keys len key fuel =
    Val (forallb (fun k => strict_eq (default VUndef (prop h self k))
                                     (default VUndef (prop h obj k)))
                 (drop key keys ++ ["undefined"%string])).
Proof.
  intros -> Hkey Hfuel Hself Hobj.
  revert key Hkey Hfuel. induction fuel as [|fuel IH]; intros key Hkey Hfuel; [lia|].
  simpl.
  destruct (Hself (default "undefined"%string (keys !! key))) as [a Ha].
  destruct (Hobj (default "undefined"%string (keys !! key))) as [b Hb].
  rewrite Ha, Hb.
  destruct (keys !! key) as [k|] eqn:Hk; simpl in Ha, Hb.
  - apply lookup_lt_Some in Hk as Hlt.
    rewrite (drop_S _ _ _ Hk). simpl. rewrite Ha, Hb. simpl.
    destruct (strict_eq a b); [|done].
    replace (key + 1 <=? length keys)%nat with true
      by (symmetry; apply Nat.leb_le; lia).
    replace (key + 1) with (S key) by lia. apply IH; lia.
  - apply lookup_ge_None in Hk.
    assert (key = length keys) as -> by lia.
    rewrite drop_all. simpl. rewrite Ha, Hb. simpl.
    destruct (strict_eq a b); [|done].
    replace (length keys + 1 <=? length keys)%nat with false
      by (symmetry; apply Nat.leb_gt; lia).
    done.
Qed.

(** What [resembles] computes on two readable values: the comparison is made
    at every key of [self] and once more at the key "undefined". *)
Lemma resembles_spec h self obj :
  (∀ k, is_Some (prop h self k)) →
  (∀ k, is_Some (prop h obj k)) →
  resembles h self obj =
    Val (forallb (fun k => strict_eq (default VUndef (prop h self k))
                                     (default VUndef (prop h obj k)))
                 (Object_keys h self ++ ["undefined"%string])).
Proof.
  intros Hself Hobj. unfold resembles.
  rewrite (check_spec h self obj _ _ 0 _ eq_refl) by (done || lia).
  by rewrite drop_0.
Qed.

(** C5 (the code departs from the claim): the empty filter does not match
    every candidate.  The filter of cell 0 has no key at all, so every key
    present in it compares equal, and still [resembles] answers [false] for
    the candidate of cell 1, whose field "undefined" is read by the
    comparison made past the last key. *)
Theorem resembles_empty_filter_rejects :
  Object_keys store_undefined_field (VRef 0) = []
  ∧ resembles store_undefined_field (VRef 0) (VRef 1) = Val false.
Proof. split; reflexivity. Qed.

(** ** [get] on concrete stores *)

(** C1 (the code departs from the claim): the traversal does not return the
    concatenation over the input nodes.  On the node set [A1, A2], where
    A1 has the child B1 (cell 2) and A2 the child B2 (cell 3), [children]
    returns B2 alone: the matches of A1 are overwritten when A2 is
    processed. *)
Theorem children_keeps_last_node_only :
  elems_of store_two_parents (VRef 8) = Some [VRef 0; VRef 1]
  ∧ relation_list store_two_parents (VRef 0) "children" = Some [VRef 2]
  ∧ relation_list store_two_parents (VRef 1) "children" = Some [VRef 3]
  ∧ children 3 (Handle 8) matches_all GUndefined (initial store_two_parents)
    = Val [VRef 3].
Proof. repeat split; reflexivity. Qed.

(** C2 (the code departs from the claim): removing a relation that does not
    exist is not a no-op.  B (cell 1) is not a child of A (cell 0), whose
    children list is [C]; [removeChildren([B])] on {A} returns normally and
    leaves A's children list empty: [indexOf] answers -1 and [splice(-1, 1)]
    deletes the last element. *)
Theorem removeChildren_unrelated_drops_last :
  relation_list store_unrelated (VRef 0) "children" = Some [VRef 2]
  ∧ returns (removeChildren (Handle 9) (VRef 10) (initial store_unrelated)) = true
  ∧ relation_list
      (final_store (removeChildren (Handle 9) (VRef 10) (initial store_unrelated)))
      (VRef 0) "children" = Some [].
Proof. repeat split; reflexivity. Qed.

(** ** The key names a handle works on *)

Section Keys.
Context `{ArrayText}.

Lemma operates_on_current g s pk ck :
  lastParentsKey s = pk → lastChildrenKey s = ck → operates_on g s pk ck.
Proof. intros <- <-. by repeat split. Qed.

Lemma or_key_explicit k last : k ≠ EmptyString → or_key (Some k) last = k.
Proof. intros Hk. unfold or_key. by destruct k. Qed.

Lemma or_key_omitted key last :
  key = None ∨ key = Some EmptyString → or_key key last = last.
Proof. by intros [-> | ->]. Qed.

Lemma Graph_keys nodes pk ck s :
  lastParentsKey (Graph nodes pk ck s).2 = or_key pk (lastParentsKey s)
  ∧ lastChildrenKey (Graph nodes pk ck s).2 = or_key ck (lastChildrenKey s).
Proof. unfold Graph. by destruct (toNodes nodes (store s)). Qed.

Lemma omits_names_keys s s' :
  omits_names s s' →
  lastParentsKey s' = lastParentsKey s ∧ lastChildrenKey s' = lastChildrenKey s.
Proof.
  induction 1 as [s | s s' nodes pk ck _ [IHp IHc] Hpk Hck | s s' A o _ IH].
  - done.
  - destruct (Graph_keys nodes pk ck s') as [-> ->].
    by rewrite !or_key_omitted.
  - done.
Qed.

(** C8: a handle constructed with explicit key names [pk] and [ck] makes
    them the module-wide default: a second handle constructed without key
    names, directly afterwards or after any number of method calls and of
    further constructions without key names, operates on [pk] and [ck]
    like the first one does. *)
Theorem default_keys_persist s nodes1 nodes2 pk ck s' :
  pk ≠ EmptyString →
  ck ≠ EmptyString →
  omits_names (Graph nodes1 (Some pk) (Some ck) s).2 s' →
  operates_on (Graph nodes1 (Some pk) (Some ck) s).1
              (Graph nodes1 (Some pk) (Some ck) s).2 pk ck
  ∧ operates_on (Graph nodes2 None None s').1 (Graph nodes2 None None s').2 pk ck
  ∧ operates_on (Graph nodes1 (Some pk) (Some ck) s).1
                (Graph nodes2 None None s').2 pk ck.
Proof.
  intros Hpk Hck Hlater.
  destruct (Graph_keys nodes1 (Some pk) (Some ck) s) as [Hp1 Hc1].
  rewrite or_key_explicit in Hp1, Hc1 by done.
  assert (omits_names (Graph nodes1 (Some pk) (Some ck) s).2
            (Graph nodes2 None None s').2) as Hlater2
    by (apply omits_Graph; auto).
  apply omits_names_keys in Hlater2 as [Hp2 Hc2].
  rewrite Hp1 in Hp2. rewrite Hc1 in Hc2.
  split; [|split]; by apply operates_on_current.
Qed.

(** C3, as amended: the key names a handle's six methods use are the
    module-wide ones at the time of the call.  A later construction with
    explicit names [pk'] and [ck'] makes every earlier handle operate on
    [pk'] and [ck']; as long as later constructions supply no name, the
    handle keeps operating on the names in effect at its construction. *)
Theorem keys_follow_latest_construction s nodes pk ck :
  (∀ nodes' pk' ck', pk' ≠ EmptyString → ck' ≠ EmptyString →
     operates_on (Graph nodes pk ck s).1
       (Graph nodes' (Some pk') (Some ck') (Graph nodes pk ck s).2).2 pk' ck')
  ∧ (∀ s', omits_names (Graph nodes pk ck s).2 s' →
       operates_on (Graph nodes pk ck s).1 s'
         (lastParentsKey (Graph nodes pk ck s).2)
         (lastChildrenKey (Graph nodes pk ck s).2)).
Proof.
  split.
  - intros nodes' pk' ck' Hpk Hck.
    destruct (Graph_keys nodes' (Some pk') (Some ck') (Graph nodes pk ck s).2)
      as [Hp Hc].
    rewrite or_key_explicit in Hp, Hc by done.
    by apply operates_on_current.
  - intros s' Hs'. apply omits_names_keys in Hs' as [Hp Hc].
    by apply operates_on_current.
Qed.

End Keys.

(** C3, the claim as stated fails: the handle [g1] is constructed over A
    with the default names, and its [children] method returns A's
    "children" list, [B]; once a second handle has been constructed with the
    names "up" and "down", the same method of [g1] returns A's "down" list,
    [C]. *)
Lemma later_construction_changes_earlier_handle :
  let s1 := (Graph (VRef 0) None None (initial store_two_vocabularies)).2 in
  let g1 := (Graph (VRef 0) None None (initial store_two_vocabularies)).1 in
  let s2 := (Graph (VRef 0) (Some "up"%string) (Some "down"%string) s1).2 in
  children 1 g1 matches_all (GNumber 0%float) s1 = Val [VRef 1]
  ∧ children 1 g1 matches_all (GNumber 0%float) s2 = Val [VRef 2].
Proof. split; reflexivity. Qed.

(** ** The depth bound of [get] *)

Lemma filter_res_pure (p : value → bool) xs :
  filter_res (fun child => Val (p child)) xs = Val (List.filter p xs).
Proof.
  induction xs as [|x xs IH]; simpl; [done|].
  rewrite IH. simpl. by destruct (p x).
Qed.

Lemma relation_list_Some h v k xs :
  relation_list h v k = Some xs ↔
  ∃ r, prop h v k = Some r ∧ elems_of h r = Some xs.
Proof. unfold relation_list. apply bind_Some. Qed.

Lemma get_rec_empty fuel h K f nodes gen :
  elems_of h nodes = Some [] → get_rec (S fuel) h K f nodes gen = Val [].
Proof. intros Hn. simpl. by rewrite Hn. Qed.

(** One node in the frontier: its filtered relation list, then whatever the
    next generation yields for that list. *)
Lemma get_rec_single fuel h K (p : value → bool) nodes x rs gen :
  elems_of h nodes = Some [x] →
  relation_list h x K = Some rs →
  ∃ r, elems_of h r = Some rs ∧
    get_rec (S fuel) h K (fun child => Val (p child)) nodes gen =
      (deeper <~ (if goes_deeper gen
                  then get_rec fuel h K (fun child => Val (p child)) r
                         (next_generations gen)
                  else Val []) ;;
       Val (List.filter p rs ++ deeper)).
Proof.
  intros Hn (r & Hr & Hrs)%relation_list_Some. exists r. split; [done|].
  simpl. rewrite Hn. simpl. rewrite Hr. simpl. rewrite Hrs. simpl.
  rewrite filter_res_pure. simpl.
  destruct (goes_deeper gen); simpl.
  - by destruct (get_rec fuel h K _ r (next_generations gen)).
  - done.
Qed.

Lemma each_res_app {A} (f : value → A → res A) xs ys var :
  each_res f (xs ++ ys) var = (v <~ each_res f xs var ;; each_res f ys v).
Proof.
  revert var. induction xs as [|x xs IH]; intros var; simpl; [done|].
  destruct (f x var); simpl; auto.
Qed.

(** With generations = 0 the traversal stops at the relation lists of the
    frontier: no recursive call is made, and what is returned is the
    filtered list of the node processed last. *)
Lemma get_rec_shallow fuel h K (p : value → bool) nodes N x rs :
  elems_of h nodes = Some (N ++ [x]) →
  (∀ v, v ∈ N → is_Some (relation_list h v K)) →
  relation_list h x K = Some rs →
  get_rec (S fuel) h K (fun child => Val (p child)) nodes (GNumber 0%float)
  = Val (List.filter p rs).
Proof.
  intros Hn HN Hx. simpl. rewrite Hn. simpl. rewrite each_res_app.
  set (F := fun (node : value) (_ : list value) => _).
  assert (∀ v ys, relation_list h v K = Some ys →
            ∀ var, F v var = Val (List.filter p ys)) as HF.
  { intros v ys (r & Hr & Hys)%relation_list_Some var. unfold F.
    rewrite Hr. simpl. rewrite Hys. simpl. rewrite filter_res_pure. simpl.
    by rewrite app_nil_r. }
  assert (∀ var, ∃ out, each_res F N var = Val out) as Hout.
  { clear Hn. induction N as [|v N IH]; intros var; simpl; [by eexists|].
    destruct (HN v) as [ys Hys]; [by left|].
    rewrite (HF v ys Hys). simpl. apply IH. intros w Hw. apply HN. by right. }
  destruct (Hout []) as [out ->]. simpl. by rewrite (HF x rs Hx).
Qed.

(** The instances C6 names hold on the code: on the chain A -> B -> C,
    [children] with a filter that accepts everything returns [B] for
    generations = 0, [B, C] for generations = 1 and [B, C] when generations
    is left out.  And for any node set, key and filter function,
    generations = 0 makes no recursive call (one unit of fuel is enough);
    what it returns is the filtered relation list of the node processed
    last. *)
Theorem children_depth_bound (g : handle) (s : state) (a b c : value) (fuel : nat) :
  elems_of (store s) (VRef (bound g)) = Some [a] →
  relation_list (store s) a (lastChildrenKey s) = Some [b] →
  relation_list (store s) b (lastChildrenKey s) = Some [c] →
  relation_list (store s) c (lastChildrenKey s) = Some [] →
  children (S fuel) g matches_all (GNumber 0%float) s = Val [b]
  ∧ children (S (S fuel)) g matches_all (GNumber 1%float) s = Val [b; c]
  ∧ children (S (S (S (S fuel)))) g matches_all GUndefined s = Val [b; c]
  ∧ (∀ h nodes K p N x rs,
       elems_of h (VRef nodes) = Some (N ++ [x]) →
       (∀ v, v ∈ N → is_Some (relation_list h v K)) →
       relation_list h x K = Some rs →
       get (S fuel) h nodes K (FFunction p) (GNumber 0%float)
       = Val (List.filter (p h) rs)).
Proof.
  intros Hg Ha Hb Hc.
  set (all := fun _ : value => Val true).
  assert (∀ n gen, ∃ ra,
    elems_of (store s) ra = Some [b] ∧
    get_rec (S n) (store s) (lastChildrenKey s) all (VRef (bound g)) gen =
    (deeper <~ (if goes_deeper gen
                then get_rec n (store s) (lastChildrenKey s) all ra
                       (next_generations gen)
                else Val []) ;; Val ([b] ++ deeper))) as HA.
  { intros n gen.
    destruct (get_rec_single n _ _ (fun _ => true) _ _ _ gen Hg Ha) as (ra & ? & Heq).
    by exists ra. }
  assert (∀ n gen ra, elems_of (store s) ra = Some [b] → ∃ rb,
    elems_of (store s) rb = Some [c] ∧
    get_rec (S n) (store s) (lastChildrenKey s) all ra gen =
    (deeper <~ (if goes_deeper gen
                then get_rec n (store s) (lastChildrenKey s) all rb
                       (next_generations gen)
                else Val []) ;; Val ([c] ++ deeper))) as HB.
  { intros n gen ra Hra.
    destruct (get_rec_single n _ _ (fun _ => true) _ _ _ gen Hra Hb) as (rb & ? & Heq).
    by exists rb. }
  assert (∀ n gen rb, elems_of (store s) rb = Some [c] →
    get_rec (S (S n)) (store s) (lastChildrenKey s) all rb gen = Val []) as HC.
  { intros n gen rb Hrb.
    destruct (get_rec_single (S n) _ _ (fun _ => true) _ _ _ gen Hrb Hc)
      as (rc & Hrc & Heq).
    rewrite (get_rec_empty n _ _ _ rc _ Hrc) in Heq.
    etrans; [exact Heq|]. by destruct (goes_deeper gen). }
  unfold children, get, matches_all. fold all. split; [|split; [|split]].
  - destruct (HA fuel (GNumber 0%float)) as (ra & _ & ->). done.
  - destruct (HA (S fuel) (GNumber 1%float)) as (ra & Hra & ->). simpl goes_deeper.
    change (next_generations (GNumber 1%float)) with (GNumber 0%float).
    destruct (HB fuel (GNumber 0%float) ra Hra) as (rb & _ & ->). done.
  - destruct (HA (S (S (S fuel))) GUndefined) as (ra & Hra & ->).
    simpl goes_deeper. simpl next_generations.
    destruct (HB (S (S fuel)) GUndefined ra Hra) as (rb & Hrb & ->).
    simpl goes_deeper. simpl next_generations.
    by rewrite (HC fuel GUndefined rb Hrb).
  - intros h nodes K p N x rs Hn HN Hx.
    exact (get_rec_shallow fuel h K (p h) _ N x rs Hn HN Hx).
Qed.

Lemma children_depth_bound_witness :
  children 1 (Handle 9) matches_all (GNumber 0%float) (initial store_chain) = Val [VRef 1]
  ∧ children 2 (Handle 9) matches_all (GNumber 1%float) (initial store_chain)
    = Val [VRef 1; VRef 2]
  ∧ children 4 (Handle 9) matches_all GUndefined (initial store_chain)
    = Val [VRef 1; VRef 2].
Proof.
  destruct (children_depth_bound (Handle 9) (initial store_chain)
              (VRef 0) (VRef 1) (VRef 2) 0) as (H0 & H1 & H2 & _);
    [reflexivity..|].
  exact (conj H0 (conj H1 H2)).
Defined.

(** C6 (the code departs from the claim): with generations = 0 the
    traversal does not return the direct matches of the node set.  On the
    node set [A1, A2], where A1 has the child B1 (cell 2) and A2 the child
    B2 (cell 3), [children] with generations = 0 returns B2 alone, with a
    filter function that accepts everything and with the filter left out
    alike: the matches of A1 are overwritten when A2 is processed, as they
    are without a bound on the generations. *)
Theorem children_depth_zero_keeps_last_node_only :
  elems_of store_two_parents (VRef 8) = Some [VRef 0; VRef 1]
  ∧ relation_list store_two_parents (VRef 0) "children" = Some [VRef 2]
  ∧ relation_list store_two_parents (VRef 1) "children" = Some [VRef 3]
  ∧ children 1 (Handle 8) matches_all (GNumber 0%float) (initial store_two_parents)
    = Val [VRef 3]
  ∧ children 1 (Handle 8) (FValue VUndef) (GNumber 0%float)
      (initial store_two_parents) = Val [VRef 3].
Proof. repeat split; reflexivity. Qed.

(** ** Lists: [indexOf] and [splice] *)

Lemma strict_eq_true a b : strict_eq a b = true → a = b.
Proof.
  unfold strict_eq. case_bool_decide; [done|]. by intros ?%bool_decide_eq_true.
Qed.

Lemma strict_eq_ref l : strict_eq (VRef l) (VRef l) = true.
Proof.
  unfold strict_eq. rewrite bool_decide_eq_false_2 by done.
  by apply bool_decide_eq_true_2.
Qed.

Lemma strict_eq_ne a b : a ≠ b → strict_eq a b = false.
Proof.
  intros Hne. destruct (strict_eq a b) eqn:Heq; [|done].
  by apply strict_eq_true in Heq.
Qed.

Lemma index_from_absent xs v i :
  v ∉ xs → index_from xs v i = (-1)%Z.
Proof.
  revert i. induction xs as [|x xs IH]; intros i Hv; simpl; [done|].
  apply not_elem_of_cons in Hv as [Hx Hxs].
  rewrite strict_eq_ne by done. by apply IH.
Qed.

Lemma index_from_first ps v ts i :
  v ∉ ps → strict_eq v v = true →
  index_from (ps ++ v :: ts) v i = (i + Z.of_nat (length ps))%Z.
Proof.
  revert i. induction ps as [|p ps IH]; intros i Hv Hvv; simpl.
  - rewrite Hvv. lia.
  - apply not_elem_of_cons in Hv as [Hp Hps].
    rewrite strict_eq_ne by done. rewrite IH by done. lia.
Qed.

Lemma splice_one_at xs (i : nat) :
  i < length xs → splice xs (Z.of_nat i) 1 = take i xs ++ drop (S i) xs.
Proof.
  intros Hi. unfold splice.
  replace (Z.of_nat i <? 0)%Z with false by (symmetry; apply Z.ltb_ge; lia).
  rewrite Z.min_l by lia. rewrite Z.max_l by lia. rewrite Z.min_l by lia.
  rewrite Nat2Z.id. by replace (Z.to_nat (Z.of_nat i + 1)) with (S i) by lia.
Qed.

(** [splice(-1, 1)] deletes the last element. *)
Lemma splice_minus_one xs : splice xs (-1) 1 = removelast xs.
Proof.
  unfold splice. change (-1 <? 0)%Z with true. cbv iota.
  destruct (decide (xs = [])) as [->|Hne]; [done|].
  assert (0 < length xs) by (destruct xs; simpl; [done|lia]).
  replace (Z.max (Z.of_nat (length xs) + -1) 0)
    with (Z.of_nat (length xs) - 1)%Z by lia.
  replace (Z.min (Z.max 1 0) (Z.of_nat (length xs) - (Z.of_nat (length xs) - 1)))
    with 1%Z by lia.
  replace (Z.to_nat (Z.of_nat (length xs) - 1 + 1)) with (length xs) by lia.
  rewrite drop_all, app_nil_r.
  replace (Z.to_nat (Z.of_nat (length xs) - 1)) with (length xs - 1) by lia.
  clear -Hne. induction xs as [|x [|y xs] IH]; [done|done|].
  simpl in *. f_equal. rewrite Nat.sub_0_r in IH. by apply IH.
Qed.

(** Unlinking a value that is absent deletes the last element of the list. *)
Lemma remove_one_absent v xs : v ∉ xs → remove_one v xs = removelast xs.
Proof.
  intros Hv. unfold remove_one, indexOf. rewrite index_from_absent by done.
  apply splice_minus_one.
Qed.

(** Unlinking a value that is present deletes its first occurrence. *)
Lemma remove_one_first ps v ts :
  v ∉ ps → strict_eq v v = true → remove_one v (ps ++ v :: ts) = ps ++ ts.
Proof.
  intros Hv Hvv. unfold remove_one, indexOf. rewrite index_from_first by done.
  rewrite Z.add_0_l, splice_one_at by (rewrite length_app; simpl; lia).
  rewrite take_app_length.
  replace (S (length ps)) with (length ps + 1) by lia.
  by rewrite drop_app_add.
Qed.

Lemma remove_all_cons r rs xs :
  remove_all (r :: rs) xs = remove_all rs (remove_one r xs).
Proof. done. Qed.

(** Unlinking, one by one, the elements of a block [rs] that was appended
    after a prefix free of them deletes exactly that block. *)
Lemma remove_all_app ps rs ss :
  (∀ v, v ∈ rs → strict_eq v v = true) →
  (∀ v, v ∈ rs → v ∉ ps) →
  remove_all rs (ps ++ rs ++ ss) = ps ++ ss.
Proof.
  induction rs as [|r rs IH]; intros Hrefl Hfree; [done|].
  rewrite remove_all_cons. simpl.
  rewrite remove_one_first; [|apply Hfree; by left|apply Hrefl; by left].
  apply IH; intros v Hv; [apply Hrefl | apply Hfree]; by right.
Qed.

Lemma times_snoc {A} n (xs : list A) : times (S n) xs = times n xs ++ xs.
Proof.
  induction n as [|n IH]; simpl; [by rewrite app_nil_r|].
  simpl in IH. rewrite <- app_assoc. f_equal. exact IH.
Qed.

Lemma iter_remove_all c ps rs ss :
  (∀ v, v ∈ rs → strict_eq v v = true) →
  (0 < c → ∀ v, v ∈ rs → v ∉ ps) →
  Nat.iter c (remove_all rs) (ps ++ times c rs ++ ss) = ps ++ ss.
Proof.
  intros Hrefl. revert ss. induction c as [|c IH]; intros ss Hfree; [done|].
  rewrite times_snoc, <- app_assoc. simpl.
  destruct c as [|c'].
  - simpl. apply remove_all_app; [done|]. apply Hfree. lia.
  - rewrite IH by (intros _; apply Hfree; lia).
    apply remove_all_app; [done|]. apply Hfree. lia.
Qed.

Lemma count_absent v xs : v ∉ xs → count v xs = 0.
Proof.
  induction xs as [|x xs IH]; [done|].
  intros [Hx Hxs]%not_elem_of_cons. simpl.
  rewrite decide_False by done. by apply IH.
Qed.

Lemma count_present v xs : v ∈ xs → 0 < count v xs.
Proof.
  induction xs as [|x xs IH]; [by intros ?%elem_of_nil|].
  simpl. destruct (decide (x = v)); [lia|].
  intros [?|?]%elem_of_cons; [congruence|]. by apply IH.
Qed.

(** ** The store under the mutating operations *)

Lemma field_array_inj h l k r xs r' xs' :
  field_array h l k r xs → field_array h l k r' xs' → r = r' ∧ xs = xs'.
Proof.
  intros (o & Hl & Hk & Hr) (o' & Hl' & Hk' & Hr'). simplify_eq. done.
Qed.

Lemma field_array_relation_list h l k r xs :
  field_array h l k r xs → relation_list h (VRef l) k = Some xs.
Proof.
  intros (o & Hl & Hk & Hr). unfold relation_list. simpl.
  rewrite Hl. simpl. rewrite Hk. simpl. by rewrite Hr.
Qed.

Lemma is_node_relation_list h k v :
  is_node h k v → ∃ xs, relation_list h v k = Some xs.
Proof.
  intros (l & r & xs & -> & Hf). exists xs. by eapply field_array_relation_list.
Qed.

(** When every callback that returns keeps an invariant under which the
    iterated array holds [xs], [forEach] runs the callback on the elements
    of [xs] in order. *)
Lemma forEach_from_each (I : heap → Prop) arr xs f :
  (∀ h, I h → h !! arr = Some (Arr xs)) →
  (∀ v h h', v ∈ xs → I h → f v h = Ok tt h' → I h') →
  ∀ n k h, k + n = length xs → I h →
    forEach_from arr f k n h = each f (drop k xs) h.
Proof.
  intros Harr Hstep. induction n as [|n IH]; intros k h Hlen HI.
  - rewrite drop_ge by lia. done.
  - simpl. rewrite (Harr h HI).
    destruct (lookup_lt_is_Some_2 xs k) as [v Hv]; [lia|].
    rewrite Hv, (drop_S _ _ _ Hv). simpl. unfold bind.
    destruct (f v h) as [[] h'|h'] eqn:Hf; [|done].
    apply IH; [lia|]. eapply Hstep; [|done..]. by eapply list_elem_of_lookup_2.
Qed.

Lemma forEach_each (I : heap → Prop) arr xs f h :
  (∀ h, I h → h !! arr = Some (Arr xs)) →
  (∀ v h h', v ∈ xs → I h → f v h = Ok tt h' → I h') →
  I h → forEach arr f h = each f xs h.
Proof.
  intros Harr Hstep HI. unfold forEach. rewrite (Harr h HI).
  by rewrite (forEach_from_each I arr xs f Harr Hstep (length xs) 0 h).
Qed.

Lemma field_array_valid h l k r xs : field_array h l k r xs → r < length h.
Proof. intros (o & _ & _ & Hr). by eapply lookup_lt_Some. Qed.

Section Repoint.
Context (h : heap) (l : loc) (o : gmap string value) (k : string)
  (ys : list value).
Hypothesis Hl : h !! l = Some (Obj o).

Lemma repoint_length : length (repoint h l o k ys) = S (length h).
Proof. unfold repoint. rewrite length_insert, length_app. simpl. lia. Qed.

Lemma repoint_lookup_record :
  repoint h l o k ys !! l = Some (Obj (<[k := VRef (length h)]> o)).
Proof.
  unfold repoint. apply list_lookup_insert_eq.
  rewrite length_app. apply lookup_lt_Some in Hl. lia.
Qed.

Lemma repoint_lookup_ne l' :
  l' ≠ l → l' < length h → repoint h l o k ys !! l' = h !! l'.
Proof.
  intros Hne Hlt. unfold repoint.
  rewrite list_lookup_insert_ne by done. by apply lookup_app_l.
Qed.

Lemma repoint_lookup_fresh : repoint h l o k ys !! length h = Some (Arr ys).
Proof.
  unfold repoint. rewrite list_lookup_insert_ne.
  - by rewrite lookup_app_r, Nat.sub_diag.
  - apply lookup_lt_Some in Hl. lia.
Qed.

Lemma repoint_arrays r zs :
  h !! r = Some (Arr zs) → repoint h l o k ys !! r = Some (Arr zs).
Proof.
  intros Hr. rewrite repoint_lookup_ne; [done| |by eapply lookup_lt_Some].
  intros ->. congruence.
Qed.

Lemma repoint_records l' o' :
  h !! l' = Some (Obj o') →
  ∃ o'', repoint h l o k ys !! l' = Some (Obj o'') ∧
         ∀ k', l' ≠ l ∨ k' ≠ k → o'' !! k' = o' !! k'.
Proof.
  intros Hl'. destruct (decide (l' = l)) as [->|Hne].
  - exists (<[k := VRef (length h)]> o). split; [apply repoint_lookup_record|].
    intros k' [?|?]; [done|]. rewrite lookup_insert_ne by done. congruence.
  - exists o'. split; [|done].
    rewrite repoint_lookup_ne; [done..|by eapply lookup_lt_Some].
Qed.

Lemma repoint_no_record l' o'' :
  repoint h l o k ys !! l' = Some (Obj o'') → ∃ o', h !! l' = Some (Obj o').
Proof.
  intros Hl'. destruct (decide (l' = l)) as [->|Hne]; [by eauto|].
  assert (l' < S (length h)) as Hlt.
  { rewrite <- repoint_length. by eapply lookup_lt_Some. }
  destruct (decide (l' = length h)) as [->|Hne'].
  - rewrite repoint_lookup_fresh in Hl'. congruence.
  - rewrite repoint_lookup_ne in Hl' by (done || lia). eauto.
Qed.

Lemma repoint_field : field_array (repoint h l o k ys) l k (length h) ys.
Proof.
  exists (<[k := VRef (length h)]> o). split; [apply repoint_lookup_record|].
  split; [apply lookup_insert_eq | apply repoint_lookup_fresh].
Qed.

Lemma repoint_field_other l' k' r' zs :
  field_array h l' k' r' zs → l' ≠ l ∨ k' ≠ k →
  field_array (repoint h l o k ys) l' k' r' zs.
Proof.
  intros (o' & Hl' & Hk' & Hr') Hne.
  destruct (repoint_records l' o' Hl') as (o'' & Hl'' & Hsame).
  exists o''. split; [done|]. split; [by rewrite Hsame|].
  by apply repoint_arrays.
Qed.

Lemma repoint_is_node K v :
  is_node h K v → is_node (repoint h l o k ys) K v.
Proof.
  intros (l' & r' & zs & -> & Hf).
  destruct (decide (l' = l ∧ K = k)) as [[-> ->]|Hne].
  - exists l, (length h), ys. split; [done|apply repoint_field].
  - exists l', r', zs. split; [done|]. apply repoint_field_other; [done|].
    destruct (decide (l' = l)); [right|left]; naive_solver.
Qed.

Lemma owns_repoint P own :
  owns P own h → (∀ r, P r → r < length h) →
  owns P (fun l' k' => own l' k' ∨ (l' = l ∧ k' = k)) (repoint h l o k ys).
Proof.
  intros [Harr Hsep] Hvalid.
  assert (∀ l' k' r' zs, own l' k' → ¬ (l' = l ∧ k' = k) →
            field_array (repoint h l o k ys) l' k' r' zs →
            ∃ zs', field_array h l' k' r' zs' ∧ r' < length h) as Hback.
  { intros l' k' r' zs Hown Hne Hf.
    destruct (Harr l' k' Hown) as (r0 & zs0 & Hf0 & _).
    assert (l' ≠ l ∨ k' ≠ k) as Hne'
      by (destruct (decide (l' = l)); [right; intros ?; by apply Hne|by left]).
    pose proof (repoint_field_other _ _ _ _ Hf0 Hne') as Hf1.
    destruct (field_array_inj _ _ _ _ _ _ _ Hf Hf1) as [-> ->].
    exists zs0. split; [done|]. by eapply field_array_valid. }
  split.
  - intros l' k' Hown.
    destruct (decide (l' = l ∧ k' = k)) as [[-> ->]|Hne].
    + exists (length h), ys. split; [apply repoint_field|].
      intros ?%Hvalid. lia.
    + destruct Hown as [Hown|?]; [|done].
      destruct (Harr l' k' Hown) as (r' & zs & Hf & HP).
      exists r', zs. split; [|done]. apply repoint_field_other; [done|].
      destruct (decide (l' = l)); [right; intros ?; by apply Hne|by left].
  - intros l1 k1 l2 k2 r zs1 zs2 Hown1 Hown2 Hf1 Hf2.
    destruct (decide (l1 = l ∧ k1 = k)) as [[-> ->]|Hne1];
      destruct (decide (l2 = l ∧ k2 = k)) as [[-> ->]|Hne2]; [done|..].
    + destruct Hown2 as [Hown2|?]; [|done].
      destruct (Hback _ _ _ _ Hown2 Hne2 Hf2) as (? & _ & Hlt).
      destruct (field_array_inj _ _ _ _ _ _ _ Hf1 repoint_field) as [-> _]. lia.
    + destruct Hown1 as [Hown1|?]; [|done].
      destruct (Hback _ _ _ _ Hown1 Hne1 Hf1) as (? & _ & Hlt).
      destruct (field_array_inj _ _ _ _ _ _ _ Hf2 repoint_field) as [-> _]. lia.
    + destruct Hown1 as [Hown1|?]; [|done]. destruct Hown2 as [Hown2|?]; [|done].
      destruct (Hback _ _ _ _ Hown1 Hne1 Hf1) as (? & Hf1' & _).
      destruct (Hback _ _ _ _ Hown2 Hne2 Hf2) as (? & Hf2' & _).
      by eapply Hsep.
Qed.

End Repoint.

Lemma owns_ext P own own' h :
  (∀ l k, own l k ↔ own' l k) → owns P own h → owns P own' h.
Proof.
  intros Hiff [Harr Hsep]. split.
  - intros l k ?%Hiff. by apply Harr.
  - intros l k l' k' r xs xs' ?%Hiff ?%Hiff. by apply Hsep.
Qed.

Section Adding.
Context `{ArrayText}.

(** The callback of [add] on a well-formed node. *)
Lemma add_callback_node h K rs R l o r xs :
  h !! l = Some (Obj o) → o !! K = Some (VRef r) → h !! r = Some (Arr xs) →
  h !! rs = Some (Arr R) →
  add_callback K rs (VRef l) h = Ok tt (repoint h l o K (xs ++ R)).
Proof.
  intros Hl HK Hr Hrs.
  unfold add_callback, bind, get_prop, lift, concat, set_prop. simpl.
  rewrite Hl. simpl. rewrite HK. simpl. rewrite Hrs, Hr. simpl.
  unfold alloc, ret, bind. simpl.
  rewrite lookup_app_l by (by eapply lookup_lt_Some). by rewrite Hl.
Qed.

Lemma each_add P K rs R N : ∀ own h,
  owns P own h → (∀ r, P r → r < length h) →
  h !! rs = Some (Arr R) → (∀ v, v ∈ N → is_node h K v) →
  ∃ h', each (add_callback K rs) N h = Ok tt h' ∧
        owns P (fun l k => own l k ∨ (VRef l ∈ N ∧ k = K)) h' ∧
        added K N R h h'.
Proof.
  induction N as [|v N IH]; intros own h Hown Hvalid Hrs Hnodes.
  - exists h. split; [done|]. split.
    + eapply owns_ext; [|done]. intros l k. split; [by left|].
      intros [?|[?%elem_of_nil _]]; done.
    + split; [done|done|by eauto|by eauto|].
      intros l k r ys Hf. exists r. simpl. by destruct (decide _); rewrite app_nil_r.
  - destruct (Hnodes v) as (l & r & xs & -> & o & Hl & HK & Hr); [by left|].
    simpl. unfold bind at 1.
    rewrite (add_callback_node h K rs R l o r xs) by done.
    destruct (IH (fun l' k' => own l' k' ∨ (l' = l ∧ k' = K))
                 (repoint h l o K (xs ++ R))) as (h' & Heach & Hown' & Hadd).
    + by apply owns_repoint.
    + intros r' ?%Hvalid. rewrite repoint_length by done. lia.
    + by apply repoint_arrays.
    + intros v' Hv'. apply repoint_is_node; [done|]. apply Hnodes. by right.
    + exists h'. split; [done|]. split.
      * eapply owns_ext; [|done]. intros l' k'. rewrite elem_of_cons.
        split; [|intuition congruence]. intros [[?|[-> ->]]|[? ->]]; intuition congruence.
      * destruct Hadd as [Hlen Harrs Hrecs Hnorec Hlists]. split.
        -- rewrite repoint_length in Hlen by done. lia.
        -- intros r' ys' Hr'. apply Harrs. by apply repoint_arrays.
        -- intros l' o' Hl'.
           destruct (repoint_records h l o K (xs ++ R) Hl l' o' Hl')
             as (o1 & Hl1 & Hsame1).
           destruct (Hrecs l' o1 Hl1) as (o2 & Hl2 & Hsame2).
           exists o2. split; [done|]. intros k' Hk'.
           rewrite Hsame2, Hsame1; [done|..].
           ++ destruct (decide (l' = l)) as [->|?]; [right|by left].
              intros ->. apply Hk'. split; [by left|done].
           ++ intros [? ->]. apply Hk'. split; [by right|done].
        -- intros l' o2 Hl2. destruct (Hnorec l' o2 Hl2) as (o1 & Hl1).
           by eapply repoint_no_record.
        -- intros l' k' r' ys' Hf.
           destruct (decide (l' = l ∧ k' = K)) as [[-> ->]|Hne].
           ++ destruct (field_array_inj _ _ _ _ _ _ _ Hf
                          (ex_intro _ o (conj Hl (conj HK Hr)))) as [-> ->].
              destruct (Hlists l K (length h) (xs ++ R)) as (r' & Hf');
                [by apply repoint_field|].
              exists r'. simpl. rewrite !decide_True in * by done.
              simpl. by rewrite <- app_assoc in Hf'.
           ++ destruct (Hlists l' k' r' ys') as (r'' & Hf').
              { apply repoint_field_other; [done..|].
                destruct (decide (l' = l)); [right|left]; naive_solver. }
              exists r''. simpl. destruct (decide (k' = K)) as [->|]; [|done].
              rewrite decide_False; [done|]. intros [= ->]. by apply Hne.
Qed.

(** [add] on well-formed nodes. *)
Lemma add_phase P own h ns K rs N R :
  owns P own h → (∀ r, P r → r < length h) →
  h !! ns = Some (Arr N) → h !! rs = Some (Arr R) →
  (∀ v, v ∈ N → is_node h K v) →
  ∃ h', add ns K rs h = Ok ns h' ∧
        owns P (fun l k => own l k ∨ (VRef l ∈ N ∧ k = K)) h' ∧
        added K N R h h'.
Proof.
  intros Hown Hvalid Hns Hrs Hnodes.
  destruct (each_add P K rs R N own h) as (h' & Heach & Hown' & Hadd); [done..|].
  exists h'. split; [|done].
  unfold add, bind.
  rewrite (forEach_each
    (fun h1 => (∀ r ys, h !! r = Some (Arr ys) → h1 !! r = Some (Arr ys))
               ∧ (∀ v, v ∈ N → is_node h1 K v)) ns N).
  - by rewrite Heach.
  - intros h1 [Harrs _]. by apply Harrs.
  - intros v h1 h2 Hv [Harrs Hnodes1] Hstep.
    destruct (Hnodes1 v Hv) as (l & r & xs & -> & o & Hl & HK & Hr).
    rewrite (add_callback_node h1 K rs R l o r xs) in Hstep by auto.
    injection Hstep as <-. split.
    + intros r' ys' Hr'. apply repoint_arrays; auto.
    + intros v' Hv'. apply repoint_is_node; auto.
  - done.
Qed.

End Adding.

(** The callback of [remove] on a well-formed node. *)
Lemma remove_callback_node h K l o r xs v :
  h !! l = Some (Obj o) → o !! K = Some (VRef r) → h !! r = Some (Arr xs) →
  remove_callback K (VRef l) v h = Ok tt (<[r := Arr (remove_one v xs)]> h).
Proof.
  intros Hl HK Hr.
  unfold remove_callback, bind, get_prop, indexOf_in, lift, splice_in. simpl.
  rewrite Hl. simpl. rewrite HK. simpl. rewrite Hl. simpl. rewrite HK. simpl.
  rewrite Hr. simpl. by rewrite Hr.
Qed.

Section Resplice.
Context (h : heap) (r : loc) (xs ys : list value).
Hypothesis Hr : h !! r = Some (Arr xs).

Lemma resplice_lookup : <[r := Arr ys]> h !! r = Some (Arr ys).
Proof. apply list_lookup_insert_eq. by eapply lookup_lt_Some. Qed.

Lemma resplice_records l o :
  h !! l = Some (Obj o) ↔ <[r := Arr ys]> h !! l = Some (Obj o).
Proof.
  destruct (decide (l = r)) as [->|Hne].
  - rewrite resplice_lookup, Hr. split; congruence.
  - by rewrite list_lookup_insert_ne.
Qed.

Lemma resplice_field_other l k r' zs :
  field_array h l k r' zs → r' ≠ r → field_array (<[r := Arr ys]> h) l k r' zs.
Proof.
  intros (o & Hl & Hk & Hr') Hne. exists o.
  split; [by apply resplice_records|]. split; [done|].
  by rewrite list_lookup_insert_ne.
Qed.

Lemma resplice_field_same l k zs :
  field_array h l k r zs → field_array (<[r := Arr ys]> h) l k r ys.
Proof.
  intros (o & Hl & Hk & _). exists o.
  split; [by apply resplice_records|]. split; [done|apply resplice_lookup].
Qed.

Lemma resplice_field_back l k r' zs :
  field_array (<[r := Arr ys]> h) l k r' zs → ∃ zs', field_array h l k r' zs'.
Proof.
  intros (o & Hl & Hk & Hr'). apply resplice_records in Hl.
  destruct (decide (r' = r)) as [->|Hne].
  - exists xs, o. done.
  - rewrite list_lookup_insert_ne in Hr' by done. exists zs, o. done.
Qed.

Lemma owns_resplice P own : owns P own h → owns P own (<[r := Arr ys]> h).
Proof.
  intros [Harr Hsep]. split.
  - intros l k Hown. destruct (Harr l k Hown) as (r' & zs & Hf & HP).
    destruct (decide (r' = r)) as [->|Hne].
    + exists r, ys. split; [by eapply resplice_field_same|done].
    + exists r', zs. split; [by apply resplice_field_other|done].
  - intros l k l' k' r' zs zs' Hown Hown' Hf Hf'.
    apply resplice_field_back in Hf as [? Hf].
    apply resplice_field_back in Hf' as [? Hf'].
    by eapply Hsep.
Qed.

End Resplice.

Section Removing.
Context (P : loc → Prop) (own : loc → string → Prop).

Lemma removed_refl h : removed P own (fun _ _ ys => ys) h h.
Proof. by split. Qed.

Lemma removed_trans g1 g2 h h1 h2 :
  removed P own g1 h h1 → removed P own g2 h1 h2 →
  removed P own (fun l k ys => g2 l k (g1 l k ys)) h h2.
Proof.
  intros [Hlen1 Hprot1 Hrec1 Hl1] [Hlen2 Hprot2 Hrec2 Hl2]. split.
  - congruence.
  - intros r ys HP Hr. apply Hprot2; [done|]. by apply Hprot1.
  - intros l o. by rewrite Hrec1, Hrec2.
  - intros l k r ys Hown Hf. apply Hl2; [done|]. by apply Hl1.
Qed.

Lemma removed_ext g g' h h' :
  (∀ l k ys, g l k ys = g' l k ys) → removed P own g h h' → removed P own g' h h'.
Proof.
  intros Heq [Hlen Hprot Hrec Hl]. split; [done..|].
  intros l k r ys Hown Hf. rewrite <- Heq. by apply Hl.
Qed.

Lemma removed_step h K l r xs v :
  owns P own h → own l K → field_array h l K r xs →
  removed P own
    (fun l' k' ys => if decide (l' = l ∧ k' = K) then remove_one v ys else ys)
    h (<[r := Arr (remove_one v xs)]> h).
Proof.
  intros [Harr Hsep] Hown Hf.
  assert (h !! r = Some (Arr xs)) as Hr by (by destruct Hf as (? & ? & ? & ?)).
  split.
  - apply length_insert.
  - intros r' ys HP Hr'. rewrite list_lookup_insert_ne; [done|].
    intros <-. destruct (Harr l K Hown) as (r0 & xs0 & Hf0 & HP0).
    by destruct (field_array_inj _ _ _ _ _ _ _ Hf Hf0) as [-> _].
  - intros l' o'. by eapply resplice_records.
  - intros l' k' r' ys Hown' Hf'.
    destruct (decide (l' = l ∧ k' = K)) as [[-> ->]|Hne].
    + destruct (field_array_inj _ _ _ _ _ _ _ Hf Hf') as [<- <-].
      by eapply resplice_field_same.
    + eapply resplice_field_other; [done..|]. intros ->.
      apply Hne. by eapply Hsep.
Qed.

Lemma each_remove_inner K l R : ∀ h,
  owns P own h → own l K →
  ∃ h', each (remove_callback K (VRef l)) R h = Ok tt h' ∧
        owns P own h' ∧
        removed P own
          (fun l' k' ys => if decide (l' = l ∧ k' = K) then remove_all R ys else ys)
          h h'.
Proof.
  induction R as [|v R IH]; intros h Hown Hl.
  - exists h. split; [done|]. split; [done|].
    eapply removed_ext; [|apply removed_refl].
    intros l' k' ys. by destruct (decide _).
  - destruct Hown as [Harr Hsep].
    destruct (Harr l K Hl) as (r & xs & Hf & HP).
    pose proof Hf as (o & Ho & HK & Hr).
    simpl. unfold bind at 1.
    rewrite (remove_callback_node h K l o r xs v) by done.
    destruct (IH (<[r := Arr (remove_one v xs)]> h)) as (h' & Heach & Hown' & Hrem).
    + by eapply owns_resplice.
    + done.
    + exists h'. split; [done|]. split; [done|].
      eapply removed_ext; [|eapply removed_trans; [|exact Hrem]].
      2: by eapply removed_step.
      intros l' k' ys. simpl. by destruct (decide _).
Qed.

Lemma forEach_remove_inner K l rs R h :
  owns P own h → own l K → P rs → h !! rs = Some (Arr R) →
  ∃ h', forEach rs (remove_callback K (VRef l)) h = Ok tt h' ∧
        owns P own h' ∧
        removed P own
          (fun l' k' ys => if decide (l' = l ∧ k' = K) then remove_all R ys else ys)
          h h'.
Proof.
  intros Hown Hl HP Hrs.
  destruct (each_remove_inner K l R h) as (h' & Heach & Hown' & Hrem); [done..|].
  exists h'. split; [|done].
  rewrite (forEach_each
    (fun h1 => owns P own h1 ∧ h1 !! rs = Some (Arr R)) rs R); [done| | |done].
  - by intros h1 [_ ?].
  - intros v h1 h2 _ [Hown1 Hrs1] Hstep.
    destruct Hown1 as [Harr Hsep].
    destruct (Harr l K Hl) as (r & xs & Hf & HPr).
    pose proof Hf as (o & Ho & HK & Hr).
    rewrite (remove_callback_node h1 K l o r xs v) in Hstep by done.
    injection Hstep as <-. split.
    + by eapply owns_resplice.
    + eapply removed_protected; [|done..]. by eapply removed_step.
Qed.

Lemma each_remove K rs R N : ∀ h,
  owns P own h → P rs → h !! rs = Some (Arr R) →
  (∀ v, v ∈ N → ∃ l, v = VRef l ∧ own l K) →
  ∃ h', each (fun node => forEach rs (remove_callback K node)) N h = Ok tt h' ∧
        owns P own h' ∧
        removed P own
          (fun l k ys => if decide (k = K)
                         then Nat.iter (count (VRef l) N) (remove_all R) ys
                         else ys)
          h h'.
Proof.
  induction N as [|v N IH]; intros h Hown HP Hrs Hnodes.
  - exists h. split; [done|]. split; [done|].
    eapply removed_ext; [|apply removed_refl].
    intros l' k' ys. by destruct (decide _).
  - destruct (Hnodes v) as (l & -> & Hl); [by left|].
    destruct (forEach_remove_inner K l rs R h) as (h1 & Hinner & Hown1 & Hrem1);
      [done..|].
    simpl. unfold bind at 1. rewrite Hinner.
    destruct (IH h1) as (h' & Heach & Hown' & Hrem); [done|done| | |].
    + by eapply removed_protected.
    + intros v' Hv'. apply Hnodes. by right.
    + exists h'. split; [done|]. split; [done|].
      eapply removed_ext; [|eapply removed_trans; [exact Hrem1|exact Hrem]].
      intros l' k' ys. simpl. destruct (decide (k' = K)) as [->|Hne].
      * destruct (decide (l' = l ∧ K = K)) as [[-> _]|Hne'].
        -- rewrite decide_True by done. simpl. by rewrite Nat.iter_swap.
        -- rewrite decide_False; [done|]. intros [= ->]. by apply Hne'.
      * by rewrite decide_False by (by intros [_ ?]).
Qed.

(** [remove] on nodes whose relation arrays are exclusively owned. *)
Lemma remove_phase h ns K rs N R :
  owns P own h → P ns → P rs →
  h !! ns = Some (Arr N) → h !! rs = Some (Arr R) →
  (∀ v, v ∈ N → ∃ l, v = VRef l ∧ own l K) →
  ∃ h', remove ns K rs h = Ok ns h' ∧
        owns P own h' ∧
        removed P own
          (fun l k ys => if decide (k = K)
                         then Nat.iter (count (VRef l) N) (remove_all R) ys
                         else ys)
          h h'.
Proof.
  intros Hown HPns HPrs Hns Hrs Hnodes.
  destruct (each_remove K rs R N h) as (h' & Heach & Hown' & Hrem); [done..|].
  exists h'. split; [|done].
  unfold remove, bind.
  rewrite (forEach_each
    (fun h1 => owns P own h1 ∧ h1 !! ns = Some (Arr N) ∧ h1 !! rs = Some (Arr R))
    ns N).
  - by rewrite Heach.
  - by intros h1 (_ & ? & _).
  - intros v h1 h2 Hv (Hown1 & Hns1 & Hrs1) Hstep.
    destruct (Hnodes v Hv) as (l & -> & Hl).
    destruct (forEach_remove_inner K l rs R h1) as (h2' & Hinner & Hown2 & Hrem2);
      [done..|].
    rewrite Hinner in Hstep. injection Hstep as <-.
    split; [done|]. split; by eapply removed_protected.
  - done.
Qed.

End Removing.

(** ** Stores that only grow *)

Lemma extends_app h cs : extends h (h ++ cs).
Proof. intros l c Hl. rewrite lookup_app_l; [done|]. by eapply lookup_lt_Some. Qed.

Lemma extends_length h h' : extends h h' → length h ≤ length h'.
Proof.
  intros Hext. destruct (decide (length h = 0)) as [|Hne]; [lia|].
  destruct (lookup_lt_is_Some_2 h (length h - 1)) as [c Hc]; [lia|].
  apply Hext, lookup_lt_Some in Hc. lia.
Qed.

Lemma extends_field_array h h' l k r xs :
  extends h h' → field_array h l k r xs → field_array h' l k r xs.
Proof. intros Hext (o & Hl & Hk & Hr). exists o. auto. Qed.

Lemma extends_is_node h h' k v : extends h h' → is_node h k v → is_node h' k v.
Proof.
  intros Hext (l & r & xs & -> & Hf). exists l, r, xs.
  split; [done|]. by eapply extends_field_array.
Qed.

Lemma owns_extends P P' own h h' :
  owns P own h → extends h h' →
  (∀ r, P' r → P r ∨ length h ≤ r) →
  owns P' own h'.
Proof.
  intros [Harr Hsep] Hext HP. split.
  - intros l k Hown. destruct (Harr l k Hown) as (r & xs & Hf & HPr).
    exists r, xs. split; [by eapply extends_field_array|].
    intros [?|?]%HP; [done|]. apply field_array_valid in Hf. lia.
  - intros l k l' k' r xs xs' Hown Hown' Hf Hf'.
    destruct (Harr l k Hown) as (r1 & xs1 & Hf1 & _).
    destruct (Harr l' k' Hown') as (r2 & xs2 & Hf2 & _).
    destruct (field_array_inj _ _ _ _ _ _ _ Hf
                (extends_field_array _ _ _ _ _ _ Hext Hf1)) as [-> ->].
    destruct (field_array_inj _ _ _ _ _ _ _ Hf'
                (extends_field_array _ _ _ _ _ _ Hext Hf2)) as [-> ->].
    by eapply Hsep.
Qed.

Lemma elems_of_Some h v xs :
  elems_of h v = Some xs ↔ ∃ r, v = VRef r ∧ h !! r = Some (Arr xs).
Proof.
  split.
  - destruct v as [| |b|z| |s|r]; simpl; try done.
    destruct (h !! r) as [[o|es]|] eqn:Hr; try done.
    intros [= ->]. by exists r.
  - intros (r & -> & Hr). simpl. by rewrite Hr.
Qed.

(** [toNodes] yields an array holding the nodes it was given. *)
Lemma toNodes_spec h x :
  ∃ xs h', toNodes x h = Ok xs h' ∧
           h' !! xs = Some (Arr (default [x] (elems_of h x))) ∧
           extends h h' ∧
           (xs < length h ∨ (xs = length h ∧ elems_of h x = None)).
Proof.
  destruct (elems_of h x) as [es|] eqn:Hx.
  - apply elems_of_Some in Hx as Hx'. destruct Hx' as (l & -> & Hl).
    exists l, h. unfold toNodes. rewrite Hx. simpl. split; [done|]. split; [done|].
    split; [by unfold extends|]. left. by eapply lookup_lt_Some.
  - exists (length h), (h ++ [Arr [x]]). split.
    + unfold toNodes. destruct x; try done. by rewrite Hx.
    + split; [by rewrite lookup_app_r, Nat.sub_diag|].
      split; [apply extends_app|by right].
Qed.

Lemma str_prop_no_ref s k r : str_prop s k ≠ VRef r.
Proof.
  unfold str_prop. destruct (decide _); [done|].
  destruct (array_index _ _); [|done]. by destruct (String.get _ _).
Qed.

(** A relation list is read either from a field of a record or from an
    element of an array used as a node. *)
Lemma relation_list_cases h v k ys :
  relation_list h v k = Some ys →
  ∃ l r, v = VRef l ∧ h !! r = Some (Arr ys) ∧
         ((∃ es, h !! l = Some (Arr es) ∧ arr_prop es k = VRef r)
          ∨ field_array h l k r ys).
Proof.
  intros (rv & Hrv & (r & -> & Hr)%elems_of_Some)%relation_list_Some.
  destruct v as [| |b|z| |s|l]; simpl in Hrv; try done.
  - injection Hrv as Hrv. by apply str_prop_no_ref in Hrv.
  - destruct (h !! l) as [[o|es]|] eqn:Hl; simpl in Hrv; [| |done].
    + exists l, r. split; [done|]. split; [done|]. right. exists o.
      split; [done|]. split; [|done].
      destruct (o !! k) as [w|]; simpl in Hrv; congruence.
    + exists l, r. split; [done|]. split; [done|]. left. exists es.
      split; [done|]. congruence.
Qed.

Lemma relation_list_array_node h l es k r ys :
  h !! l = Some (Arr es) → arr_prop es k = VRef r → h !! r = Some (Arr ys) →
  relation_list h (VRef l) k = Some ys.
Proof.
  intros Hl Hk Hr. unfold relation_list. simpl. rewrite Hl. simpl.
  rewrite Hk. simpl. by rewrite Hr.
Qed.

Lemma count_positive v xs : 0 < count v xs → v ∈ xs.
Proof.
  intros Hc. destruct (decide (v ∈ xs)) as [|Hn]; [done|].
  rewrite count_absent in Hc by done. lia.
Qed.

(** ** Linking and unlinking again *)

(** The lists of one field through [addChildren] and [removeChildren]:
    [c1] copies of [N] and [c2] copies of [X] are appended, then unlinked. *)
Lemma roundtrip_list (k pk ck : string) (N X ys : list value) c1 c2 :
  (∀ v, v ∈ N → strict_eq v v = true) →
  (∀ v, v ∈ X → strict_eq v v = true) →
  (k = pk → 0 < c1 → ∀ a, a ∈ N → a ∉ ys) →
  (k = ck → 0 < c2 → ∀ b, b ∈ X → b ∉ ys) →
  let L2 := (ys ++ (if decide (k = pk) then times c1 N else []))
              ++ (if decide (k = ck) then times c2 X else []) in
  let L3 := if decide (k = pk) then Nat.iter c1 (remove_all N) L2 else L2 in
  (if decide (k = ck) then Nat.iter c2 (remove_all X) L3 else L3) = ys.
Proof.
  intros HN HX HfN HfX. simpl.
  destruct (decide (k = pk)) as [Hp|Hp], (decide (k = ck)) as [Hc|Hc].
  - rewrite <- app_assoc, iter_remove_all by auto.
    rewrite <- (app_nil_r (times c2 X)), iter_remove_all by auto.
    by rewrite app_nil_r.
  - rewrite app_nil_r. rewrite <- (app_nil_r (times c1 N)), iter_remove_all by auto.
    by rewrite app_nil_r.
  - rewrite app_nil_r. rewrite <- (app_nil_r (times c2 X)), iter_remove_all by auto.
    by rewrite app_nil_r.
  - by rewrite !app_nil_r.
Qed.

Lemma is_node_strict_eq h k v : is_node h k v → strict_eq v v = true.
Proof. intros (l & _ & _ & -> & _). apply strict_eq_ref. Qed.

(** The second [toNodes] of the same argument, in a store that kept the old
    arrays and records: it yields an array with the same nodes. *)
Lemma toNodes_again h h2 x :
  (∀ r ys, h !! r = Some (Arr ys) → h2 !! r = Some (Arr ys)) →
  (∀ l o, h !! l = Some (Obj o) → ∃ o', h2 !! l = Some (Obj o')) →
  (elems_of h x = None → ∃ k, is_node h k x) →
  ∃ xs' h2', toNodes x h2 = Ok xs' h2' ∧
             h2' !! xs' = Some (Arr (default [x] (elems_of h x))) ∧
             extends h2 h2' ∧
             (xs' < length h ∨ xs' = length h2).
Proof.
  intros Harrs Hrecs Hnode.
  destruct (toNodes_spec h2 x) as (xs' & h2' & Hto & Hxs' & Hext & Hfresh).
  exists xs', h2'. split; [done|].
  destruct (elems_of h x) as [es|] eqn:Hx.
  - apply elems_of_Some in Hx as (l & -> & Hl).
    pose proof (Harrs _ _ Hl) as Hl2.
    unfold toNodes in Hto. simpl in *. rewrite Hl2 in *.
    injection Hto as <- <-. split; [done|]. split; [done|].
    left. by eapply lookup_lt_Some.
  - destruct (Hnode eq_refl) as (k & l & r & zs & -> & o & Hl & _).
    destruct (Hrecs l o Hl) as (o' & Hl2).
    unfold toNodes, alloc in Hto. simpl in *. rewrite Hl2 in *.
    injection Hto as <- <-. split; [done|]. split; [done|]. by right.
Qed.

Section Roundtrip.
Context `{ArrayText}.

(** C7: on a handle over the nodes [N], for nodes [X] without a relation to
    [N] yet (no node of [X] in the children list of a node of [N], no node
    of [N] in the parents list of a node of [X]), [addChildren(X)] and then
    [removeChildren(X)] both return, and afterwards every relation list of
    the store, under every key, has the elements it had before, in the same
    order. *)
Theorem add_then_remove_children_roundtrip g x s N :
  elems_of (store s) (VRef (bound g)) = Some N →
  (∀ a, a ∈ N → is_node (store s) (lastChildrenKey s) a) →
  (∀ b, b ∈ default [x] (elems_of (store s) x) →
        is_node (store s) (lastParentsKey s) b) →
  (∀ a b ys, a ∈ N → b ∈ default [x] (elems_of (store s) x) →
     relation_list (store s) a (lastChildrenKey s) = Some ys → b ∉ ys) →
  (∀ a b ys, a ∈ N → b ∈ default [x] (elems_of (store s) x) →
     relation_list (store s) b (lastParentsKey s) = Some ys → a ∉ ys) →
  returns (addChildren g x s) = true
  ∧ returns (removeChildren g x (after s (addChildren g x s))) = true
  ∧ ∀ v k ys,
      relation_list (store s) v k = Some ys →
      relation_list
        (final_store (removeChildren g x (after s (addChildren g x s))))
        v k = Some ys.
Proof.
  destruct s as [h pk ck], g as [ns].
  cbn [store lastParentsKey lastChildrenKey bound].
  set (X := default [x] (elems_of h x)).
  intros (? & [= <-] & Hns)%elems_of_Some HwfN HwfX Hnr1 Hnr2.
  (* addChildren *)
  destruct (toNodes_spec h x) as (xs & hb & Hto & Hxs & Hext & _). fold X in Hxs.
  set (P1 := fun r : loc => r < length hb).
  destruct (add_phase P1 (fun _ _ => False) hb xs pk ns X N)
    as (h1 & Hadd1 & Hown1 & Ha1).
  { split; [by intros ? ? []|by intros ? ? ? ? ? ? ? []]. }
  { done. }
  { done. }
  { by apply Hext. }
  { intros v Hv. eapply extends_is_node; [done|]. by apply HwfX. }
  destruct (add_phase P1 _ h1 ns ck xs N X Hown1) as (h2 & Hadd2 & Hown2 & Ha2).
  { intros r Hr. unfold P1 in Hr. pose proof (added_length _ _ _ _ _ Ha1). lia. }
  { eapply added_arrays; [done|]. by apply Hext. }
  { by eapply added_arrays. }
  { intros v Hv. destruct (HwfN v Hv) as (l & r & zs & -> & Hf).
    apply (extends_field_array _ hb) in Hf; [|done].
    destruct (added_lists _ _ _ _ _ Ha1 _ _ _ _ Hf) as (r' & Hf').
    eexists _, _, _. split; [done|exact Hf']. }
  assert (addChildren (Handle ns) x (State h pk ck) = Ok ns h2) as ->.
  { unfold addChildren, bind. simpl. by rewrite Hto, Hadd1, Hadd2. }
  unfold after. simpl.
  assert (∀ r ys, h !! r = Some (Arr ys) → h2 !! r = Some (Arr ys)) as Harr2.
  { intros r ys Hr. eapply added_arrays; [done|].
    eapply added_arrays; [done|]. by apply Hext. }
  assert (∀ l o, h !! l = Some (Obj o) →
            ∃ o2, h2 !! l = Some (Obj o2) ∧
                  ∀ k, ¬ (VRef l ∈ X ∧ k = pk) → ¬ (VRef l ∈ N ∧ k = ck) →
                       o2 !! k = o !! k) as Hrec2.
  { intros l o Hl. apply Hext in Hl.
    destruct (added_records _ _ _ _ _ Ha1 _ _ Hl) as (o1 & Hl1 & Hsame1).
    destruct (added_records _ _ _ _ _ Ha2 _ _ Hl1) as (o2 & Hl2 & Hsame2).
    exists o2. split; [done|]. intros k HX HN. by rewrite Hsame2, Hsame1. }
  (* removeChildren *)
  destruct (toNodes_again h h2 x) as (xs' & h2' & Hto' & Hxs' & Hext' & Hfresh).
  { done. }
  { intros l o Hl. destruct (Hrec2 l o Hl) as (o2 & ? & _). by exists o2. }
  { intros Hx. exists pk. apply HwfX. unfold X. rewrite Hx. by left. }
  fold X in Hxs'.
  pose proof (extends_length _ _ Hext) as Hlen.
  assert (ns < length hb) as Hnslt.
  { apply lookup_lt_Some in Hns. lia. }
  set (P2 := fun r : loc => r < length hb ∨ r = xs').
  set (own2 := fun (l : loc) (k : string) =>
                 (False ∨ (VRef l ∈ X ∧ k = pk)) ∨ (VRef l ∈ N ∧ k = ck)) in *.
  assert (owns P2 own2 h2') as Hown2'.
  { eapply owns_extends; [exact Hown2|exact Hext'|].
    intros r [Hr| ->]; [by left|]. destruct Hfresh as [?|?]; [left|right].
    - unfold P1. lia.
    - lia. }
  destruct (remove_phase P2 own2 h2' xs' pk ns X N) as (h3 & Hrem3 & Hown3 & Hr3).
  { done. }
  { by right. }
  { by left. }
  { done. }
  { apply Hext'. by apply Harr2. }
  { intros v Hv. destruct (HwfX v Hv) as (l & ? & ? & -> & _).
    exists l. split; [done|]. left. right. done. }
  destruct (remove_phase P2 own2 h3 ns ck xs' N X) as (h4 & Hrem4 & Hown4 & Hr4).
  { done. }
  { by left. }
  { by right. }
  { eapply removed_protected; [done|by left|]. apply Hext'. by apply Harr2. }
  { eapply removed_protected; [done|by right|done]. }
  { intros v Hv. destruct (HwfN v Hv) as (l & ? & ? & -> & _).
    exists l. split; [done|]. right. done. }
  assert (removeChildren (Handle ns) x (State h2 pk ck) = Ok ns h4) as ->.
  { unfold removeChildren, bind. simpl. by rewrite Hto', Hrem3, Hrem4. }
  split; [done|]. split; [done|]. simpl.
  assert (∀ r ys, h !! r = Some (Arr ys) → h4 !! r = Some (Arr ys)) as Harr4.
  { intros r ys Hr.
    assert (P2 r) by (left; apply lookup_lt_Some in Hr; lia).
    eapply removed_protected; [done..|].
    eapply removed_protected; [done..|]. apply Hext'. by apply Harr2. }
  intros v k ys (l & r & -> & Hr & [(es & Hl & Hk)|Hf])%relation_list_cases.
  { eapply relation_list_array_node; eauto. }
  destruct (decide ((VRef l ∈ X ∧ k = pk) ∨ (VRef l ∈ N ∧ k = ck))) as [Hown|Hnown].
  - apply (extends_field_array _ hb) in Hf as Hfb; [|done].
    destruct (added_lists _ _ _ _ _ Ha1 _ _ _ _ Hfb) as (r1 & Hf1).
    destruct (added_lists _ _ _ _ _ Ha2 _ _ _ _ Hf1) as (r2 & Hf2).
    apply (extends_field_array _ h2') in Hf2; [|done].
    assert (own2 l k) as Hown2l by (unfold own2; tauto).
    pose proof (removed_lists _ _ _ _ _ Hr3 _ _ _ _ Hown2l Hf2) as Hf3.
    pose proof (removed_lists _ _ _ _ _ Hr4 _ _ _ _ Hown2l Hf3) as Hf4.
    apply field_array_relation_list in Hf4. rewrite Hf4. f_equal.
    apply (roundtrip_list k pk ck N X ys).
    + intros a Ha. eapply is_node_strict_eq. by apply HwfN.
    + intros b Hb. eapply is_node_strict_eq. by apply HwfX.
    + intros -> Hc a Ha. eapply Hnr2; [done| |by eapply field_array_relation_list].
      by apply count_positive.
    + intros -> Hc b Hb. eapply Hnr1; [|done|by eapply field_array_relation_list].
      by apply count_positive.
  - destruct Hf as (o & Hl & Hk & _).
    destruct (Hrec2 l o Hl) as (o2 & Hl2 & Hsame).
    apply Hext' in Hl2. apply (removed_records _ _ _ _ _ Hr3) in Hl2.
    apply (removed_records _ _ _ _ _ Hr4) in Hl2.
    eapply field_array_relation_list. exists o2. split; [done|].
    split; [|by apply Harr4]. rewrite Hsame; [done|tauto..].
Qed.

End Roundtrip.

(** ** Frame properties of [add] and [remove] *)

(** An invariant of every callback is an invariant of [forEach]; the
    callback is only ever run on an element the array holds at that time. *)
Lemma forEach_from_invariant (I : heap → Prop) arr (f : value → M unit) :
  (∀ h xs v, I h → h !! arr = Some (Arr xs) → v ∈ xs → I (final_store (f v h))) →
  ∀ n k h, I h → I (final_store (forEach_from arr f k n h)).
Proof.
  intros Hstep. induction n as [|n IH]; intros k h HI; [done|].
  simpl. destruct (h !! arr) as [[o|xs]|] eqn:Harr; [done| |done].
  destruct (xs !! k) as [v|] eqn:Hv; [|by apply IH].
  unfold bind. pose proof (Hstep h xs v HI Harr) as Hf.
  destruct (f v h) as [[] h'|h']; simpl in Hf.
  - apply IH, Hf. by eapply list_elem_of_lookup_2.
  - apply Hf. by eapply list_elem_of_lookup_2.
Qed.

Lemma forEach_invariant (I : heap → Prop) arr (f : value → M unit) h :
  (∀ h xs v, I h → h !! arr = Some (Arr xs) → v ∈ xs → I (final_store (f v h))) →
  I h → I (final_store (forEach arr f h)).
Proof.
  intros Hstep HI. unfold forEach.
  destruct (h !! arr) as [[o|xs]|]; [done| |done].
  by apply forEach_from_invariant.
Qed.

Lemma array_index_Some n k i : array_index n k = Some i → pretty i = k ∧ i < n.
Proof.
  unfold array_index. intros [Hin Hk]%find_some.
  apply bool_decide_eq_true in Hk. apply in_seq in Hin. split; [done|lia].
Qed.

Lemma same_except_refl K c : same_except K c c.
Proof. by destruct c. Qed.

Lemma same_except_trans K c1 c2 c3 :
  same_except K c1 c2 → same_except K c2 c3 → same_except K c1 c3.
Proof.
  destruct c1, c2, c3; simpl; try done.
  - intros H12 H23 k Hk. by rewrite H23, H12.
  - intros [Hl12 H12] [Hl23 H23]. split; [congruence|].
    intros k Hk. by rewrite H23, H12.
Qed.

Lemma same_except_record K o c : same_except K (Obj o) (Obj (<[K := c]> o)).
Proof. intros k Hk. by apply lookup_insert_ne. Qed.

Lemma same_except_array K es i c :
  array_index (length es) K = Some i →
  same_except K (Arr es) (Arr (<[i := c]> es)).
Proof.
  intros [HK Hi]%array_index_Some. split; [apply length_insert|].
  intros k Hk. unfold arr_prop. rewrite length_insert.
  destruct (decide (k = "length"%string)); [done|].
  destruct (array_index (length es) k) as [j|] eqn:Hj; [|done].
  apply array_index_Some in Hj as [Hj _].
  rewrite list_lookup_insert_ne; [done|]. congruence.
Qed.

Lemma add_frame_refl K N h : add_frame K N h h.
Proof. intros l c Hl. exists c. split; [done|]. split; [apply same_except_refl|done]. Qed.

Lemma add_frame_app K N h h1 ext :
  add_frame K N h h1 → add_frame K N h (h1 ++ ext).
Proof.
  intros Hf l c Hl. destruct (Hf l c Hl) as (c' & Hl' & Hc).
  exists c'. split; [|done]. by apply extends_app.
Qed.

Lemma add_frame_update K N h h1 l c1 c1' :
  add_frame K N h h1 → h1 !! l = Some c1 → same_except K c1 c1' →
  (l < length h → VRef l ∈ N) →
  add_frame K N h (<[l := c1']> h1).
Proof.
  intros Hf Hl1 Hsame HN l' c Hl'.
  destruct (Hf l' c Hl') as (c' & Hl1' & Hc & Hout).
  destruct (decide (l' = l)) as [->|Hne].
  - exists c1'. split.
    + apply list_lookup_insert_eq. by eapply lookup_lt_Some.
    + assert (c' = c1) as -> by congruence.
      split; [by eapply same_except_trans|].
      intros Hnot. destruct Hnot. apply HN. by eapply lookup_lt_Some.
  - exists c'. by rewrite list_lookup_insert_ne.
Qed.

Lemma elem_of_insert_inv {A} (xs : list A) i c x :
  x ∈ <[i := c]> xs → x = c ∨ x ∈ xs.
Proof.
  intros (j & Hj)%list_elem_of_lookup_1.
  apply list_lookup_insert_Some in Hj as [(-> & -> & _)|[_ Hj]]; [by left|].
  right. by eapply list_elem_of_lookup_2.
Qed.

(** The stores an assignment [v[K] = c] can leave. *)
Lemma set_prop_cases v K c h2 :
  final_store (set_prop v K c h2) = h2
  ∨ (∃ l ob, v = VRef l ∧ h2 !! l = Some (Obj ob) ∧
       final_store (set_prop v K c h2) = <[l := Obj (<[K := c]> ob)]> h2)
  ∨ (∃ l es i, v = VRef l ∧ h2 !! l = Some (Arr es) ∧
       array_index (length es) K = Some i ∧
       final_store (set_prop v K c h2) = <[l := Arr (<[i := c]> es)]> h2).
Proof.
  unfold set_prop. destruct v as [| |b|z| |s|l]; try by left.
  destruct (h2 !! l) as [[ob|es]|] eqn:Hl; [| |by left].
  - right. left. by exists l, ob.
  - destruct (array_index (length es) K) as [i|] eqn:Hi; [|by left].
    right. right. by exists l, es, i.
Qed.

Section Frame.
Context `{ArrayText}.

(** The stores the callback of [add] can leave: at most one array is
    allocated, and at most the property [K] of the node is assigned, a
    reference to that fresh array or a string. *)
Lemma add_callback_cases K rs v h1 :
  ∃ ext c,
    ((ext = [] ∧ ∃ s, c = VStr s) ∨ (∃ ys, ext = [Arr ys] ∧ c = VRef (length h1)))
    ∧ (final_store (add_callback K rs v h1) = h1 ++ ext
       ∨ (∃ l ob, v = VRef l ∧ h1 !! l = Some (Obj ob) ∧
            final_store (add_callback K rs v h1)
            = <[l := Obj (<[K := c]> ob)]> (h1 ++ ext))
       ∨ (∃ l es i, v = VRef l ∧ h1 !! l = Some (Arr es) ∧
            array_index (length es) K = Some i ∧
            final_store (add_callback K rs v h1)
            = <[l := Arr (<[i := c]> es)]> (h1 ++ ext))).
Proof.
  assert (∃ s : string, VStr "" = VStr s) as Hstr by eauto.
  unfold add_callback, bind, get_prop, lift.
  destruct (prop h1 v K) as [r|] eqn:Hp; simpl.
  2: { exists [], (VStr ""). split; [by left|]. left. by rewrite app_nil_r. }
  assert (∀ l cl ext, v = VRef l → (h1 ++ ext) !! l = Some cl → h1 !! l = Some cl)
    as Hback.
  { intros l cl ext -> Hl. simpl in Hp.
    destruct (h1 !! l) as [cl'|] eqn:Hl1; [|done].
    by rewrite (extends_app h1 ext l cl' Hl1) in Hl. }
  assert (∀ ext c h2, h2 = h1 ++ ext →
    final_store (set_prop v K c h2) = h1 ++ ext
    ∨ (∃ l ob, v = VRef l ∧ h1 !! l = Some (Obj ob) ∧
         final_store (set_prop v K c h2) = <[l := Obj (<[K := c]> ob)]> (h1 ++ ext))
    ∨ (∃ l es i, v = VRef l ∧ h1 !! l = Some (Arr es) ∧
         array_index (length es) K = Some i ∧
         final_store (set_prop v K c h2) = <[l := Arr (<[i := c]> es)]> (h1 ++ ext)))
    as Hset.
  { intros ext c h2 ->.
    destruct (set_prop_cases v K c (h1 ++ ext))
      as [Hs|[(l & ob & -> & Hl & Hs)|(l & es & i & -> & Hl & Hi & Hs)]].
    - by left.
    - right. left. exists l, ob. split; [done|]. split; [by eapply Hback|done].
    - right. right. exists l, es, i. split; [done|]. split; [by eapply Hback|done]. }
  unfold concat.
  destruct r as [| |b|z| |s|l0];
    try (exists [], (VStr ""); split; [by left|]; left; by rewrite app_nil_r).
  - exists [], (VStr (s +:+ array_to_string h1
                        (default [VRef rs] (elems_of h1 (VRef rs))))).
    split; [left; eauto|]. apply Hset. by rewrite app_nil_r.
  - destruct (h1 !! l0) as [[ob0|xs]|] eqn:Hl0;
      try (exists [], (VStr ""); split; [by left|]; left; by rewrite app_nil_r).
    unfold alloc, ret, bind.
    exists [Arr (xs ++ default [VRef rs] (elems_of h1 (VRef rs)))],
           (VRef (length h1)).
    split; [right; eauto|]. by apply Hset.
Qed.

End Frame.

Lemma splice_subset xs start count v : v ∈ splice xs start count → v ∈ xs.
Proof.
  unfold splice. intros [Hv|Hv]%elem_of_app.
  - apply elem_of_take in Hv as (i & Hi & _). by eapply list_elem_of_lookup_2.
  - apply list_elem_of_lookup_1 in Hv as (i & Hi). rewrite lookup_drop in Hi.
    by eapply list_elem_of_lookup_2.
Qed.

(** The stores the callback of [remove] can leave: at most the array the
    node holds under [K] is spliced. *)
Lemma remove_callback_cases K v w h1 :
  final_store (remove_callback K v w h1) = h1
  ∨ (∃ r ys, prop h1 v K = Some (VRef r) ∧ h1 !! r = Some (Arr ys) ∧
       final_store (remove_callback K v w h1) = <[r := Arr (remove_one w ys)]> h1).
Proof.
  unfold remove_callback, bind, get_prop, indexOf_in, splice_in, lift.
  destruct (prop h1 v K) as [r|] eqn:Hp; simpl; [|by left].
  rewrite Hp. simpl.
  destruct r as [| |b|z| |s|r]; simpl; try by left.
  destruct (h1 !! r) as [[o|ys]|] eqn:Hr; simpl; try by left.
  rewrite Hr. right. by exists r, ys.
Qed.

Section FrameTheorem.
Context `{ArrayText}.

Lemma add_frame_holds nodes K related h :
  add_frame K (default [] (elems_of h (VRef nodes))) h
    (final_store (add nodes K related h)).
Proof.
  assert (final_store (add nodes K related h)
          = final_store (forEach nodes (add_callback K related) h)) as ->.
  { unfold add, bind. by destruct (forEach _ _ h). }
  simpl. destruct (h !! nodes) as [[o|N]|] eqn:Hn; simpl;
    try (unfold forEach; rewrite Hn; apply add_frame_refl).
  assert (nodes < length h) as Hlt by (by eapply lookup_lt_Some).
  apply (forEach_invariant
    (fun h1 => length h ≤ length h1 ∧ add_frame K N h h1 ∧
       ∀ xs l, h1 !! nodes = Some (Arr xs) → VRef l ∈ xs → l < length h →
               VRef l ∈ N)).
  2: { split; [done|]. split; [apply add_frame_refl|].
       intros xs l Hxs Hl _. congruence. }
  intros h1 xs v (Hlen & Hf & HE) Hxs Hv.
  destruct (add_callback_cases K related v h1)
    as (ext & c & Hc &
        [Hs|[(l & ob & -> & Hl & Hs)|(l & es & i & -> & Hl & Hi & Hs)]]);
    rewrite Hs; clear Hs.
  - split; [rewrite length_app; lia|]. split; [by apply add_frame_app|].
    intros xs' l Hxs'. rewrite lookup_app_l in Hxs' by lia. by apply HE.
  - split; [rewrite length_insert, length_app; lia|]. split.
    + eapply add_frame_update; [by apply add_frame_app|by apply extends_app| |].
      * apply same_except_record.
      * intros Hl'. by eapply HE.
    + intros xs' l' Hxs'.
      rewrite list_lookup_insert_ne in Hxs'.
      * rewrite lookup_app_l in Hxs' by lia. by apply HE.
      * intros ->. congruence.
  - split; [rewrite length_insert, length_app; lia|]. split.
    + eapply add_frame_update; [by apply add_frame_app|by apply extends_app| |].
      * by apply same_except_array.
      * intros Hl'. by eapply HE.
    + intros xs' l' Hxs' Hl' Hlt'.
      destruct (decide (l = nodes)) as [->|Hne].
      * rewrite list_lookup_insert_eq in Hxs'
          by (rewrite length_app; apply lookup_lt_Some in Hl; lia).
        assert (es = xs) as -> by congruence.
        injection Hxs' as <-.
        apply elem_of_insert_inv in Hl' as [Hl'|Hl']; [|by eapply HE].
        destruct Hc as [(_ & s & ->)|(ys & _ & ->)]; [done|].
        injection Hl' as ->. lia.
      * rewrite list_lookup_insert_ne in Hxs' by done.
        rewrite lookup_app_l in Hxs' by lia. by eapply HE.
Qed.

End FrameTheorem.

Lemma remove_frame_holds nodes K related h :
  remove_frame K (default [] (elems_of h (VRef nodes))) h
    (final_store (remove nodes K related h)).
Proof.
  assert (final_store (remove nodes K related h)
          = final_store (forEach nodes
              (fun node => forEach related (remove_callback K node)) h)) as ->.
  { unfold remove, bind. by destruct (forEach _ _ h). }
  split.
  - apply (forEach_invariant
      (fun h1 => ∀ l o, h !! l = Some (Obj o) → h1 !! l = Some (Obj o))); [|done].
    intros h1 xs v HI _ _.
    apply (forEach_invariant
      (fun h2 => ∀ l o, h !! l = Some (Obj o) → h2 !! l = Some (Obj o))); [|done].
    intros h2 ws w HI2 _ _.
    destruct (remove_callback_cases K v w h2) as [->|(r & ys & _ & Hr & ->)]; [done|].
    intros l o Hl. apply HI2 in Hl. rewrite list_lookup_insert_ne; [done|].
    intros <-. congruence.
  - simpl. destruct (h !! nodes) as [[o|N]|] eqn:Hn; simpl;
      try (intros _ r _; unfold forEach; by rewrite Hn).
    intros Hrec r Hun.
    set (J := fun h1 : heap =>
      length h1 = length h
      ∧ (∀ l c, h !! l = Some c → ∃ c', h1 !! l = Some c' ∧ shrunk c c')
      ∧ (∀ r, (∀ v, v ∈ N → prop h v K ≠ Some (VRef r)) → h1 !! r = h !! r)).
    assert (∀ v h2 r0, J h2 → v ∈ N →
              prop h2 v K = Some (VRef r0) → prop h v K = Some (VRef r0)) as Hstable.
    { intros v h2 r0 (Hlen & Hcells & _) Hv Hp.
      destruct v as [| |b|z| |s|l]; try done. simpl in *.
      destruct (h !! l) as [c|] eqn:Hl.
      - destruct (Hcells l c Hl) as (c' & Hl2 & Hsh). rewrite Hl2 in Hp.
        destruct c as [o|es]; [|by destruct (Hrec l es)].
        destruct c' as [o'|es']; [|done]. simpl in Hsh. by subst.
      - apply lookup_ge_None in Hl. rewrite lookup_ge_None_2 in Hp by lia. done. }
    assert (∀ v, v ∈ N → ∀ h2 w, J h2 →
              J (final_store (remove_callback K v w h2))) as Hinner.
    { intros v Hv h2 w HJ.
      destruct (remove_callback_cases K v w h2) as [->|(r0 & ys & Hp & Hr0 & ->)];
        [done|].
      pose proof (Hstable v h2 r0 HJ Hv Hp) as Hp0.
      destruct HJ as (Hlen & Hcells & Hsame). split; [|split].
      - by rewrite length_insert.
      - intros l c Hl. destruct (Hcells l c Hl) as (c' & Hl2 & Hsh).
        destruct (decide (l = r0)) as [->|Hne].
        + exists (Arr (remove_one w ys)). split.
          * apply list_lookup_insert_eq. by eapply lookup_lt_Some.
          * assert (c' = Arr ys) as -> by congruence.
            destruct c as [o|es]; [done|]. simpl in *.
            intros u Hu. by apply Hsh, (splice_subset ys (indexOf ys w) 1).
        + exists c'. by rewrite list_lookup_insert_ne.
      - intros r' Hun'. rewrite list_lookup_insert_ne; [by apply Hsame|].
        intros <-. by apply (Hun' v). }
    enough (J (final_store (forEach nodes
              (fun node => forEach related (remove_callback K node)) h)))
      as (_ & _ & HJ) by (by apply HJ).
    apply forEach_invariant.
    + intros h1 xs v HJ Hxs Hv.
      assert (v ∈ N) as HvN.
      { destruct HJ as (_ & Hcells & _).
        destruct (Hcells nodes (Arr N) Hn) as (c' & Hn1 & Hsh).
        assert (c' = Arr xs) as -> by congruence. by apply Hsh. }
      apply forEach_invariant; [|done].
      intros h2 ws w HJ2 _ _. by apply Hinner.
    + split; [done|]. split; [|done].
      intros l c Hl. exists c. split; [done|]. destruct c; simpl; auto.
Qed.

(** C10, as amended.  [add] with the key [K] changes nothing but the field
    [K] of the nodes it is given: every cell keeps its kind and all its
    properties other than [K], and a cell that is not among the nodes is
    unchanged.  [remove] changes no record (each field still holds the
    reference it held), and the only arrays it splices are those some node
    holds under [K].  So, for nodes that are not arrays themselves, every
    field other than [K] of a given node and every field of any other node
    still holds its array with the same elements after [add], and after
    [remove] too unless that array is shared, that is, unless it is also
    what a given node holds under [K].  All of this holds whether the call
    returns or throws. *)
Theorem add_remove_frame_unshared `{ArrayText} nodes K related h :
  let N := default [] (elems_of h (VRef nodes)) in
  add_frame K N h (final_store (add nodes K related h))
  ∧ remove_frame K N h (final_store (remove nodes K related h))
  ∧ ((∀ l es, VRef l ∈ N → h !! l ≠ Some (Arr es)) →
     ∀ l k r ys, field_array h l k r ys → ¬ (VRef l ∈ N ∧ k = K) →
       field_array (final_store (add nodes K related h)) l k r ys
       ∧ ((∀ v, v ∈ N → prop h v K ≠ Some (VRef r)) →
          field_array (final_store (remove nodes K related h)) l k r ys)).
Proof.
  intros N.
  pose proof (add_frame_holds nodes K related h) as Hadd.
  pose proof (remove_frame_holds nodes K related h) as Hrem.
  fold N in Hadd, Hrem.
  split; [done|]. split; [done|].
  intros Hnoarr l k r ys (o & Hl & Hk & Hr) Hnot. split.
  - destruct (Hadd l (Obj o) Hl) as (c' & Hl' & Hsame & Hkeep).
    destruct (Hadd r (Arr ys) Hr) as (c'' & Hr' & _ & Hkeep').
    rewrite Hkeep' in Hr' by (intros Hin; by apply (Hnoarr r ys Hin)).
    destruct c' as [o'|es']; [|done]. exists o'. split; [done|]. split; [|done].
    destruct (decide (VRef l ∈ N)) as [Hin|Hout].
    + rewrite (Hsame k); [done|]. intros ->. by apply Hnot.
    + specialize (Hkeep Hout). by injection Hkeep as ->.
  - intros Hnohold. destruct Hrem as [Hrecs Harrs].
    exists o. split; [by apply Hrecs|]. split; [done|].
    by rewrite (Harrs Hnoarr r Hnohold).
Qed.

(** ** Faults on values that are not well-formed nodes *)

Lemma forEach_from_Ok (I : heap → Prop) arr (f : value → M unit) :
  (∀ u h1 a h2, I h1 → f u h1 = Ok a h2 → I h2) →
  ∀ n k h1 a h2, I h1 → forEach_from arr f k n h1 = Ok a h2 → I h2.
Proof.
  intros Hstep. induction n as [|n IH]; intros k h1 a h2 HI; simpl.
  - by intros [= _ <-].
  - destruct (h1 !! arr) as [[o|xs]|]; [done| |done].
    destruct (xs !! k) as [u|]; [|by apply IH].
    unfold bind. destruct (f u h1) as [b h1'|] eqn:Hf; [|done].
    apply IH. by eapply Hstep.
Qed.

Lemma forEach_Ok (I : heap → Prop) arr (f : value → M unit) h1 a h2 :
  (∀ u h1 a h2, I h1 → f u h1 = Ok a h2 → I h2) →
  I h1 → forEach arr f h1 = Ok a h2 → I h2.
Proof.
  intros Hstep HI. unfold forEach.
  destruct (h1 !! arr) as [[o|xs]|]; [done| |done].
  by apply forEach_from_Ok.
Qed.

(** If the callback throws on whatever the array holds at the index [i],
    [forEach] throws: at that index at the latest. *)
Lemma forEach_from_throws (I : heap → Prop) arr (f : value → M unit) i :
  (∀ u h1 a h2, I h1 → f u h1 = Ok a h2 → I h2) →
  (∀ h1, I h1 → ∃ xs v, h1 !! arr = Some (Arr xs) ∧ xs !! i = Some v
                        ∧ returns (f v h1) = false) →
  ∀ n k h1, I h1 → k ≤ i → i < k + n →
    returns (forEach_from arr f k n h1) = false.
Proof.
  intros Hstep Hthrow. induction n as [|n IH]; intros k h1 HI Hk Hi; [lia|].
  simpl. destruct (Hthrow h1 HI) as (xs & v & -> & Hv & Hf).
  destruct (decide (k = i)) as [->|Hne].
  - rewrite Hv. unfold bind. by destruct (f v h1).
  - destruct (xs !! k) as [u|]; [|apply IH; [done|lia..]].
    unfold bind. destruct (f u h1) as [b h1'|] eqn:Hfu; [|done].
    apply IH; [by eapply Hstep|lia..].
Qed.

Lemma set_prop_Ok v K c h a h2 :
  set_prop v K c h = Ok a h2 →
  ∃ l, v = VRef l ∧
    ((∃ ob, h !! l = Some (Obj ob) ∧ h2 = <[l := Obj (<[K := c]> ob)]> h)
     ∨ (∃ es i, h !! l = Some (Arr es) ∧ array_index (length es) K = Some i ∧
          h2 = <[l := Arr (<[i := c]> es)]> h)).
Proof.
  unfold set_prop. destruct v as [| |b|z| |s|l]; try done.
  destruct (h !! l) as [[ob|es]|] eqn:Hl; [| |done].
  - intros [= _ <-]. exists l. split; [done|]. left. by exists ob.
  - destruct (array_index (length es) K) as [i|] eqn:Hi; [|done].
    intros [= _ <-]. exists l. split; [done|]. right. by exists es, i.
Qed.

Lemma lacks_extends h h' K v : extends h h' → lacks h K v → lacks h' K v.
Proof.
  intros Hext. destruct v as [| |b|z| |s|l]; try done.
  intros (o & Hl & Ho). exists o. split; [by apply Hext|done].
Qed.

Section Faults.
Context `{ArrayText}.

(** When the callback of [add] returns, it has read an array or a string
    under [K] and assigned the node's property [K]. *)
Lemma add_callback_Ok K rs u h1 a h2 :
  add_callback K rs u h1 = Ok a h2 →
  ∃ l r ext c, u = VRef l ∧ prop h1 u K = Some r ∧
    ((∃ s s', r = VStr s ∧ c = VStr s' ∧ ext = [])
     ∨ (∃ l0 xs ys, r = VRef l0 ∧ h1 !! l0 = Some (Arr xs) ∧
          c = VRef (length h1) ∧ ext = [Arr ys]))
    ∧ ((∃ ob, h1 !! l = Some (Obj ob) ∧
          h2 = <[l := Obj (<[K := c]> ob)]> (h1 ++ ext))
       ∨ (∃ es i, h1 !! l = Some (Arr es) ∧ array_index (length es) K = Some i ∧
            h2 = <[l := Arr (<[i := c]> es)]> (h1 ++ ext))).
Proof.
  unfold add_callback, bind, get_prop, lift.
  destruct (prop h1 u K) as [r|] eqn:Hp; [|done]. simpl.
  assert (∀ ext c, set_prop u K c (h1 ++ ext) = Ok a h2 →
    ∃ l, u = VRef l ∧
      ((∃ ob, h1 !! l = Some (Obj ob) ∧
          h2 = <[l := Obj (<[K := c]> ob)]> (h1 ++ ext))
       ∨ (∃ es i, h1 !! l = Some (Arr es) ∧ array_index (length es) K = Some i ∧
            h2 = <[l := Arr (<[i := c]> es)]> (h1 ++ ext)))) as Hset.
  { intros ext c (l & -> & Hcases)%set_prop_Ok. exists l. split; [done|].
    simpl in Hp. destruct (h1 !! l) as [cl|] eqn:Hl; [|done].
    rewrite (extends_app h1 ext l cl Hl) in Hcases.
    destruct Hcases as [(ob & [= ->] & ->)|(es & i & [= ->] & Hi & ->)].
    - left. by exists ob.
    - right. by exists es, i. }
  unfold concat. destruct r as [| |b|z| |s|l0]; try done.
  - intros Hs.
    edestruct (Hset []) as (l & -> & Hcases); [rewrite app_nil_r; exact Hs|].
    eexists l, (VStr s), [], _. split; [done|]. split; [done|].
    split; [|exact Hcases]. left; eauto.
  - destruct (h1 !! l0) as [[ob0|xs]|] eqn:Hl0; try done.
    unfold alloc, ret, bind. intros (l & -> & Hcases)%Hset.
    eexists l, (VRef l0), _, _. split; [done|]. split; [done|].
    split; [|exact Hcases]. right; eauto 10.
Qed.

Lemma add_callback_throws K rs v h1 :
  lacks h1 K v → returns (add_callback K rs v h1) = false.
Proof.
  intros Hlacks. destruct (add_callback K rs v h1) as [a h2|] eqn:Hcb; [|done].
  apply add_callback_Ok in Hcb
    as (l & r & ext & c & -> & Hp & Hr & _).
  destruct Hlacks as (o & Hl & Ho). simpl in Hp. rewrite Hl in Hp. simpl in Hp.
  rewrite Ho in Hp. injection Hp as <-.
  by destruct Hr as [(? & ? & ? & _)|(? & ? & ? & ? & _)].
Qed.

(** A callback of [add] that returns, whatever its key and node, leaves a
    value that lacks [K] where it is in the array [arr]. *)
Lemma add_callback_lacking K' rs u h1 a h2 arr i K :
  lacking_at arr i K h1 → add_callback K' rs u h1 = Ok a h2 →
  lacking_at arr i K h2.
Proof.
  intros (xs & v & Harr & Hv & Hlacks)
    (l & r & ext & c & -> & Hp & Hr & Hupd)%add_callback_Ok.
  assert (l < length (h1 ++ ext)) as Hlt.
  { simpl in Hp. destruct (h1 !! l) eqn:Hl; [|done].
    apply lookup_lt_Some in Hl. rewrite length_app. lia. }
  destruct Hupd as [(ob & Hl & ->)|(es & j & Hl & Hj & ->)].
  - (* a record was assigned *)
    exists xs, v. split; [|split; [done|]].
    { rewrite list_lookup_insert_ne by congruence. by apply extends_app. }
    destruct v as [| |b|z| |s|lv]; try done.
    destruct Hlacks as (o & Hlv & Ho).
    destruct (decide (lv = l)) as [->|Hne].
    + exists (<[K' := c]> ob). split; [by apply list_lookup_insert_eq|].
      assert (o = ob) as -> by congruence.
      rewrite lookup_insert_ne; [done|]. intros ->.
      simpl in Hp. rewrite Hl in Hp. simpl in Hp. rewrite Ho in Hp.
      injection Hp as <-.
      by destruct Hr as [(? & ? & ? & _)|(? & ? & ? & ? & _)].
    + exists o. split; [|done].
      rewrite list_lookup_insert_ne by done. by apply extends_app.
  - (* an element of an array was assigned *)
    assert (∀ lv, lacks h1 K (VRef lv) →
              lacks (<[l := Arr (<[j := c]> es)]> (h1 ++ ext)) K (VRef lv))
      as Hkeep.
    { intros lv (o & Hlv & Ho). exists o. split; [|done].
      rewrite list_lookup_insert_ne by congruence. by apply extends_app. }
    destruct (decide (l = arr)) as [->|Hne].
    + assert (es = xs) as -> by congruence.
      destruct (decide (j = i)) as [->|Hji].
      * exists (<[i := c]> xs), c. split; [by apply list_lookup_insert_eq|].
        split; [apply list_lookup_insert_eq; by eapply lookup_lt_Some|].
        simpl in Hp. rewrite Hl in Hp. simpl in Hp. unfold arr_prop in Hp.
        rewrite Hj, Hv in Hp. simpl in Hp.
        destruct (decide (K' = "length"%string)); injection Hp as <-.
        { by destruct Hr as [(? & ? & ? & _)|(? & ? & ? & ? & _)]. }
        destruct Hr as [(? & ? & -> & -> & _)|(l0 & ? & ? & -> & Hl0 & _)];
          [done|].
        destruct Hlacks as (o & Hlv & _). congruence.
      * exists (<[j := c]> xs), v. split; [by apply list_lookup_insert_eq|].
        split; [by rewrite list_lookup_insert_ne|].
        destruct v as [| |b|z| |s|lv]; try done. by apply Hkeep.
    + exists xs, v. split; [|split; [done|]].
      { rewrite list_lookup_insert_ne by done. by apply extends_app. }
      destruct v as [| |b|z| |s|lv]; try done. by apply Hkeep.
Qed.

Lemma add_lacking nodes K' related h a h2 arr i K :
  lacking_at arr i K h → add nodes K' related h = Ok a h2 → lacking_at arr i K h2.
Proof.
  intros Hlack. unfold add, bind, ret.
  destruct (forEach nodes (add_callback K' related) h) as [b h'|] eqn:Hfe; [|done].
  intros [= _ <-]. eapply (forEach_Ok (lacking_at arr i K)); [|done..].
  intros u h1 c h1' Hl1 Hcb. by eapply add_callback_lacking.
Qed.

(** [add] throws when its array of nodes holds a value that lacks [K]. *)
Lemma add_throws nodes K related i h :
  lacking_at nodes i K h → returns (add nodes K related h) = false.
Proof.
  intros Hlack. pose proof Hlack as (xs & v & Hn & Hv & _).
  unfold add, bind, forEach. rewrite Hn.
  assert (returns (forEach_from nodes (add_callback K related) 0 (length xs) h)
          = false) as Hthrow.
  { apply (forEach_from_throws (lacking_at nodes i K) nodes _ i); [| |done|lia|].
    - intros u h1 c h1' Hl1 Hcb. by eapply add_callback_lacking.
    - intros h1 (xs1 & v1 & Hn1 & Hv1 & Hl1). exists xs1, v1.
      split; [done|]. split; [done|]. by apply add_callback_throws.
    - simpl. by eapply lookup_lt_Some. }
  by destruct (forEach_from nodes (add_callback K related) 0 (length xs) h).
Qed.

End Faults.

Lemma lacks_no_array h K v r : lacks h K v → prop h v K ≠ Some (VRef r).
Proof.
  destruct v as [| |b|z| |s|l]; simpl; try done.
  - intros _ [= Hs]. by apply str_prop_no_ref in Hs.
  - intros (o & -> & Ho). simpl. by rewrite Ho.
Qed.

Lemma lacks_relation_list h K v : lacks h K v → relation_list h v K = None.
Proof.
  intros Hlacks. destruct (relation_list h v K) as [ys|] eqn:Hrel; [|done].
  apply relation_list_Some in Hrel as (r & Hp & (r' & -> & _)%elems_of_Some).
  by apply lacks_no_array in Hp.
Qed.

Lemma remove_callback_throws K v w h :
  lacks h K v → returns (remove_callback K v w h) = false.
Proof.
  intros Hlacks.
  unfold remove_callback, bind, get_prop, indexOf_in, splice_in, lift.
  destruct (prop h v K) as [r|] eqn:Hp; simpl; [|done].
  rewrite Hp. simpl.
  destruct r as [| |b|z| |s|r]; simpl; try done.
  by apply lacks_no_array in Hp.
Qed.

Lemma forEach_throws_first arr f h v xs :
  h !! arr = Some (Arr (v :: xs)) → returns (f v h) = false →
  returns (forEach arr f h) = false.
Proof.
  intros Harr Hf. unfold forEach. rewrite Harr. simpl. rewrite Harr. simpl.
  unfold bind. by destruct (f v h).
Qed.

(** [remove] throws when the first node lacks [K] and there is something to
    unlink. *)
Lemma remove_throws_first nodes K related h v N w R :
  h !! nodes = Some (Arr (v :: N)) → h !! related = Some (Arr (w :: R)) →
  lacks h K v → returns (remove nodes K related h) = false.
Proof.
  intros Hn Hr Hlacks.
  assert (returns (forEach nodes
            (fun node => forEach related (remove_callback K node)) h) = false)
    as Hthrow.
  { eapply forEach_throws_first; [done|].
    eapply forEach_throws_first; [done|]. by apply remove_callback_throws. }
  unfold remove, bind. by destruct (forEach nodes _ h).
Qed.

(** The traversal throws when the first node of the frontier lacks [K]. *)
Lemma get_rec_throws_first fuel h K f nodes v N gen :
  elems_of h nodes = Some (v :: N) → lacks h K v →
  get_rec (S fuel) h K f nodes gen = Throws.
Proof.
  intros Hn Hrel%lacks_relation_list. simpl. rewrite Hn. simpl.
  unfold relation_list in Hrel.
  destruct (prop h v K) as [r|]; simpl in *; [|done]. by rewrite Hrel.
Qed.

Lemma get_throws_first fuel h K filter nodes v N gen :
  h !! nodes = Some (Arr (v :: N)) → lacks h K v →
  get (S fuel) h nodes K filter gen = Throws.
Proof.
  intros Hn Hlacks. unfold get. destruct filter as [p|w].
  - apply (get_rec_throws_first _ _ _ _ _ v N); [|done]. simpl. by rewrite Hn.
  - destruct (truthy w).
    + apply (get_rec_throws_first _ _ _ _ _ v N); [|done]. simpl. by rewrite Hn.
    + apply (get_rec_throws_first _ _ _ _ _ v N).
      * simpl. by rewrite (extends_app h [Obj ∅] nodes _ Hn).
      * eapply lacks_extends; [apply extends_app|done].
Qed.

Section FaultTheorem.
Context `{ArrayText}.

(** Linking in both directions throws when a supplied value lacks the key
    of the first [add] or a bound node lacks the key of the second. *)
Lemma add_both_throws h ns x k1 k2 :
  (∃ v, v ∈ default [x] (elems_of h x) ∧ lacks h k1 v)
  ∨ (∃ v, v ∈ default [] (elems_of h (VRef ns)) ∧ lacks h k2 v) →
  returns ((cs <- toNodes x ;; related <- add cs k1 ns ;; add ns k2 related) h)
  = false.
Proof.
  intros Hbad.
  destruct (toNodes_spec h x) as (xs & hb & Hto & Hxs & Hext & _).
  unfold bind at 1. rewrite Hto. unfold bind at 1.
  destruct Hbad as [(v & Hv & Hlacks)|(v & Hv & Hlacks)].
  - apply list_elem_of_lookup_1 in Hv as (i & Hi).
    pose proof (add_throws xs k1 ns i hb) as Hthrow.
    destruct (add xs k1 ns hb); [|done].
    discriminate Hthrow. exists (default [x] (elems_of h x)), v.
    split; [done|]. split; [done|]. by eapply lacks_extends.
  - destruct (elems_of h (VRef ns)) as [N|] eqn:HN; [|by apply elem_of_nil in Hv].
    apply elems_of_Some in HN as (? & [= <-] & Hns). simpl in Hv.
    apply list_elem_of_lookup_1 in Hv as (i & Hi).
    assert (lacking_at ns i k2 hb) as Hlack.
    { exists N, v. split; [by apply Hext|]. split; [done|].
      by eapply lacks_extends. }
    destruct (add xs k1 ns hb) as [r h1|] eqn:Hadd; [|done].
    eapply add_throws, add_lacking; done.
Qed.

(** C9, as amended: [addChildren] and [addParents] raise a TypeError
    whenever a supplied value or a bound node is not a well-formed node for
    the relation field the call appends to.  It is not the engine's only
    hard fault: [removeChildren] and [removeParents] raise it when the
    first node they unlink from lacks the field and there is something to
    unlink, and [children] and [parents] raise it when the first bound node
    lacks the field. *)
Theorem malformed_node_faults g x s :
  let h := store s in
  let pk := lastParentsKey s in
  let ck := lastChildrenKey s in
  let N := default [] (elems_of h (VRef (bound g))) in
  let X := default [x] (elems_of h x) in
  ((∃ v, v ∈ X ∧ lacks h pk v) ∨ (∃ v, v ∈ N ∧ lacks h ck v) →
     returns (addChildren g x s) = false)
  ∧ ((∃ v, v ∈ X ∧ lacks h ck v) ∨ (∃ v, v ∈ N ∧ lacks h pk v) →
       returns (addParents g x s) = false)
  ∧ (∀ v X', X = v :: X' → N ≠ [] → lacks h pk v →
       returns (removeChildren g x s) = false)
  ∧ (∀ v X', X = v :: X' → N ≠ [] → lacks h ck v →
       returns (removeParents g x s) = false)
  ∧ (∀ v N' fuel f gen, N = v :: N' → lacks h ck v →
       children (S fuel) g f gen s = Throws)
  ∧ (∀ v N' fuel f gen, N = v :: N' → lacks h pk v →
       parents (S fuel) g f gen s = Throws).
Proof.
  destruct s as [h pk ck], g as [ns]. simpl.
  assert (∀ K v X', default [x] (elems_of h x) = v :: X' →
            default [] (elems_of h (VRef ns)) ≠ [] → lacks h K v →
            ∀ K', returns ((cs <- toNodes x ;; related <- remove cs K ns ;;
                            remove ns K' related) h) = false) as Hrem.
  { intros K v X' HX HN Hlacks K'.
    destruct (toNodes_spec h x) as (xs & hb & Hto & Hxs & Hext & _).
    rewrite HX in Hxs.
    unfold bind at 1. rewrite Hto. unfold bind at 1.
    simpl in HN.
    destruct (h !! ns) as [[o|[|w R]]|] eqn:Hns; simpl in HN; try done.
    pose proof (remove_throws_first xs K ns hb v X' w R Hxs (Hext _ _ Hns)
                  (lacks_extends _ _ _ _ Hext Hlacks)) as Hthrow.
    by destruct (remove xs K ns hb). }
  assert (∀ v N', default [] (elems_of h (VRef ns)) = v :: N' →
            h !! ns = Some (Arr (v :: N'))) as Hbound.
  { intros v N' HN. simpl in HN.
    destruct (h !! ns) as [[o|N]|]; simpl in HN; try done. by subst. }
  split; [apply add_both_throws|]. split; [apply add_both_throws|].
  split; [intros v X' HX HN Hl; by eapply Hrem|].
  split; [intros v X' HX HN Hl; by eapply Hrem|].
  split.
  - intros v N' fuel f gen HN Hl. eapply get_throws_first; [|done].
    by eapply Hbound.
  - intros v N' fuel f gen HN Hl. eapply get_throws_first; [|done].
    by eapply Hbound.
Qed.

End FaultTheorem.

(** C9, the claim as stated fails: a fault on a missing relation field is
    not peculiar to [addParents] and [addChildren].  B (cell 1) has no
    "parents" field, and [removeChildren([B])] on {A} throws. *)
Lemma removeChildren_throws_on_missing_field :
  returns (removeChildren (Handle 4) (VRef 5) (initial store_malformed)) = false.
Proof. reflexivity. Qed.

(** ** The symmetry invariant *)

Lemma count_app v xs ys : count v (xs ++ ys) = count v xs + count v ys.
Proof. induction xs as [|x xs IH]; simpl; [done|]. rewrite IH. lia. Qed.

Lemma count_times v n xs : count v (times n xs) = n * count v xs.
Proof.
  induction n as [|n IH]; simpl; [done|]. rewrite count_app, IH. lia.
Qed.

Lemma count_elem_of v xs : v ∈ xs ↔ 0 < count v xs.
Proof. split; [apply count_present|apply count_positive]. Qed.

(** The multiplicity form of the invariant gives the form with "iff". *)
Lemma symmetric_iff h pk ck : symmetric h pk ck → mutual h pk ck.
Proof.
  intros Hsym a b oa ob Ha Hb. rewrite !count_elem_of.
  by rewrite (Hsym a b oa ob Ha Hb).
Qed.

Lemma toNodes_store h x xs hb :
  toNodes x h = Ok xs hb → hb = h ∨ hb = h ++ [Arr [x]].
Proof.
  unfold toNodes, alloc. destruct x as [| |b|z| |s|l]; try (intros [= _ <-]; by right).
  destruct (elems_of h (VRef l)); intros [= _ <-]; [by left|by right].
Qed.

Section Symmetry.
Context `{ArrayText}.

(** Linking in both directions, on well-formed nodes: [X] gets [N] under
    [k1], then [N] gets [X] under [k2]. *)
Lemma add_both_lists h ns x k1 k2 N :
  h !! ns = Some (Arr N) →
  (∀ v, v ∈ default [x] (elems_of h x) → is_node h k1 v) →
  (∀ v, v ∈ N → is_node h k2 v) →
  ∃ h2,
    (cs <- toNodes x ;; related <- add cs k1 ns ;; add ns k2 related) h = Ok ns h2
    ∧ (∀ l o, h !! l = Some (Obj o) →
         ∃ o2, h2 !! l = Some (Obj o2) ∧
               ∀ k, ¬ (VRef l ∈ default [x] (elems_of h x) ∧ k = k1) →
                    ¬ (VRef l ∈ N ∧ k = k2) → o2 !! k = o !! k)
    ∧ (∀ l o2, h2 !! l = Some (Obj o2) → ∃ o, h !! l = Some (Obj o))
    ∧ (∀ r ys, h !! r = Some (Arr ys) → h2 !! r = Some (Arr ys))
    ∧ (∀ l k r ys, field_array h l k r ys →
         ∃ r', field_array h2 l k r'
                 ((ys ++ (if decide (k = k1)
                          then times (count (VRef l) (default [x] (elems_of h x))) N
                          else []))
                  ++ (if decide (k = k2)
                      then times (count (VRef l) N) (default [x] (elems_of h x))
                      else []))).
Proof.
  set (X := default [x] (elems_of h x)). intros Hns HwfX HwfN.
  destruct (toNodes_spec h x) as (xs & hb & Hto & Hxs & Hext & _). fold X in Hxs.
  set (P1 := fun r : loc => r < length hb).
  destruct (add_phase P1 (fun _ _ => False) hb xs k1 ns X N)
    as (h1 & Hadd1 & Hown1 & Ha1).
  { split; [by intros ? ? []|by intros ? ? ? ? ? ? ? []]. }
  { done. }
  { done. }
  { by apply Hext. }
  { intros v Hv. eapply extends_is_node; [done|]. by apply HwfX. }
  destruct (add_phase P1 _ h1 ns k2 xs N X Hown1) as (h2 & Hadd2 & Hown2 & Ha2).
  { intros r Hr. unfold P1 in Hr. pose proof (added_length _ _ _ _ _ Ha1). lia. }
  { eapply added_arrays; [done|]. by apply Hext. }
  { by eapply added_arrays. }
  { intros v Hv. destruct (HwfN v Hv) as (l & r & zs & -> & Hf).
    apply (extends_field_array _ hb) in Hf; [|done].
    destruct (added_lists _ _ _ _ _ Ha1 _ _ _ _ Hf) as (r' & Hf').
    eexists _, _, _. split; [done|exact Hf']. }
  exists h2. split.
  { unfold bind. by rewrite Hto, Hadd1, Hadd2. }
  split; [|split; [|split]].
  - intros l o Hl. apply Hext in Hl.
    destruct (added_records _ _ _ _ _ Ha1 _ _ Hl) as (o1 & Hl1 & Hsame1).
    destruct (added_records _ _ _ _ _ Ha2 _ _ Hl1) as (o2 & Hl2 & Hsame2).
    exists o2. split; [done|]. intros k HX HN. by rewrite Hsame2, Hsame1.
  - intros l o2 Hl2.
    destruct (added_no_record _ _ _ _ _ Ha2 _ _ Hl2) as (o1 & Hl1).
    destruct (added_no_record _ _ _ _ _ Ha1 _ _ Hl1) as (o & Hl).
    destruct (toNodes_store _ _ _ _ Hto) as [-> | ->]; [by eauto|].
    destruct (decide (l < length h)) as [Hlt|Hge].
    + rewrite lookup_app_l in Hl by done. eauto.
    + rewrite lookup_app_r in Hl by lia.
      destruct (l - length h) as [|n]; simpl in Hl; [congruence|].
      by rewrite lookup_nil in Hl.
  - intros r ys Hr. eapply added_arrays; [done|].
    eapply added_arrays; [done|]. by apply Hext.
  - intros l k r ys Hf. apply (extends_field_array _ hb) in Hf; [|done].
    destruct (added_lists _ _ _ _ _ Ha1 _ _ _ _ Hf) as (r1 & Hf1).
    destruct (added_lists _ _ _ _ _ Ha2 _ _ _ _ Hf1) as (r2 & Hf2).
    by exists r2.
Qed.

End Symmetry.

Section SymmetryAdd.
Context `{ArrayText}.

(** Linking in both directions keeps the symmetry invariant of a closed
    store; [k1] and [k2] are the two key names, in either order. *)
Lemma add_both_symmetric h ns x k1 k2 pk ck N :
  (k1 = pk ∧ k2 = ck) ∨ (k1 = ck ∧ k2 = pk) →
  closed h →
  h !! ns = Some (Arr N) →
  (∀ v, v ∈ default [x] (elems_of h x) → is_node h k1 v) →
  (∀ v, v ∈ N → is_node h k2 v) →
  symmetric h pk ck →
  ∃ h2,
    (cs <- toNodes x ;; related <- add cs k1 ns ;; add ns k2 related) h = Ok ns h2
    ∧ symmetric h2 pk ck.
Proof.
  set (X := default [x] (elems_of h x)).
  intros Hkeys Hclosed Hns HwfX HwfN Hsym.
  destruct (add_both_lists h ns x k1 k2 N Hns HwfX HwfN)
    as (h2 & Hop & Hrecs & Hback & Harrs & Hlists). fold X in Hrecs, Hlists.
  exists h2. split; [done|].
  assert (∀ l o k, h !! l = Some (Obj o) →
    kids h2 l k
    = (kids h l k ++ (if decide (k = k1) then times (count (VRef l) X) N else []))
      ++ (if decide (k = k2) then times (count (VRef l) N) X else [])) as Hkids.
  { intros l o k Hl. unfold kids.
    destruct (relation_list h (VRef l) k) as [ys|] eqn:Hrel; simpl.
    - apply relation_list_cases in Hrel
        as (l' & r & [= <-] & Hr & [(es & Hes & _)|Hf]); [congruence|].
      destruct (Hlists l k r ys Hf) as (r' & Hf').
      by rewrite (field_array_relation_list _ _ _ _ _ Hf').
    - assert (¬ (VRef l ∈ X ∧ k = k1)) as HnX.
      { intros [Hin ->]. apply HwfX, is_node_relation_list in Hin as [? ?].
        congruence. }
      assert (¬ (VRef l ∈ N ∧ k = k2)) as HnN.
      { intros [Hin ->]. apply HwfN, is_node_relation_list in Hin as [? ?].
        congruence. }
      destruct (Hrecs l o Hl) as (o2 & Hl2 & Hsame).
      assert (relation_list h2 (VRef l) k = None) as ->.
      { unfold relation_list in *. simpl in *. rewrite Hl2. rewrite Hl in Hrel.
        simpl in *. rewrite Hsame by done.
        destruct (o !! k) as [[| |b|z| |s|r]|] eqn:Hk; simpl in *; try done.
        pose proof (Hclosed l o k r Hl Hk) as Hlt.
        destruct (lookup_lt_is_Some_2 h r Hlt) as [[o'|ys] Hr].
        - destruct (Hrecs r o' Hr) as (o2' & -> & _). done.
        - by rewrite Hr in Hrel. }
      simpl. destruct (decide (k = k1)) as [Hk1|Hk1].
      + rewrite (count_absent (VRef l) X) by (intros ?; by apply HnX). simpl.
        destruct (decide (k = k2)); [|done].
        by rewrite (count_absent (VRef l) N) by (intros ?; by apply HnN).
      + destruct (decide (k = k2)); [|done].
        by rewrite (count_absent (VRef l) N) by (intros ?; by apply HnN). }
  intros a b oa2 ob2 Ha2 Hb2.
  destruct (Hback a oa2 Ha2) as (oa & Ha). destruct (Hback b ob2 Hb2) as (ob & Hb).
  rewrite (Hkids b ob ck Hb), (Hkids a oa pk Ha).
  rewrite !count_app, (Hsym a b oa ob Ha Hb).
  destruct Hkeys as [[-> ->]|[-> ->]].
  - rewrite (decide_True (P := ck = ck)), (decide_True (P := pk = pk)) by done.
    destruct (decide (ck = pk)) as [->|Hne].
    + rewrite (decide_True (P := pk = pk)) by done. rewrite !count_times. lia.
    + rewrite (decide_False (P := pk = ck)) by done. rewrite !count_times. simpl. lia.
  - rewrite (decide_True (P := ck = ck)), (decide_True (P := pk = pk)) by done.
    destruct (decide (ck = pk)) as [->|Hne].
    + rewrite (decide_True (P := pk = pk)) by done. rewrite !count_times. lia.
    + rewrite (decide_False (P := pk = ck)) by done. rewrite !count_times. simpl. lia.
Qed.

End SymmetryAdd.

(** *** Counting through unlinkings *)

Lemma count_remove_one v w ys :
  strict_eq w w = true → w ∈ ys →
  count v (remove_one w ys) = count v ys - (if decide (w = v) then 1 else 0).
Proof.
  intros Hw (ps & ts & -> & Hps)%list_elem_of_split_l.
  rewrite remove_one_first by done. rewrite !count_app. simpl.
  destruct (decide (w = v)); lia.
Qed.

Lemma count_remove_all v R : ∀ ys,
  (∀ w, w ∈ R → strict_eq w w = true) → NoDup R → (∀ w, w ∈ R → w ∈ ys) →
  count v (remove_all R ys) = count v ys - (if decide (v ∈ R) then 1 else 0).
Proof.
  induction R as [|w R IH]; intros ys Hrefl Hnodup Hin.
  - unfold remove_all. cbn [foldl].
    destruct (decide (v ∈ [])) as [[]%elem_of_nil|]. lia.
  - apply NoDup_cons in Hnodup as [Hw Hnodup].
    rewrite remove_all_cons, IH; [| |done|].
    + rewrite count_remove_one; [|apply Hrefl; by left|apply Hin; by left].
      destruct (decide (w = v)) as [->|Hne].
      * rewrite decide_False by done. rewrite decide_True by (by left). lia.
      * destruct (decide (v ∈ R)) as [HvR|HvR].
        -- rewrite decide_True by (by right). lia.
        -- rewrite decide_False; [lia|].
           intros [?|?]%elem_of_cons; [congruence|done].
    + intros w' Hw'. apply Hrefl. by right.
    + intros w' Hw'. apply count_elem_of.
      rewrite count_remove_one; [|apply Hrefl; by left|apply Hin; by left].
      rewrite decide_False by (intros ->; done).
      rewrite Nat.sub_0_r. apply count_elem_of, Hin. by right.
Qed.

Lemma NoDup_count v xs : NoDup xs → v ∈ xs → count v xs = 1.
Proof.
  induction 1 as [|x xs Hx Hnodup IH]; [by intros ?%elem_of_nil|].
  simpl. intros [->|Hv]%elem_of_cons.
  - rewrite decide_True by done. by rewrite count_absent.
  - rewrite decide_False by (intros ->; done). by rewrite IH.
Qed.

(** The list of one field after an unlinking of the nodes [R], for a set
    of nodes [N] without repetition. *)
Lemma count_unlinked v l N R ys :
  NoDup N → NoDup R →
  (∀ w, w ∈ R → strict_eq w w = true) →
  (VRef l ∈ N → ∀ w, w ∈ R → w ∈ ys) →
  count v (Nat.iter (count (VRef l) N) (remove_all R) ys)
  = count v ys - (if decide (VRef l ∈ N ∧ v ∈ R) then 1 else 0).
Proof.
  intros HN HR Hrefl Hin. destruct (decide (VRef l ∈ N)) as [Hl|Hl].
  - rewrite (NoDup_count _ _ HN Hl). simpl. rewrite count_remove_all by auto.
    destruct (decide (VRef l ∈ N ∧ v ∈ R)) as [[_ HvR]|Hn].
    + by rewrite (decide_True (P := v ∈ R)).
    + rewrite (decide_False (P := v ∈ R)); [done|tauto].
  - rewrite (count_absent (VRef l) N) by done. simpl.
    destruct (decide (VRef l ∈ N ∧ v ∈ R)) as [[? _]|_]; [done|lia].
Qed.

Lemma toNodes_cases h x xs hb :
  toNodes x h = Ok xs hb →
  (x = VRef xs ∧ hb = h ∧ is_Some (elems_of h x))
  ∨ (xs = length h ∧ hb = h ++ [Arr [x]] ∧ elems_of h x = None).
Proof.
  unfold toNodes, alloc.
  destruct x as [| |b|z| |s|l]; try (intros [= <- <-]; by right).
  destruct (elems_of h (VRef l)) eqn:Hx; intros [= <- <-]; [left|by right].
  eauto.
Qed.

(** Unlinking in both directions keeps the symmetry invariant when every
    pair to unlink is linked, the nodes are given without repetition, the
    two key names differ and no relation array is shared; [k1] and [k2] are
    the two key names, in either order. *)
Lemma remove_both_symmetric h ns x k1 k2 pk ck N :
  (k1 = pk ∧ k2 = ck) ∨ (k1 = ck ∧ k2 = pk) →
  pk ≠ ck →
  closed h →
  unshared (fun r => r = ns ∨ x = VRef r) h →
  h !! ns = Some (Arr N) →
  NoDup N → NoDup (default [x] (elems_of h x)) →
  (∀ v, v ∈ default [x] (elems_of h x) → is_node h k1 v) →
  (∀ v, v ∈ N → is_node h k2 v) →
  (∀ la lb, VRef la ∈ N → VRef lb ∈ default [x] (elems_of h x) →
     VRef la ∈ kids h lb k1 ∧ VRef lb ∈ kids h la k2) →
  symmetric h pk ck →
  ∃ h4,
    (cs <- toNodes x ;; related <- remove cs k1 ns ;; remove ns k2 related) h
    = Ok ns h4
    ∧ symmetric h4 pk ck.
Proof.
  set (X := default [x] (elems_of h x)).
  intros Hkeys Hne Hclosed Hunshared Hns HndN HndX HwfX HwfN Hlinked Hsym.
  assert (k1 ≠ k2) as Hk12 by (destruct Hkeys as [[-> ->]|[-> ->]]; congruence).
  destruct (toNodes_spec h x) as (xs & hb & Hto & Hxs & Hext & _). fold X in Hxs.
  pose proof (toNodes_cases _ _ _ _ Hto) as Hcases.
  set (P := fun r : loc => r = ns ∨ r = xs).
  set (own := fun (l : loc) (k : string) => ∃ r ys, field_array h l k r ys).
  assert (owns P own hb) as Hown.
  { eapply owns_extends; [exact Hunshared|done|].
    intros r [->| ->]; [left; by left|].
    destruct Hcases as [(-> & _)|(-> & _)]; [left; by right|right; lia]. }
  assert (∀ v K, is_node h K v → ∃ l, v = VRef l ∧ own l K) as Hnode_own.
  { intros v K (l & r & ys & -> & Hf). exists l. split; [done|]. by exists r, ys. }
  destruct (remove_phase P own hb xs k1 ns X N) as (h3 & Hrem3 & Hown3 & Hr3);
    [done|by right|by left|done|by apply Hext|by eauto|].
  destruct (remove_phase P own h3 ns k2 xs N X) as (h4 & Hrem4 & Hown4 & Hr4);
    [done|by left|by right| | |by eauto|].
  { eapply removed_protected; [done|by left|by apply Hext]. }
  { eapply removed_protected; [done|by right|done]. }
  exists h4. split.
  { unfold bind. by rewrite Hto, Hrem3, Hrem4. }
  assert (∀ l o, h !! l = Some (Obj o) ↔ h4 !! l = Some (Obj o)) as Hrecs.
  { intros l o. rewrite <- (removed_records _ _ _ _ _ Hr4).
    rewrite <- (removed_records _ _ _ _ _ Hr3).
    destruct Hcases as [(_ & -> & _)|(_ & -> & _)]; [done|].
    split; [apply extends_app|].
    intros Hl. destruct (decide (l < length h)) as [Hlt|Hge].
    - by rewrite lookup_app_l in Hl.
    - rewrite lookup_app_r in Hl by lia.
      destruct (l - length h) as [|n]; simpl in Hl; [congruence|].
      by rewrite lookup_nil in Hl. }
  assert (∀ w, w ∈ N → strict_eq w w = true) as HreflN.
  { intros w Hw. eapply is_node_strict_eq. by apply HwfN. }
  assert (∀ w, w ∈ X → strict_eq w w = true) as HreflX.
  { intros w Hw. eapply is_node_strict_eq. by apply HwfX. }
  assert (∀ l o k v, h !! l = Some (Obj o) →
    count v (kids h4 l k)
    = count v (kids h l k)
      - (if decide (k = k1 ∧ VRef l ∈ X ∧ v ∈ N) then 1 else 0)
      - (if decide (k = k2 ∧ VRef l ∈ N ∧ v ∈ X) then 1 else 0)) as Hcount.
  { intros l o k v Hl.
    assert (kids h4 l k
            = (if decide (k = k2)
               then Nat.iter (count (VRef l) N) (remove_all X)
               else id)
                ((if decide (k = k1)
                  then Nat.iter (count (VRef l) X) (remove_all N)
                  else id) (kids h l k))) as ->.
    { unfold kids. destruct (relation_list h (VRef l) k) as [ys|] eqn:Hrel; simpl.
      - apply relation_list_cases in Hrel
          as (l' & r & [= <-] & Hr & [(es & Hes & _)|Hf]); [congruence|].
        assert (own l k) as Hownl by (by exists r, ys).
        apply (extends_field_array _ hb) in Hf; [|done].
        pose proof (removed_lists _ _ _ _ _ Hr3 _ _ _ _ Hownl Hf) as Hf3.
        pose proof (removed_lists _ _ _ _ _ Hr4 _ _ _ _ Hownl Hf3) as Hf4.
        rewrite (field_array_relation_list _ _ _ _ _ Hf4). simpl.
        by destruct (decide (k = k1)), (decide (k = k2)).
      - assert (relation_list h4 (VRef l) k = None) as ->.
        { unfold relation_list in *. simpl in *.
          rewrite (proj1 (Hrecs l o) Hl). rewrite Hl in Hrel. simpl in *.
          destruct (o !! k) as [[| |b|z| |s|r]|] eqn:Hk; simpl in *; try done.
          pose proof (Hclosed l o k r Hl Hk) as Hlt.
          destruct (lookup_lt_is_Some_2 h r Hlt) as [[o'|ys] Hr].
          - by rewrite (proj1 (Hrecs r o') Hr).
          - by rewrite Hr in Hrel. }
        simpl.
        assert (∀ K Y, (∀ v, v ∈ Y → is_node h K v) → k = K →
                  count (VRef l) Y = 0) as Hzero.
        { intros K Y HwfY ->. apply count_absent. intros Hin.
          apply HwfY, is_node_relation_list in Hin as [? ?]. congruence. }
        destruct (decide (k = k1)) as [Hk1|Hk1], (decide (k = k2)) as [Hk2|Hk2];
          rewrite ?(Hzero k1 X HwfX), ?(Hzero k2 N HwfN) by done; done. }
    destruct (decide (k = k1)) as [Hk1|Hk1], (decide (k = k2)) as [Hk2|Hk2];
      [congruence|..].
    - rewrite (decide_False (P := k = k2 ∧ _)) by tauto. simpl.
      rewrite count_unlinked; [| | |done|]; [|done..|].
      + destruct (decide (VRef l ∈ X ∧ v ∈ N)) as [?|?].
        * rewrite decide_True by tauto. lia.
        * rewrite decide_False by tauto. lia.
      + intros HlX w Hw. destruct (HwfN w Hw) as (lw & ? & ? & -> & _).
        subst k. by apply (Hlinked lw l).
    - rewrite (decide_False (P := k = k1 ∧ _)) by tauto. simpl.
      rewrite count_unlinked; [| | |done|]; [|done..|].
      + destruct (decide (VRef l ∈ N ∧ v ∈ X)) as [?|?].
        * rewrite decide_True by tauto. lia.
        * rewrite decide_False by tauto. lia.
      + intros HlN w Hw. destruct (HwfX w Hw) as (lw & ? & ? & -> & _).
        subst k. by apply (Hlinked l lw).
    - rewrite !decide_False by tauto. simpl. lia. }
  intros a b oa ob Ha%Hrecs Hb%Hrecs.
  rewrite (Hcount b ob ck (VRef a) Hb), (Hcount a oa pk (VRef b) Ha).
  rewrite (Hsym a b oa ob Ha Hb).
  assert (ck ≠ pk) as Hne' by congruence.
  destruct Hkeys as [[-> ->]|[-> ->]]; repeat case_decide; try lia; exfalso; tauto.
Qed.

Section SymmetryTheorem.
Context `{ArrayText}.

(** C4, as amended.  On a handle over {A}, one call to [addChildren([B])]
    (A and B well-formed nodes; A different from B, or the two key names
    different) appends exactly one A to B's parents list and exactly one B
    to A's children list.  On a closed store, [addChildren] and
    [addParents] on well-formed nodes preserve the symmetry invariant,
    counted with multiplicities (A occurs in B's children list as many
    times as B occurs in A's parents list).  [removeChildren] and
    [removeParents] preserve it when every pair to unlink is linked, the
    nodes are given without repetition, the key names differ and no
    relation array is shared. *)
Theorem link_symmetry g x s N :
  let h := store s in
  let pk := lastParentsKey s in
  let ck := lastChildrenKey s in
  let X := default [x] (elems_of h x) in
  elems_of h (VRef (bound g)) = Some N →
  (∀ a b ps cs,
     N = [a] → X = [b] → is_node h ck a → is_node h pk b →
     pk ≠ ck ∨ a ≠ b →
     relation_list h b pk = Some ps → relation_list h a ck = Some cs →
     returns (addChildren g x s) = true
     ∧ relation_list (final_store (addChildren g x s)) b pk = Some (ps ++ [a])
     ∧ relation_list (final_store (addChildren g x s)) a ck = Some (cs ++ [b]))
  ∧ (closed h → symmetric h pk ck →
     ((∀ v, v ∈ X → is_node h pk v) → (∀ v, v ∈ N → is_node h ck v) →
        returns (addChildren g x s) = true
        ∧ symmetric (final_store (addChildren g x s)) pk ck)
     ∧ ((∀ v, v ∈ X → is_node h ck v) → (∀ v, v ∈ N → is_node h pk v) →
          returns (addParents g x s) = true
          ∧ symmetric (final_store (addParents g x s)) pk ck)
     ∧ (pk ≠ ck → unshared (fun r => r = bound g ∨ x = VRef r) h →
        NoDup N → NoDup X →
        ((∀ v, v ∈ X → is_node h pk v) → (∀ v, v ∈ N → is_node h ck v) →
           (∀ la lb, VRef la ∈ N → VRef lb ∈ X →
              VRef la ∈ kids h lb pk ∧ VRef lb ∈ kids h la ck) →
           returns (removeChildren g x s) = true
           ∧ symmetric (final_store (removeChildren g x s)) pk ck)
        ∧ ((∀ v, v ∈ X → is_node h ck v) → (∀ v, v ∈ N → is_node h pk v) →
             (∀ la lb, VRef la ∈ N → VRef lb ∈ X →
                VRef la ∈ kids h lb ck ∧ VRef lb ∈ kids h la pk) →
             returns (removeParents g x s) = true
             ∧ symmetric (final_store (removeParents g x s)) pk ck))).
Proof.
  destruct s as [h pk ck], g as [ns].
  cbn [store lastParentsKey lastChildrenKey bound].
  set (X := default [x] (elems_of h x)).
  intros (? & [= <-] & Hns)%elems_of_Some. split.
  - intros a b ps cs -> HX Ha Hb Hdiff Hps Hcs.
    destruct (add_both_lists h ns x pk ck [a] Hns) as (h2 & Hop & _ & _ & _ & Hl).
    { fold X. rewrite HX. by intros v ->%list_elem_of_singleton. }
    { by intros v ->%list_elem_of_singleton. }
    fold X in Hl. rewrite HX in Hl.
    unfold addChildren. cbn [store lastParentsKey lastChildrenKey bound].
    rewrite Hop. split; [done|]. simpl.
    destruct Ha as (la & ra & csa & -> & Hfa). destruct Hb as (lb & rb & psb & -> & Hfb).
    rewrite (field_array_relation_list _ _ _ _ _ Hfa) in Hcs.
    rewrite (field_array_relation_list _ _ _ _ _ Hfb) in Hps.
    injection Hcs as ->. injection Hps as ->.
    destruct (Hl _ _ _ _ Hfa) as (ra' & Hfa'). destruct (Hl _ _ _ _ Hfb) as (rb' & Hfb').
    rewrite (field_array_relation_list _ _ _ _ _ Hfa').
    rewrite (field_array_relation_list _ _ _ _ _ Hfb').
    assert (∀ v : value, count v [v] = 1) as Hone.
    { intros v. simpl. by rewrite decide_True. }
    rewrite (decide_True (P := pk = pk)), (decide_True (P := ck = ck)) by done.
    rewrite !Hone. split; f_equal.
    + destruct (decide (pk = ck)) as [Heq|?]; [|simpl; by rewrite ?app_nil_r].
      rewrite count_absent; [simpl; by rewrite ?app_nil_r|].
      intros ?%list_elem_of_singleton. destruct Hdiff; congruence.
    + destruct (decide (ck = pk)) as [Heq|?]; [|simpl; by rewrite ?app_nil_r].
      rewrite count_absent; [simpl; by rewrite ?app_nil_r|].
      intros ?%list_elem_of_singleton. destruct Hdiff; congruence.
  - intros Hclosed Hsym. split; [|split].
    + intros HwfX HwfN.
      destruct (add_both_symmetric h ns x pk ck pk ck N) as (h2 & Hop & Hsym2);
        [by left|done..|].
      unfold addChildren. cbn [store lastParentsKey lastChildrenKey bound].
      by rewrite Hop.
    + intros HwfX HwfN.
      destruct (add_both_symmetric h ns x ck pk pk ck N) as (h2 & Hop & Hsym2);
        [by right|done..|].
      unfold addParents. cbn [store lastParentsKey lastChildrenKey bound].
      by rewrite Hop.
    + intros Hne Hunshared HndN HndX. split.
      * intros HwfX HwfN Hlinked.
        destruct (remove_both_symmetric h ns x pk ck pk ck N)
          as (h4 & Hop & Hsym4); [by left|done..|].
        unfold removeChildren. cbn [store lastParentsKey lastChildrenKey bound].
        by rewrite Hop.
      * intros HwfX HwfN Hlinked.
        destruct (remove_both_symmetric h ns x ck pk pk ck N)
          as (h4 & Hop & Hsym4); [by right|done..|].
        unfold removeParents. cbn [store lastParentsKey lastChildrenKey bound].
        by rewrite Hop.
Qed.

End SymmetryTheorem.

(** ** The theorems on concrete stores *)

(** The fields of a record made by [node]. *)
Lemma node_lookup ps cs k v :
  ({[ "parents" := ps; "children" := cs ]} : gmap string value) !! k = Some v →
  (k = "parents"%string ∧ v = ps) ∨ (k = "children"%string ∧ v = cs).
Proof.
  rewrite lookup_insert_Some, lookup_singleton_Some.
  intros [[<- <-]|[_ [<- <-]]]; auto.
Qed.

(** The relation arrays of [store_unrelated]: the record [l] holds its
    "parents" array in cell [3 + 2 l] and its "children" array in the cell
    after it. *)
Lemma store_unrelated_fields l k r xs :
  field_array store_unrelated l k r xs →
  l < 3 ∧ ((k = "parents"%string ∧ r = 3 + 2 * l)
           ∨ (k = "children"%string ∧ r = 4 + 2 * l)).
Proof.
  intros (o & Hl & Hk & _).
  destruct l as [|[|[|l]]]; simpl in Hl.
  - injection Hl as <-. apply node_lookup in Hk as [[-> [= ->]]|[-> [= ->]]];
      (split; [lia|]); [left|right]; split; (done || lia).
  - injection Hl as <-. apply node_lookup in Hk as [[-> [= ->]]|[-> [= ->]]];
      (split; [lia|]); [left|right]; split; (done || lia).
  - injection Hl as <-. apply node_lookup in Hk as [[-> [= ->]]|[-> [= ->]]];
      (split; [lia|]); [left|right]; split; (done || lia).
  - do 8 (destruct l as [|l]; [discriminate Hl|]). discriminate Hl.
Qed.

Lemma store_unrelated_records l o :
  store_unrelated !! l = Some (Obj o) → l < 3.
Proof.
  intros Hl. do 3 (destruct l as [|l]; [lia|]).
  do 8 (destruct l as [|l]; [discriminate Hl|]). discriminate Hl.
Qed.

Lemma store_unrelated_closed : closed store_unrelated.
Proof.
  intros l o k r Hl Hk.
  assert (∃ xs, field_array store_unrelated l k r xs) as [xs Hf].
  { pose proof (store_unrelated_records l o Hl) as Hlt.
    destruct l as [|[|[|l]]]; [| | |lia]; simpl in Hl; injection Hl as <-;
      apply node_lookup in Hk as Hk'; destruct Hk' as [[-> [= ->]]|[-> [= ->]]];
      eexists; eexists; (split; [reflexivity|]); split; reflexivity. }
  apply store_unrelated_fields in Hf as [? [[_ ->]|[_ ->]]]; simpl; lia.
Qed.

Lemma store_unrelated_symmetric : symmetric store_unrelated "parents" "children".
Proof.
  intros a b oa ob Ha%store_unrelated_records Hb%store_unrelated_records.
  destruct a as [|[|[|a]]]; [| | |lia]; destruct b as [|[|[|b]]]; try lia;
    reflexivity.
Qed.

Lemma store_unrelated_unshared (P : loc → Prop) :
  (∀ r, P r → r < 3 ∨ 8 < r) → unshared P store_unrelated.
Proof.
  intros HP. split.
  - intros l k (r & xs & Hf). exists r, xs. split; [done|].
    intros [?|?]%HP; apply store_unrelated_fields in Hf as [? [[_ ->]|[_ ->]]]; lia.
  - intros l k l' k' r xs xs' _ _ Hf Hf'.
    apply store_unrelated_fields in Hf as [? [[-> Hr]|[-> Hr]]];
      apply store_unrelated_fields in Hf' as [? [[-> Hr']|[-> Hr']]];
      split; (done || lia).
Qed.

Lemma store_unrelated_is_node l k :
  l < 3 → k = "parents"%string ∨ k = "children"%string →
  is_node store_unrelated k (VRef l).
Proof.
  intros Hl Hk. destruct l as [|[|[|l]]]; [| | |lia]; destruct Hk as [-> | ->];
    eexists _, _, _; (split; [reflexivity|]); eexists;
    (split; [reflexivity|]); split; reflexivity.
Qed.

(** C8 at a concrete input: the first handle is constructed with the names
    "up" and "down", the second without names. *)
Lemma default_keys_persist_witness :
  let s1 := (Graph (VRef 9) (Some "up"%string) (Some "down"%string)
               (initial store_unrelated)).2 in
  @operates_on no_text (Graph (VRef 10) None None s1).1
    (Graph (VRef 10) None None s1).2 "up" "down".
Proof.
  refine (proj1 (proj2 (@default_keys_persist no_text (initial store_unrelated)
            (VRef 9) (VRef 10) "up" "down" _ _ _ _))).
  - discriminate.
  - discriminate.
  - apply omits_refl.
Defined.

(** C3 as amended, at a concrete input: the handle constructed over A with
    the default names operates on "up" and "down" once a second handle has
    been constructed with these names. *)
Lemma keys_follow_latest_construction_witness :
  let s1 := (Graph (VRef 0) None None (initial store_two_vocabularies)).2 in
  let g1 := (Graph (VRef 0) None None (initial store_two_vocabularies)).1 in
  @operates_on no_text g1
    (Graph (VRef 0) (Some "up"%string) (Some "down"%string) s1).2 "up" "down".
Proof.
  refine (proj1 (@keys_follow_latest_construction no_text
            (initial store_two_vocabularies) (VRef 0) None None)
            (VRef 0) "up"%string "down"%string _ _); discriminate.
Defined.

(** C7 at a concrete input: B is linked to A and unlinked again, and the
    lists of A and B are what they were. *)
Lemma add_then_remove_children_roundtrip_witness :
  let s := initial store_unrelated in
  let s' := after s (@addChildren no_text (Handle 9) (VRef 10) s) in
  returns (@addChildren no_text (Handle 9) (VRef 10) s) = true
  ∧ returns (removeChildren (Handle 9) (VRef 10) s') = true
  ∧ relation_list (final_store (removeChildren (Handle 9) (VRef 10) s'))
      (VRef 0) "children" = Some [VRef 2]
  ∧ relation_list (final_store (removeChildren (Handle 9) (VRef 10) s'))
      (VRef 1) "parents" = Some [].
Proof.
  destruct (@add_then_remove_children_roundtrip no_text (Handle 9) (VRef 10)
              (initial store_unrelated) [VRef 0]) as (Hadd & Hrem & Hlists).
  - reflexivity.
  - intros a ->%list_elem_of_singleton. apply store_unrelated_is_node; [lia|by right].
  - intros b ->%list_elem_of_singleton. apply store_unrelated_is_node; [lia|by left].
  - intros a b ys ->%list_elem_of_singleton ->%list_elem_of_singleton [= <-].
    intros [=]%list_elem_of_singleton.
  - intros a b ys ->%list_elem_of_singleton ->%list_elem_of_singleton [= <-].
    apply not_elem_of_nil.
  - split; [exact Hadd|]. split; [exact Hrem|].
    split; apply Hlists; reflexivity.
Defined.

(** C10 as amended, at a concrete input: [add] and [remove] with the key
    "children" on the array [A] leave the "children" list of C, which is
    not among the nodes and shares no array with A, as it was. *)
Lemma add_remove_frame_unshared_witness :
  field_array (final_store (@add no_text 9 "children" 10 store_unrelated))
    2 "children" 8 []
  ∧ field_array (final_store (remove 9 "children" 10 store_unrelated))
      2 "children" 8 [].
Proof.
  destruct (proj2 (proj2 (@add_remove_frame_unshared no_text 9 "children"%string 10
                            store_unrelated))) with (l := 2) (k := "children"%string)
      (r := 8) (ys := @nil value) as [Hadd Hrem].
  - intros l es [= ->]%list_elem_of_singleton. discriminate.
  - eexists. split; [reflexivity|]. split; reflexivity.
  - intros [[=]%list_elem_of_singleton _].
  - split; [exact Hadd|]. apply Hrem.
    intros v ->%list_elem_of_singleton. discriminate.
Defined.

(** C10, the claim as stated fails: [remove] splices in place, so a list
    that shares its array with the field [remove] works on changes with
    it.  D (cell 1) is in neither argument of [remove] on [A] and [C] under
    "children", and its children list goes from [C] to the empty list; and
    A's "parents" list, another field of the node, changes the same way. *)
Lemma remove_changes_shared_list :
  elems_of store_alias (VRef 8) = Some [VRef 0]
  ∧ elems_of store_alias (VRef 9) = Some [VRef 2]
  ∧ relation_list store_alias (VRef 1) "children" = Some [VRef 2]
  ∧ relation_list store_alias (VRef 0) "parents" = Some [VRef 2]
  ∧ returns (remove 8 "children" 9 store_alias) = true
  ∧ relation_list (final_store (remove 8 "children" 9 store_alias))
      (VRef 1) "children" = Some []
  ∧ relation_list (final_store (remove 8 "children" 9 store_alias))
      (VRef 0) "parents" = Some [].
Proof. repeat split; reflexivity. Qed.

(** C9 as amended, at a concrete input: B (cell 1) has no "parents" field,
    and [addChildren([B])] on {A} throws. *)
Lemma malformed_node_faults_witness :
  returns (@addChildren no_text (Handle 4) (VRef 5) (initial store_malformed))
  = false.
Proof.
  apply (proj1 (@malformed_node_faults no_text (Handle 4) (VRef 5)
                  (initial store_malformed))).
  left. exists (VRef 1). split; [by apply list_elem_of_singleton|].
  exists ∅. split; reflexivity.
Defined.

(** C4 as amended, at a concrete input: linking B to A appends A to B's
    parents and B to A's children and keeps the invariant, and so does
    unlinking C, which is a child of A, from A. *)
Lemma link_symmetry_witness :
  let s := initial store_unrelated in
  (returns (@addChildren no_text (Handle 9) (VRef 10) s) = true
   ∧ relation_list (final_store (@addChildren no_text (Handle 9) (VRef 10) s))
       (VRef 1) "parents" = Some [VRef 0]
   ∧ relation_list (final_store (@addChildren no_text (Handle 9) (VRef 10) s))
       (VRef 0) "children" = Some [VRef 2; VRef 1])
  ∧ symmetric (final_store (@addChildren no_text (Handle 9) (VRef 10) s))
      "parents" "children"
  ∧ returns (removeChildren (Handle 9) (VRef 2) s) = true
  ∧ symmetric (final_store (removeChildren (Handle 9) (VRef 2) s))
      "parents" "children".
Proof.
  pose proof (@link_symmetry no_text (Handle 9) (VRef 10) (initial store_unrelated)
                [VRef 0] eq_refl) as [Hone [Hadd _]];
    [exact store_unrelated_closed|exact store_unrelated_symmetric|].
  pose proof (@link_symmetry no_text (Handle 9) (VRef 2) (initial store_unrelated)
                [VRef 0] eq_refl) as [_ [_ [_ [Hrem _]]]];
    [exact store_unrelated_closed|exact store_unrelated_symmetric|discriminate| | | |].
  { apply store_unrelated_unshared. intros r [-> | [= <-]]; simpl; lia. }
  { apply NoDup_singleton. }
  { apply NoDup_singleton. }
  split.
  { apply (Hone (VRef 0) (VRef 1) [] [VRef 2]); try reflexivity.
    - apply store_unrelated_is_node; [lia|by right].
    - apply store_unrelated_is_node; [lia|by left].
    - by left. }
  split.
  { apply Hadd.
    - intros v ->%list_elem_of_singleton. apply store_unrelated_is_node; [lia|by left].
    - intros v ->%list_elem_of_singleton. apply store_unrelated_is_node; [lia|by right]. }
  apply Hrem.
  - intros v ->%list_elem_of_singleton. apply store_unrelated_is_node; [lia|by left].
  - intros v ->%list_elem_of_singleton. apply store_unrelated_is_node; [lia|by right].
  - intros la lb [= ->]%list_elem_of_singleton [= ->]%list_elem_of_singleton.
    split; by apply list_elem_of_singleton.
Defined.

(** C4, the claim as stated fails, in two ways.  Membership alone is not
    kept by unlinking: with B twice among A's children and A once among
    B's parents the invariant holds, [removeChildren([B])] on {A} finds and
    deletes one occurrence on each side, and B is still a child of A while
    A is no longer a parent of B.  And one call does not always append one
    occurrence: on a handle whose two key names are both "rel",
    [addChildren([A])] on {A} appends A twice to A's "rel" list. *)
Lemma unlinking_breaks_membership_symmetry :
  (mutual store_double_link "parents" "children"
   ∧ returns (removeChildren (Handle 6) (VRef 7) (initial store_double_link)) = true
   ∧ ¬ mutual
         (final_store (removeChildren (Handle 6) (VRef 7) (initial store_double_link)))
         "parents" "children")
  ∧ (relation_list store_one_field (VRef 0) "rel" = Some []
     ∧ relation_list
         (final_store (@addChildren no_text (Handle 2) (VRef 0)
                         (State store_one_field "rel" "rel")))
         (VRef 0) "rel" = Some [VRef 0; VRef 0]).
Proof.
  split; [|split; reflexivity]. split; [|split; [reflexivity|]].
  - intros a b oa ob Ha Hb.
    assert (∀ l o, store_double_link !! l = Some (Obj o) → l < 2) as Hrec.
    { intros l o Hl. do 2 (destruct l as [|l]; [lia|]).
      do 6 (destruct l as [|l]; [discriminate Hl|]). discriminate Hl. }
    apply Hrec in Ha, Hb. rewrite !count_elem_of.
    destruct a as [|[|a]]; [| |lia]; destruct b as [|[|b]]; try lia;
      vm_compute; lia.
  - intros Hm.
    destruct (Hm 1 0 {[ "parents" := VRef 4; "children" := VRef 5 ]}
                {[ "parents" := VRef 2; "children" := VRef 3 ]}
                eq_refl eq_refl) as [Hin _].
    apply (not_elem_of_nil (VRef 0)). apply Hin. by apply list_elem_of_singleton.
Qed.

(** * Further properties of the engine *)

(** ** [resembles] on arbitrary values *)

Lemma readable_prop h v k : readable h v ↔ is_Some (prop h v k).
Proof.
  destruct v as [| |b|z| |s|l]; simpl; try (split; [by eauto|done]);
    try (split; [done|by intros [? ?]]).
  destruct (h !! l); split; by eauto || intros [? ?].
Qed.

Lemma forallb_snoc {A} (f : A → bool) xs x :
  forallb f (xs ++ [x]) = forallb f xs && f x.
Proof. rewrite forallb_app. simpl. by rewrite andb_true_r. Qed.

Lemma resembles_cases h self obj :
  resembles h self obj ≠ Diverges
  ∧ (resembles h self obj = Throws ↔ ¬ (readable h self ∧ readable h obj)).
Proof.
  destruct (decide (readable h self ∧ readable h obj)) as [[Hs Ho]|Hn].
  - rewrite resembles_spec by (intros k; by apply readable_prop).
    split; [done|]. split; [done|]. intros []. done.
  - assert (resembles h self obj = Throws) as ->; [|by split].
    unfold resembles. cbn [check].
    set (k := default "undefined"%string (Object_keys h self !! 0)).
    destruct (prop h self k) as [a|] eqn:Ha; [|done].
    destruct (prop h obj k) as [b|] eqn:Hb; [|done].
    destruct Hn. split; eapply readable_prop; eauto.
Qed.

(** [resembles] never loops, and it raises a TypeError exactly when the
    filter or the candidate is [undefined] or [null] (the properties of
    every other value can be read). *)
Theorem resembles_throws_iff_unreadable h self obj :
  resembles h self obj ≠ Diverges
  ∧ (resembles h self obj = Throws ↔ ¬ (readable h self ∧ readable h obj)).
Proof. apply resembles_cases. Qed.

(** Where the comparison made past the last key succeeds (for instance
    when neither value has a field named "undefined"), [resembles] is the
    subset test its comment describes: it returns [true] exactly when the
    candidate holds, under every key of the filter, a value strictly equal
    to the filter's. *)
Theorem resembles_subset_test h self obj :
  readable h self → readable h obj →
  strict_eq (default VUndef (prop h self "undefined"))
            (default VUndef (prop h obj "undefined")) = true →
  ∃ b, resembles h self obj = Val b
       ∧ (b = true ↔
          ∀ k, k ∈ Object_keys h self →
               strict_eq (default VUndef (prop h self k))
                         (default VUndef (prop h obj k)) = true).
Proof.
  intros Hs Ho Hlast.
  rewrite resembles_spec by (intros k; by apply readable_prop).
  eexists. split; [done|].
  rewrite forallb_snoc, Hlast, andb_true_r, forallb_forall.
  split; intros Hall k Hk; apply Hall; by apply list_elem_of_In.
Qed.

Lemma resembles_subset_test_witness :
  resembles store_filter (VRef 0) (VRef 1) = Val true
  ∧ resembles store_filter (VRef 1) (VRef 0) = Val false.
Proof.
  split.
  - destruct (resembles_subset_test store_filter (VRef 0) (VRef 1))
      as (b & -> & Hb); [by eexists..|reflexivity|].
    f_equal. apply Hb. intros k Hk.
    assert (k = "a"%string) as -> by (by apply list_elem_of_singleton in Hk).
    reflexivity.
  - destruct (resembles_subset_test store_filter (VRef 1) (VRef 0))
      as (b & -> & Hb); [by eexists..|reflexivity|].
    f_equal. destruct b; [|done]. 
    assert ("b"%string ∈ Object_keys store_filter (VRef 1)) as Hin
      by (vm_compute; apply list_elem_of_In; simpl; tauto).
    by pose proof (proj1 Hb eq_refl _ Hin).
Defined.

(** A filter record with a field holding NaN matches no candidate, not even
    itself: NaN is strictly equal to nothing. *)
Theorem resembles_NaN_matches_nothing h l o k obj :
  h !! l = Some (Obj o) → o !! k = Some VNaN → readable h obj →
  resembles h (VRef l) obj = Val false.
Proof.
  intros Hl Hk Ho.
  rewrite resembles_spec;
    [|intros k'; apply readable_prop; simpl; by rewrite Hl|intros k'; by apply readable_prop].
  f_equal. apply not_true_is_false. rewrite forallb_snoc, andb_true_iff, forallb_forall.
  intros [Hall _]. specialize (Hall k). simpl in Hall. rewrite Hl in Hall.
  simpl in Hall. rewrite Hk in Hall. simpl in Hall.
  discriminate Hall. apply list_elem_of_In, list_elem_of_fmap.
  exists (k, VNaN). split; [done|]. by apply elem_of_map_to_list.
Qed.

Lemma resembles_NaN_matches_nothing_witness :
  resembles store_filter (VRef 2) (VRef 2) = Val false.
Proof.
  apply (resembles_NaN_matches_nothing store_filter 2 {[ "a" := VNaN ]} "a");
    [reflexivity|reflexivity|by eexists].
Defined.

(** ** The traversal [get]: termination, cycles, the default filter *)

Lemma each_res_ext {A} (F G : value → A → res A) xs var :
  (∀ x v, x ∈ xs → F x v = G x v) → each_res F xs var = each_res G xs var.
Proof.
  revert var. induction xs as [|x xs IH]; intros var HFG; simpl; [done|].
  rewrite (HFG x var) by (by left).
  destruct (G x var); simpl; [|done..]. apply IH. intros y v Hy. apply HFG. by right.
Qed.

Lemma each_res_returns {A} (F : value → A → res A) xs var :
  (∀ x v, x ∈ xs → F x v ≠ Diverges) → each_res F xs var ≠ Diverges.
Proof.
  revert var. induction xs as [|x xs IH]; intros var HF; simpl; [done|].
  pose proof (HF x var (list_elem_of_here _ _)) as Hx.
  destruct (F x var); simpl; [|done..]. apply IH. intros y v Hy. apply HF. by right.
Qed.

Lemma filter_res_ext (f g : value → res bool) xs :
  (∀ x, x ∈ xs → f x = g x) → filter_res f xs = filter_res g xs.
Proof.
  induction xs as [|x xs IH]; intros Hfg; simpl; [done|].
  rewrite (Hfg x) by (by left). rewrite IH; [done|].
  intros y Hy. apply Hfg. by right.
Qed.

Lemma filter_res_returns (f : value → res bool) xs :
  (∀ x, f x ≠ Diverges) → filter_res f xs ≠ Diverges.
Proof.
  intros Hf. induction xs as [|x xs IH]; simpl; [done|].
  pose proof (Hf x) as Hx. destruct (f x); simpl; [|done..].
  by destruct (filter_res f xs).
Qed.

(** When the counter, decremented the way the code decrements it, is no
    longer above 0 after [k] steps, the depth of the recursion is at most
    [k + 1], whatever the store holds (cycles included). *)
Lemma get_rec_counted (f : value → res bool) h K :
  (∀ x, f x ≠ Diverges) →
  ∀ k gen fuel1 fuel2 nodes,
    goes_deeper (Nat.iter k next_generations gen) = false →
    k < fuel1 → k < fuel2 →
    get_rec fuel1 h K f nodes gen = get_rec fuel2 h K f nodes gen
    ∧ get_rec fuel1 h K f nodes gen ≠ Diverges.
Proof.
  intros Hf. induction k as [|k IH]; intros gen fuel1 fuel2 nodes Hk H1 H2;
    (destruct fuel1 as [|fuel1]; [lia|]); (destruct fuel2 as [|fuel2]; [lia|]);
    simpl; (destruct (elems_of h nodes) as [ns|]; simpl; [|done]).
  - simpl in Hk. rewrite Hk. split; [done|].
    apply each_res_returns. intros x v _.
    destruct (prop h x K) as [r|]; simpl; [|done].
    destruct (elems_of h r) as [rs|]; simpl; [|done].
    pose proof (filter_res_returns f rs Hf) as Hrs.
    by destruct (filter_res f rs).
  - change (Nat.iter (S k) next_generations gen)
      with (next_generations (Nat.iter k next_generations gen)) in Hk.
    rewrite <- Nat.iter_swap in Hk.
    assert (∀ r, get_rec fuel1 h K f r (next_generations gen)
                 = get_rec fuel2 h K f r (next_generations gen)
                 ∧ get_rec fuel1 h K f r (next_generations gen) ≠ Diverges)
      as Hdeep.
    { intros r. apply IH; [done|lia..]. }
    split.
    + apply each_res_ext. intros x v _.
      destruct (res_of (prop h x K)) as [r| |]; simpl; [|done..].
      destruct (res_of (elems_of h r)) as [rs| |]; simpl; [|done..].
      destruct (filter_res f rs); simpl; [|done..].
      destruct (goes_deeper gen); [|done]. by rewrite (proj1 (Hdeep r)).
    + apply each_res_returns. intros x v _.
      destruct (prop h x K) as [r|]; simpl; [|done].
      destruct (elems_of h r) as [rs|]; simpl; [|done].
      pose proof (filter_res_returns f rs Hf) as Hrs.
      destruct (filter_res f rs); simpl; [|done..].
      destruct (goes_deeper gen); [|done].
      pose proof (proj2 (Hdeep r)) as Hr.
      by destruct (get_rec fuel1 h K f r (next_generations gen)).
Qed.

(** A counter that is above 0 and that the decrement leaves as it is never
    stops the recursion on a cycle. *)
Lemma get_rec_stuck_counter h K (p : value → bool) (I : value → Prop) gen :
  goes_deeper gen = true → next_generations gen = gen →
  (∀ r, I r → ∃ x ns r',
     elems_of h r = Some (x :: ns) ∧ prop h x K = Some r' ∧ I r') →
  ∀ fuel r, I r → get_rec fuel h K (fun child => Val (p child)) r gen = Diverges.
Proof.
  intros Hdeeper Hfix Hstep. induction fuel as [|fuel IH]; intros r Hr; [done|].
  destruct (Hstep r Hr) as (x & ns & r' & Hns & Hx & Hr').
  destruct (Hstep r' Hr') as (x' & ns' & _ & Hns' & _).
  simpl. rewrite Hns. simpl. rewrite Hx. simpl. rewrite Hns'. simpl.
  rewrite (filter_res_pure p). simpl. rewrite Hdeeper, Hfix. by rewrite (IH r' Hr').
Qed.

(** The traversal ends when its counter runs out, and only then.  When
    [generations], decremented the way the code decrements it (as a double,
    a falsy value being passed on unchanged), is no longer above 0 after
    [k] steps, a recursion depth of [k + 1] is enough on every store,
    cyclic or not, and for every filter: the call returns or raises a
    TypeError, and more depth does not change the result.  When
    [generations] is above 0 and the decrement leaves it as it is (a double
    too large for [generations - 1] to differ from it, or Infinity), the
    traversal does not end on a cycle. *)
Theorem get_ends_when_counter_runs_out h nodes K filter gen :
  (∀ k fuel1 fuel2,
     goes_deeper (Nat.iter k next_generations gen) = false →
     k < fuel1 → k < fuel2 →
     get fuel1 h nodes K filter gen = get fuel2 h nodes K filter gen
     ∧ get fuel1 h nodes K filter gen ≠ Diverges)
  ∧ (∀ p (I : value → Prop) fuel,
     goes_deeper gen = true → next_generations gen = gen →
     (∀ r, I r → ∃ x ns r',
        elems_of h r = Some (x :: ns) ∧ prop h x K = Some r' ∧ I r') →
     I (VRef nodes) →
     get fuel h nodes K (FFunction p) gen = Diverges).
Proof.
  split.
  - intros k fuel1 fuel2 Hk H1 H2. unfold get. destruct filter as [p|v].
    + by apply (get_rec_counted _ h K) with (k := k).
    + destruct (truthy v); apply (get_rec_counted _ _ K) with (k := k);
        try done; intros x; apply resembles_cases.
  - intros p I fuel Hdeeper Hfix Hstep Hnodes. unfold get.
    by apply (get_rec_stuck_counter h K (p h) I gen).
Qed.

Lemma get_ends_when_counter_runs_out_witness :
  (children 7 (Handle 3) (FValue VUndef) (GNumber 5%float) (initial store_self_loop)
   = children 6 (Handle 3) (FValue VUndef) (GNumber 5%float) (initial store_self_loop)
   ∧ children 7 (Handle 3) (FValue VUndef) (GNumber 5%float) (initial store_self_loop)
     ≠ Diverges)
  ∧ children 1000 (Handle 3) matches_all (GNumber infinity) (initial store_self_loop)
    = Diverges
  ∧ children 1000 (Handle 3) matches_all (GNumber 0x1p+54%float)
      (initial store_self_loop) = Diverges.
Proof.
  split; [|split].
  - apply (proj1 (get_ends_when_counter_runs_out store_self_loop 3 "children"
                    (FValue VUndef) (GNumber 5%float)) 5 7 6); [reflexivity|lia|lia].
  - apply (proj2 (get_ends_when_counter_runs_out store_self_loop 3 "children"
                    matches_all (GNumber infinity)) _
             (fun r => elems_of store_self_loop r = Some [VRef 0]));
      [reflexivity|reflexivity| |reflexivity].
    intros r Hr. exists (VRef 0), [], (VRef 2). split; [done|]. split; reflexivity.
  - apply (proj2 (get_ends_when_counter_runs_out store_self_loop 3 "children"
                    matches_all (GNumber 0x1p+54%float)) _
             (fun r => elems_of store_self_loop r = Some [VRef 0]));
      [reflexivity|reflexivity| |reflexivity].
    intros r Hr. exists (VRef 0), [], (VRef 2). split; [done|]. split; reflexivity.
Defined.

(** With [generations] left out, the traversal does not end on a cycle:
    when the first node of the frontier leads, through the first elements
    of the relation lists, to ever more non-empty relation lists, no depth
    of recursion yields a result, whatever the filter function. *)
Theorem get_unbounded_cycle_never_returns h K p (I : value → Prop) nodes fuel :
  (∀ r, I r → ∃ x ns r',
     elems_of h r = Some (x :: ns) ∧ prop h x K = Some r' ∧ I r') →
  I (VRef nodes) →
  get fuel h nodes K (FFunction p) GUndefined = Diverges.
Proof.
  intros Hstep. unfold get. generalize (VRef nodes). clear nodes.
  induction fuel as [|fuel IH]; intros r Hr; [done|].
  destruct (Hstep r Hr) as (x & ns & r' & Hns & Hx & Hr').
  destruct (Hstep r' Hr') as (x' & ns' & _ & Hns' & _).
  simpl. rewrite Hns. simpl. rewrite Hx. simpl. rewrite Hns'. simpl.
  rewrite (filter_res_pure (p h)). simpl. by rewrite (IH r' Hr').
Qed.

Lemma get_unbounded_cycle_never_returns_witness :
  children 1000 (Handle 3) matches_all GUndefined (initial store_self_loop) = Diverges.
Proof.
  apply (get_unbounded_cycle_never_returns store_self_loop "children" _
           (fun r => elems_of store_self_loop r = Some [VRef 0]));
    [|reflexivity].
  intros r Hr. exists (VRef 0), [], (VRef 2). split; [done|]. split; reflexivity.
Defined.

(** The traversal reads the store only through the arrays it meets, so it
    gives the same result on two stores and with two filters that agree on
    the elements of those arrays. *)
Lemma get_rec_ext h h' K (f g : value → res bool) :
  (∀ v, elems_of h' v = elems_of h v) →
  (∀ r xs v, h !! r = Some (Arr xs) → v ∈ xs → prop h' v K = prop h v K) →
  (∀ r xs v, h !! r = Some (Arr xs) → v ∈ xs → f v = g v) →
  ∀ fuel nodes gen, get_rec fuel h' K f nodes gen = get_rec fuel h K g nodes gen.
Proof.
  intros Helems Hprop Hfg. induction fuel as [|fuel IH]; intros nodes gen; [done|].
  simpl. rewrite Helems.
  destruct (elems_of h nodes) as [ns|] eqn:Hns; simpl; [|done].
  apply elems_of_Some in Hns as (rn & _ & Hrn).
  apply each_res_ext. intros x var Hx.
  rewrite (Hprop rn ns x Hrn Hx).
  destruct (prop h x K) as [r|]; simpl; [|done].
  rewrite Helems.
  destruct (elems_of h r) as [rs|] eqn:Hrs; simpl; [|done].
  apply elems_of_Some in Hrs as (rr & _ & Hrr).
  rewrite (filter_res_ext f g rs) by (intros y Hy; by apply (Hfg rr rs)).
  destruct (filter_res g rs); simpl; [|done..].
  destruct (goes_deeper gen); [|done]. by rewrite IH.
Qed.

Lemma elems_of_alloc_record h o v : elems_of (h ++ [Obj o]) v = elems_of h v.
Proof.
  destruct v as [| |b|z| |s|l]; simpl; try done.
  destruct (decide (l < length h)) as [Hlt|Hge].
  - by rewrite lookup_app_l.
  - rewrite lookup_app_r by lia. rewrite (lookup_ge_None_2 h l) by lia.
    by destruct (l - length h) as [|[|n]].
Qed.

Lemma prop_extends h h' v k w : extends h h' → prop h v k = Some w → prop h' v k = Some w.
Proof.
  intros Hext. destruct v as [| |b|z| |s|l]; simpl; try done.
  destruct (h !! l) as [c|] eqn:Hl; [|done]. by rewrite (Hext l c Hl).
Qed.

(** The default filter.  When [filter] is falsy ([undefined], [null], 0,
    NaN, the empty string, [false]), [filter || {}] is the empty record,
    and on a store where no array element is [undefined] or [null] or has
    a field named "undefined", the traversal returns what it returns with
    a filter function that accepts everything. *)
Theorem get_default_filter_accepts_all fuel h nodes K v gen :
  truthy v = false →
  no_undefined_field h →
  get fuel h nodes K (FValue v) gen = get fuel h nodes K matches_all gen.
Proof.
  intros Hv Hplain. unfold get, matches_all. rewrite Hv.
  assert (∀ w k, readable h w → prop (h ++ [Obj ∅]) w k = prop h w k) as Hread.
  { intros w k [u Hu]%(readable_prop _ _ k). rewrite Hu.
    eapply prop_extends; [apply extends_app|done]. }
  assert (∀ r xs w, h !! r = Some (Arr xs) → w ∈ xs → readable h w) as Helem.
  { intros r xs w Hr Hw. eapply readable_prop. by rewrite (Hplain r xs w). }
  apply get_rec_ext.
  - apply elems_of_alloc_record.
  - intros r xs w Hr Hw. apply Hread. by eapply Helem.
  - intros r xs w Hr Hw.
    assert (∀ k, is_Some (prop (h ++ [Obj ∅]) (VRef (length h)) k)) as Hself.
    { intros k. simpl. rewrite lookup_app_r, Nat.sub_diag by lia. by eexists. }
    rewrite resembles_spec; [|done|].
    + f_equal. simpl. rewrite lookup_app_r, Nat.sub_diag by lia. simpl.
      rewrite map_to_list_empty. simpl.
      rewrite Hread by (by eapply Helem). rewrite (Hplain r xs w Hr Hw).
      simpl. by rewrite lookup_empty.
    + intros k. rewrite Hread by (by eapply Helem).
      apply readable_prop. by eapply Helem.
Qed.

Lemma store_chain_no_undefined_field : no_undefined_field store_chain.
Proof.
  intros r xs v Hr Hv.
  do 11 (destruct r as [|r];
         [simpl in Hr; try discriminate Hr; injection Hr as <-;
          repeat (apply elem_of_cons in Hv as [->|Hv]; [reflexivity|]);
          by apply elem_of_nil in Hv|]).
  discriminate Hr.
Qed.

Lemma get_default_filter_accepts_all_witness :
  children 4 (Handle 9) (FValue VUndef) GUndefined (initial store_chain)
  = Val [VRef 1; VRef 2].
Proof.
  exact (eq_trans
           (get_default_filter_accepts_all 4 store_chain 9 "children" VUndef GUndefined
              eq_refl store_chain_no_undefined_field) eq_refl).
Defined.

(** ** Linking and unlinking, for either direction *)

Section Linking.
Context `{ArrayText}.

(** Linking in both directions and unlinking again, [X] under [k1] and the
    bound nodes under [k2]: every relation list is back to what it was. *)
Lemma link_unlink_roundtrip h ns x k1 k2 N :
  h !! ns = Some (Arr N) →
  (∀ a, a ∈ N → is_node h k2 a) →
  (∀ b, b ∈ default [x] (elems_of h x) → is_node h k1 b) →
  (∀ a b ys, a ∈ N → b ∈ default [x] (elems_of h x) →
     relation_list h a k2 = Some ys → b ∉ ys) →
  (∀ a b ys, a ∈ N → b ∈ default [x] (elems_of h x) →
     relation_list h b k1 = Some ys → a ∉ ys) →
  ∃ h2 h4,
    (cs <- toNodes x ;; related <- add cs k1 ns ;; add ns k2 related) h = Ok ns h2
    ∧ (cs <- toNodes x ;; related <- remove cs k1 ns ;; remove ns k2 related) h2
      = Ok ns h4
    ∧ ∀ v k ys, relation_list h v k = Some ys → relation_list h4 v k = Some ys.
Proof.
  set (X := default [x] (elems_of h x)). intros Hns HwfN HwfX Hnr1 Hnr2.
  destruct (toNodes_spec h x) as (xs & hb & Hto & Hxs & Hext & _). fold X in Hxs.
  set (P1 := fun r : loc => r < length hb).
  destruct (add_phase P1 (fun _ _ => False) hb xs k1 ns X N)
    as (h1 & Hadd1 & Hown1 & Ha1);
    [split; [by intros ? ? []|by intros ? ? ? ? ? ? ? []]|done|done|by apply Hext| |].
  { intros v Hv. eapply extends_is_node; [done|]. by apply HwfX. }
  destruct (add_phase P1 _ h1 ns k2 xs N X Hown1) as (h2 & Hadd2 & Hown2 & Ha2).
  { intros r Hr. unfold P1 in Hr. pose proof (added_length _ _ _ _ _ Ha1). lia. }
  { eapply added_arrays; [done|]. by apply Hext. }
  { by eapply added_arrays. }
  { intros v Hv. destruct (HwfN v Hv) as (l & r & zs & -> & Hf).
    apply (extends_field_array _ hb) in Hf; [|done].
    destruct (added_lists _ _ _ _ _ Ha1 _ _ _ _ Hf) as (r' & Hf').
    eexists _, _, _. split; [done|exact Hf']. }
  exists h2.
  assert (∀ r ys, h !! r = Some (Arr ys) → h2 !! r = Some (Arr ys)) as Harr2.
  { intros r ys Hr. eapply added_arrays; [done|].
    eapply added_arrays; [done|]. by apply Hext. }
  assert (∀ l o, h !! l = Some (Obj o) →
            ∃ o2, h2 !! l = Some (Obj o2) ∧
                  ∀ k, ¬ (VRef l ∈ X ∧ k = k1) → ¬ (VRef l ∈ N ∧ k = k2) →
                       o2 !! k = o !! k) as Hrec2.
  { intros l o Hl. apply Hext in Hl.
    destruct (added_records _ _ _ _ _ Ha1 _ _ Hl) as (o1 & Hl1 & Hsame1).
    destruct (added_records _ _ _ _ _ Ha2 _ _ Hl1) as (o2 & Hl2 & Hsame2).
    exists o2. split; [done|]. intros k HX HN. by rewrite Hsame2, Hsame1. }
  destruct (toNodes_again h h2 x) as (xs' & h2' & Hto' & Hxs' & Hext' & Hfresh);
    [done| | |].
  { intros l o Hl. destruct (Hrec2 l o Hl) as (o2 & ? & _). by exists o2. }
  { intros Hx. exists k1. apply HwfX. unfold X. rewrite Hx. by left. }
  fold X in Hxs'.
  pose proof (extends_length _ _ Hext) as Hlen.
  assert (ns < length hb) as Hnslt by (apply lookup_lt_Some in Hns; lia).
  set (P2 := fun r : loc => r < length hb ∨ r = xs').
  set (own2 := fun (l : loc) (k : string) =>
                 (False ∨ (VRef l ∈ X ∧ k = k1)) ∨ (VRef l ∈ N ∧ k = k2)) in *.
  assert (owns P2 own2 h2') as Hown2'.
  { eapply owns_extends; [exact Hown2|exact Hext'|].
    intros r [Hr| ->]; [by left|]. destruct Hfresh as [?|?]; [left|right].
    - unfold P1. lia.
    - lia. }
  destruct (remove_phase P2 own2 h2' xs' k1 ns X N) as (h3 & Hrem3 & Hown3 & Hr3);
    [done|by right|by left|done|apply Hext'; by apply Harr2| |].
  { intros v Hv. destruct (HwfX v Hv) as (l & ? & ? & -> & _).
    exists l. split; [done|]. left. right. done. }
  destruct (remove_phase P2 own2 h3 ns k2 xs' N X) as (h4 & Hrem4 & Hown4 & Hr4);
    [done|by left|by right| | | |].
  { eapply removed_protected; [done|by left|]. apply Hext'. by apply Harr2. }
  { eapply removed_protected; [done|by right|done]. }
  { intros v Hv. destruct (HwfN v Hv) as (l & ? & ? & -> & _).
    exists l. split; [done|]. right. done. }
  exists h4. split; [unfold bind; by rewrite Hto, Hadd1, Hadd2|].
  split; [unfold bind; by rewrite Hto', Hrem3, Hrem4|].
  assert (∀ r ys, h !! r = Some (Arr ys) → h4 !! r = Some (Arr ys)) as Harr4.
  { intros r ys Hr.
    assert (P2 r) by (left; apply lookup_lt_Some in Hr; lia).
    eapply removed_protected; [done..|].
    eapply removed_protected; [done..|]. apply Hext'. by apply Harr2. }
  intros v k ys (l & r & -> & Hr & [(es & Hl & Hk)|Hf])%relation_list_cases.
  { eapply relation_list_array_node; eauto. }
  destruct (decide ((VRef l ∈ X ∧ k = k1) ∨ (VRef l ∈ N ∧ k = k2))) as [Hown|Hnown].
  - apply (extends_field_array _ hb) in Hf as Hfb; [|done].
    destruct (added_lists _ _ _ _ _ Ha1 _ _ _ _ Hfb) as (r1 & Hf1).
    destruct (added_lists _ _ _ _ _ Ha2 _ _ _ _ Hf1) as (r2 & Hf2).
    apply (extends_field_array _ h2') in Hf2; [|done].
    assert (own2 l k) as Hown2l by (unfold own2; tauto).
    pose proof (removed_lists _ _ _ _ _ Hr3 _ _ _ _ Hown2l Hf2) as Hf3.
    pose proof (removed_lists _ _ _ _ _ Hr4 _ _ _ _ Hown2l Hf3) as Hf4.
    apply field_array_relation_list in Hf4. rewrite Hf4. f_equal.
    apply (roundtrip_list k k1 k2 N X ys).
    + intros a Ha. eapply is_node_strict_eq. by apply HwfN.
    + intros b Hb. eapply is_node_strict_eq. by apply HwfX.
    + intros -> Hc a Ha. eapply Hnr2; [done| |by eapply field_array_relation_list].
      by apply count_positive.
    + intros -> Hc b Hb. eapply Hnr1; [|done|by eapply field_array_relation_list].
      by apply count_positive.
  - destruct Hf as (o & Hl & Hk & _).
    destruct (Hrec2 l o Hl) as (o2 & Hl2 & Hsame).
    apply Hext' in Hl2. apply (removed_records _ _ _ _ _ Hr3) in Hl2.
    apply (removed_records _ _ _ _ _ Hr4) in Hl2.
    eapply field_array_relation_list. exists o2. split; [done|].
    split; [|by apply Harr4]. rewrite Hsame; [done|tauto..].
Qed.

(** [addParents(X)] and then [removeParents(X)], for nodes [X] without a
    relation to the bound nodes [N] yet: both calls return, and every
    relation list of the store, under every key, has the elements it had
    before, in the same order. *)
Theorem add_then_remove_parents_roundtrip g x s N :
  elems_of (store s) (VRef (bound g)) = Some N →
  (∀ a, a ∈ N → is_node (store s) (lastParentsKey s) a) →
  (∀ b, b ∈ default [x] (elems_of (store s) x) →
        is_node (store s) (lastChildrenKey s) b) →
  (∀ a b ys, a ∈ N → b ∈ default [x] (elems_of (store s) x) →
     relation_list (store s) a (lastParentsKey s) = Some ys → b ∉ ys) →
  (∀ a b ys, a ∈ N → b ∈ default [x] (elems_of (store s) x) →
     relation_list (store s) b (lastChildrenKey s) = Some ys → a ∉ ys) →
  returns (addParents g x s) = true
  ∧ returns (removeParents g x (after s (addParents g x s))) = true
  ∧ ∀ v k ys,
      relation_list (store s) v k = Some ys →
      relation_list
        (final_store (removeParents g x (after s (addParents g x s))))
        v k = Some ys.
Proof.
  destruct s as [h pk ck], g as [ns].
  cbn [store lastParentsKey lastChildrenKey bound].
  intros (? & [= <-] & Hns)%elems_of_Some HwfN HwfX Hnr1 Hnr2.
  destruct (link_unlink_roundtrip h ns x ck pk N Hns HwfN HwfX Hnr1 Hnr2)
    as (h2 & h4 & Hadd & Hrem & Hlists).
  unfold addParents, removeParents, after.
  cbn [store lastParentsKey lastChildrenKey bound].
  rewrite Hadd. cbn [final_store]. rewrite Hrem. by split.
Qed.

End Linking.

Lemma add_then_remove_parents_roundtrip_witness :
  let s := initial store_unrelated in
  let s' := after s (@addParents no_text (Handle 9) (VRef 10) s) in
  returns (@addParents no_text (Handle 9) (VRef 10) s) = true
  ∧ returns (removeParents (Handle 9) (VRef 10) s') = true
  ∧ relation_list (final_store (removeParents (Handle 9) (VRef 10) s'))
      (VRef 0) "children" = Some [VRef 2]
  ∧ relation_list (final_store (removeParents (Handle 9) (VRef 10) s'))
      (VRef 1) "children" = Some [].
Proof.
  destruct (@add_then_remove_parents_roundtrip no_text (Handle 9) (VRef 10)
              (initial store_unrelated) [VRef 0]) as (Hadd & Hrem & Hlists).
  - reflexivity.
  - intros a ->%list_elem_of_singleton. apply store_unrelated_is_node; [lia|by left].
  - intros b ->%list_elem_of_singleton. apply store_unrelated_is_node; [lia|by right].
  - intros a b ys ->%list_elem_of_singleton ->%list_elem_of_singleton [= <-].
    apply not_elem_of_nil.
  - intros a b ys ->%list_elem_of_singleton ->%list_elem_of_singleton [= <-].
    apply not_elem_of_nil.
  - split; [exact Hadd|]. split; [exact Hrem|].
    split; apply Hlists; reflexivity.
Defined.

(** ** What linking does to the relation lists *)

Section Appending.
Context `{ArrayText}.

(** [addChildren] on node sets of any size, with two distinct key names:
    the call returns; every node [b] of [X] gets the bound nodes [N]
    appended to its parents list, once for each time [b] is listed in [X],
    and every bound node [a] gets [X] appended to its children list, once
    for each time [a] is listed in [N]; every other relation list keeps its
    elements; nothing is deduplicated.  The lists are rebuilt in fresh
    arrays: no array the store had before the call is modified. *)
Theorem addChildren_appends g x s N :
  let h := store s in
  let pk := lastParentsKey s in
  let ck := lastChildrenKey s in
  let X := default [x] (elems_of h x) in
  elems_of h (VRef (bound g)) = Some N →
  (∀ v, v ∈ X → is_node h pk v) →
  (∀ v, v ∈ N → is_node h ck v) →
  pk ≠ ck →
  returns (addChildren g x s) = true
  ∧ (∀ l k r ys, field_array h l k r ys →
       relation_list (final_store (addChildren g x s)) (VRef l) k
       = Some (ys ++ if decide (k = pk) then times (count (VRef l) X) N
                     else if decide (k = ck) then times (count (VRef l) N) X
                     else []))
  ∧ (∀ r ys, h !! r = Some (Arr ys) →
       final_store (addChildren g x s) !! r = Some (Arr ys)).
Proof.
  destruct s as [h pk ck], g as [ns].
  cbn [store lastParentsKey lastChildrenKey bound].
  intros (? & [= <-] & Hns)%elems_of_Some HwfX HwfN Hne.
  destruct (add_both_lists h ns x pk ck N Hns HwfX HwfN)
    as (h2 & Hop & _ & _ & Harrs & Hlists).
  unfold addChildren. cbn [store lastParentsKey lastChildrenKey bound].
  rewrite Hop. split; [done|]. split; [|done].
  intros l k r ys Hf. destruct (Hlists l k r ys Hf) as (r' & Hf').
  cbn [final_store]. rewrite (field_array_relation_list _ _ _ _ _ Hf'). f_equal.
  destruct (decide (k = pk)) as [->|?].
  - rewrite (decide_False (P := pk = ck)) by done. by rewrite app_nil_r.
  - by rewrite app_nil_r.
Qed.

(** Linking is the same from either side: with two distinct key names,
    [addChildren(X)] on a handle over [N] and [addParents(N)] on a handle
    over [X] both return and leave every relation list of the store with
    the same elements in the same order. *)
Theorem addChildren_addParents_dual gN gX s N X :
  let h := store s in
  elems_of h (VRef (bound gN)) = Some N →
  elems_of h (VRef (bound gX)) = Some X →
  (∀ v, v ∈ X → is_node h (lastParentsKey s) v) →
  (∀ v, v ∈ N → is_node h (lastChildrenKey s) v) →
  lastParentsKey s ≠ lastChildrenKey s →
  returns (addChildren gN (VRef (bound gX)) s) = true
  ∧ returns (addParents gX (VRef (bound gN)) s) = true
  ∧ ∀ l k r ys, field_array h l k r ys →
      relation_list (final_store (addChildren gN (VRef (bound gX)) s)) (VRef l) k
      = relation_list (final_store (addParents gX (VRef (bound gN)) s)) (VRef l) k.
Proof.
  destruct s as [h pk ck], gN as [nsN], gX as [nsX].
  cbn [store lastParentsKey lastChildrenKey bound].
  intros HN HX HwfX HwfN Hne.
  apply elems_of_Some in HN as HN'. destruct HN' as (? & [= <-] & HnsN).
  apply elems_of_Some in HX as HX'. destruct HX' as (? & [= <-] & HnsX).
  destruct (add_both_lists h nsN (VRef nsX) pk ck N HnsN)
    as (h2 & Hop & _ & _ & _ & Hlists); [by rewrite HX|done|].
  destruct (add_both_lists h nsX (VRef nsN) ck pk X HnsX)
    as (h2' & Hop' & _ & _ & _ & Hlists'); [by rewrite HN|done|].
  rewrite HX in Hlists. rewrite HN in Hlists'. simpl in Hlists, Hlists'.
  unfold addChildren, addParents. cbn [store lastParentsKey lastChildrenKey bound].
  rewrite Hop, Hop'. split; [done|]. split; [done|].
  intros l k r ys Hf. cbn [final_store].
  destruct (Hlists l k r ys Hf) as (r1 & Hf1).
  destruct (Hlists' l k r ys Hf) as (r2 & Hf2).
  rewrite (field_array_relation_list _ _ _ _ _ Hf1).
  rewrite (field_array_relation_list _ _ _ _ _ Hf2). f_equal.
  destruct (decide (k = pk)) as [Hp|?], (decide (k = ck)) as [Hc|?];
    [congruence|by rewrite ?app_nil_r..].
Qed.

End Appending.

Lemma addChildren_appends_witness :
  let s := initial store_unrelated in
  returns (@addChildren no_text (Handle 9) (VRef 10) s) = true
  ∧ relation_list (final_store (@addChildren no_text (Handle 9) (VRef 10) s))
      (VRef 0) "children" = Some [VRef 2; VRef 1]
  ∧ relation_list (final_store (@addChildren no_text (Handle 9) (VRef 10) s))
      (VRef 2) "parents" = Some [VRef 0]
  ∧ final_store (@addChildren no_text (Handle 9) (VRef 10) s) !! 4
    = Some (Arr [VRef 2]).
Proof.
  destruct (@addChildren_appends no_text (Handle 9) (VRef 10)
              (initial store_unrelated) [VRef 0]) as (Hret & Hlists & Harrs).
  - reflexivity.
  - intros v ->%list_elem_of_singleton. apply store_unrelated_is_node; [lia|by left].
  - intros v ->%list_elem_of_singleton. apply store_unrelated_is_node; [lia|by right].
  - discriminate.
  - split; [exact Hret|]. split; [|split].
    + apply (Hlists 0 "children"%string 4 [VRef 2]).
      eexists. split; [reflexivity|]. split; reflexivity.
    + apply (Hlists 2 "parents"%string 7 [VRef 0]).
      eexists. split; [reflexivity|]. split; reflexivity.
    + by apply Harrs.
Defined.

Lemma addChildren_addParents_dual_witness :
  let s := initial store_unrelated in
  relation_list (final_store (@addChildren no_text (Handle 9) (VRef 10) s))
    (VRef 1) "parents"
  = relation_list (final_store (@addParents no_text (Handle 10) (VRef 9) s))
      (VRef 1) "parents".
Proof.
  destruct (@addChildren_addParents_dual no_text (Handle 9) (Handle 10)
              (initial store_unrelated) [VRef 0] [VRef 1]) as (_ & _ & Hlists).
  - reflexivity.
  - reflexivity.
  - intros v ->%list_elem_of_singleton. apply store_unrelated_is_node; [lia|by left].
  - intros v ->%list_elem_of_singleton. apply store_unrelated_is_node; [lia|by right].
  - discriminate.
  - apply (Hlists 1 "parents"%string 5 []).
    eexists. split; [reflexivity|]. split; reflexivity.
Defined.

(** ** What unlinking does to the relation lists *)

(** Unlinking in both directions, [X] under [k1] and then the bound nodes
    under [k2], when no relation array is shared: every relation list stays
    in its array and loses what the two passes splice out of it. *)
Lemma remove_both_lists h ns x k1 k2 N :
  unshared (fun r => r = ns ∨ x = VRef r) h →
  h !! ns = Some (Arr N) →
  (∀ v, v ∈ default [x] (elems_of h x) → is_node h k1 v) →
  (∀ v, v ∈ N → is_node h k2 v) →
  ∃ h4,
    (cs <- toNodes x ;; related <- remove cs k1 ns ;; remove ns k2 related) h
    = Ok ns h4
    ∧ ∀ l k r ys, field_array h l k r ys →
        field_array h4 l k r
          ((if decide (k = k2)
            then Nat.iter (count (VRef l) N) (remove_all (default [x] (elems_of h x)))
            else id)
             ((if decide (k = k1)
               then Nat.iter (count (VRef l) (default [x] (elems_of h x)))
                      (remove_all N)
               else id) ys)).
Proof.
  set (X := default [x] (elems_of h x)).
  intros Hunshared Hns HwfX HwfN.
  destruct (toNodes_spec h x) as (xs & hb & Hto & Hxs & Hext & _). fold X in Hxs.
  pose proof (toNodes_cases _ _ _ _ Hto) as Hcases.
  set (P := fun r : loc => r = ns ∨ r = xs).
  set (own := fun (l : loc) (k : string) => ∃ r ys, field_array h l k r ys).
  assert (owns P own hb) as Hown.
  { eapply owns_extends; [exact Hunshared|done|].
    intros r [->| ->]; [left; by left|].
    destruct Hcases as [(-> & _)|(-> & _)]; [left; by right|right; lia]. }
  assert (∀ v K, is_node h K v → ∃ l, v = VRef l ∧ own l K) as Hnode_own.
  { intros v K (l & r & ys & -> & Hf). exists l. split; [done|]. by exists r, ys. }
  destruct (remove_phase P own hb xs k1 ns X N) as (h3 & Hrem3 & Hown3 & Hr3);
    [done|by right|by left|done|by apply Hext|by eauto|].
  destruct (remove_phase P own h3 ns k2 xs N X) as (h4 & Hrem4 & Hown4 & Hr4);
    [done|by left|by right| | |by eauto|].
  { eapply removed_protected; [done|by left|by apply Hext]. }
  { eapply removed_protected; [done|by right|done]. }
  exists h4. split; [unfold bind; by rewrite Hto, Hrem3, Hrem4|].
  intros l k r ys Hf.
  assert (own l k) as Hownl by (by exists r, ys).
  apply (extends_field_array _ hb) in Hf; [|done].
  pose proof (removed_lists _ _ _ _ _ Hr3 _ _ _ _ Hownl Hf) as Hf3.
  pose proof (removed_lists _ _ _ _ _ Hr4 _ _ _ _ Hownl Hf3) as Hf4.
  by destruct (decide (k = k1)), (decide (k = k2)).
Qed.

(** [removeChildren] on well-formed nodes, with two distinct key names and
    no relation array shared (with another field, with the handle's array
    or with the argument): the call returns and splices the lists in place,
    each list staying in the array it was in.  For every node [a] bound to
    the handle, once for each time it is listed, each node of [X] in turn
    is unlinked from the children list of [a] ([remove_one]), and likewise
    the bound nodes from the parents list of every node of [X]; every other
    list is left as it was.  In particular, unlinking one child that is
    present deletes its first occurrence and keeps the order of the rest. *)
Theorem removeChildren_splices_in_place g x s N :
  let h := store s in
  let pk := lastParentsKey s in
  let ck := lastChildrenKey s in
  let X := default [x] (elems_of h x) in
  elems_of h (VRef (bound g)) = Some N →
  unshared (fun r => r = bound g ∨ x = VRef r) h →
  (∀ v, v ∈ X → is_node h pk v) →
  (∀ v, v ∈ N → is_node h ck v) →
  pk ≠ ck →
  returns (removeChildren g x s) = true
  ∧ (∀ l k r ys, field_array h l k r ys →
       field_array (final_store (removeChildren g x s)) l k r
         (if decide (k = pk) then Nat.iter (count (VRef l) X) (remove_all N) ys
          else if decide (k = ck) then Nat.iter (count (VRef l) N) (remove_all X) ys
          else ys))
  ∧ (∀ la lb r cs1 cs2,
       N = [VRef la] → X = [VRef lb] →
       field_array h la ck r (cs1 ++ VRef lb :: cs2) → VRef lb ∉ cs1 →
       field_array (final_store (removeChildren g x s)) la ck r (cs1 ++ cs2)).
Proof.
  destruct s as [h pk ck], g as [ns].
  cbn [store lastParentsKey lastChildrenKey bound].
  set (X := default [x] (elems_of h x)).
  intros (? & [= <-] & Hns)%elems_of_Some Hunshared HwfX HwfN Hne.
  destruct (remove_both_lists h ns x pk ck N Hunshared Hns HwfX HwfN)
    as (h4 & Hop & Hlists).
  fold X in Hlists.
  unfold removeChildren. cbn [store lastParentsKey lastChildrenKey bound].
  rewrite Hop. cbn [final_store]. split; [done|].
  assert (∀ l k r ys, field_array h l k r ys →
    field_array h4 l k r
      (if decide (k = pk) then Nat.iter (count (VRef l) X) (remove_all N) ys
       else if decide (k = ck) then Nat.iter (count (VRef l) N) (remove_all X) ys
       else ys)) as Hall.
  { intros l k r ys Hf. specialize (Hlists l k r ys Hf).
    destruct (decide (k = pk)) as [Hp|?], (decide (k = ck)) as [Hc|?];
      [congruence|done..]. }
  split; [done|].
  intros la lb r cs1 cs2 HN HX Hf Hfresh.
  specialize (Hall la ck r _ Hf).
  rewrite (decide_False (P := ck = pk)), (decide_True (P := ck = ck)) in Hall
    by congruence.
  rewrite HN, HX in Hall. simpl in Hall. rewrite decide_True in Hall by done.
  simpl in Hall. unfold remove_all in Hall. simpl in Hall.
  rewrite remove_one_first in Hall; [done..|apply strict_eq_ref].
Qed.

Lemma removeChildren_splices_in_place_witness :
  let s := initial store_unrelated in
  returns (removeChildren (Handle 9) (VRef 2) s) = true
  ∧ field_array (final_store (removeChildren (Handle 9) (VRef 2) s))
      0 "children" 4 [].
Proof.
  destruct (removeChildren_splices_in_place (Handle 9) (VRef 2)
              (initial store_unrelated) [VRef 0]) as (Hret & _ & Hone).
  - reflexivity.
  - apply store_unrelated_unshared. intros r [-> | [= <-]]; simpl; lia.
  - intros v ->%list_elem_of_singleton. apply store_unrelated_is_node; [lia|by left].
  - intros v ->%list_elem_of_singleton. apply store_unrelated_is_node; [lia|by right].
  - discriminate.
  - split; [exact Hret|].
    apply (Hone 0 2 4 [] []); [reflexivity|reflexivity| |apply not_elem_of_nil].
    eexists. split; [reflexivity|]. split; reflexivity.
Defined.

(** ** Empty node sets, and the value the methods return *)

Lemma forEach_from_idle arr xs (f : value → M unit) h :
  h !! arr = Some (Arr xs) →
  (∀ v, v ∈ xs → f v h = Ok tt h) →
  ∀ n k, forEach_from arr f k n h = Ok tt h.
Proof.
  intros Harr Hf. induction n as [|n IH]; intros k; simpl; [done|].
  rewrite Harr. destruct (xs !! k) as [v|] eqn:Hv; [|apply IH].
  unfold bind. rewrite (Hf v) by (by eapply list_elem_of_lookup_2). apply IH.
Qed.

Lemma forEach_idle arr xs (f : value → M unit) h :
  h !! arr = Some (Arr xs) →
  (∀ v, v ∈ xs → f v h = Ok tt h) →
  forEach arr f h = Ok tt h.
Proof.
  intros Harr Hf. unfold forEach. rewrite Harr. by eapply forEach_from_idle.
Qed.

(** [remove] with no node on one side reads no field at all. *)
Lemma remove_idle nodes K related N R h :
  h !! nodes = Some (Arr N) → h !! related = Some (Arr R) →
  N = [] ∨ R = [] →
  remove nodes K related h = Ok nodes h.
Proof.
  intros Hn Hr Hempty. unfold remove, bind.
  rewrite (forEach_idle nodes N); [done|done|].
  intros v Hv. apply (forEach_idle related R); [done|].
  intros w Hw. destruct Hempty as [-> | ->]; by apply elem_of_nil in Hv || apply elem_of_nil in Hw.
Qed.

(** Unlinking with an empty array on either side, the handle's or the
    argument's, returns and leaves the store exactly as it was, whatever
    the nodes on the other side are: no relation field is read, so not
    even a malformed node raises a fault. *)
Theorem remove_nothing_is_idle g x s N X :
  elems_of (store s) (VRef (bound g)) = Some N →
  elems_of (store s) x = Some X →
  N = [] ∨ X = [] →
  removeChildren g x s = Ok (bound g) (store s)
  ∧ removeParents g x s = Ok (bound g) (store s).
Proof.
  destruct s as [h pk ck], g as [ns].
  cbn [store lastParentsKey lastChildrenKey bound].
  intros (? & [= <-] & Hns)%elems_of_Some HX Hempty.
  apply elems_of_Some in HX as HX'. destruct HX' as (lx & -> & Hlx).
  assert (toNodes (VRef lx) h = Ok lx h) as Hto by (unfold toNodes; by rewrite HX).
  assert (X = [] ∨ N = []) as Hempty' by tauto.
  unfold removeChildren, removeParents, bind.
  cbn [store lastParentsKey lastChildrenKey bound]. rewrite Hto.
  rewrite !(remove_idle lx _ ns X N h Hlx Hns Hempty').
  by rewrite !(remove_idle ns _ lx N X h Hns Hlx Hempty).
Qed.

Lemma remove_nothing_is_idle_witness :
  removeChildren (Handle 2) (VRef 5) (initial store_malformed)
  = Ok 2 store_malformed.
Proof.
  apply (remove_nothing_is_idle (Handle 2) (VRef 5) (initial store_malformed)
           [] [VRef 1]); [reflexivity|reflexivity|by left].
Defined.

Section Returned.
Context `{ArrayText}.

Lemma add_returns_nodes nodes K related h r h' :
  add nodes K related h = Ok r h' → r = nodes.
Proof.
  unfold add, bind, ret. destruct (forEach _ _ h); [|done]. by intros [= <- _].
Qed.

Lemma remove_returns_nodes nodes K related h r h' :
  remove nodes K related h = Ok r h' → r = nodes.
Proof.
  unfold remove, bind, ret. destruct (forEach _ _ h); [|done]. by intros [= <- _].
Qed.

(** Each of the four mutating methods, when it returns, returns the array
    of nodes the handle was constructed over (the same array, not a copy). *)
Theorem mutators_return_bound_nodes g x s r h' :
  addParents g x s = Ok r h' ∨ addChildren g x s = Ok r h'
  ∨ removeParents g x s = Ok r h' ∨ removeChildren g x s = Ok r h' →
  r = bound g.
Proof.
  unfold addParents, addChildren, removeParents, removeChildren, bind.
  destruct (toNodes x (store s)) as [cs hb|hb]; [|by intros [|[|[|]]]].
  intros [Hop|[Hop|[Hop|Hop]]].
  - destruct (add cs _ _ hb) as [rel h1|]; [|done]. by eapply add_returns_nodes.
  - destruct (add cs _ _ hb) as [rel h1|]; [|done]. by eapply add_returns_nodes.
  - destruct (remove cs _ _ hb) as [rel h1|]; [|done]. by eapply remove_returns_nodes.
  - destruct (remove cs _ _ hb) as [rel h1|]; [|done]. by eapply remove_returns_nodes.
Qed.

End Returned.

Lemma mutators_return_bound_nodes_witness :
  ∃ h', @addChildren no_text (Handle 9) (VRef 10) (initial store_unrelated)
        = Ok 9 h'.
Proof.
  destruct (@addChildren no_text (Handle 9) (VRef 10) (initial store_unrelated))
    as [r h'|] eqn:Hop; [|discriminate Hop].
  exists h'. f_equal.
  apply (@mutators_return_bound_nodes no_text (Handle 9) (VRef 10)
           (initial store_unrelated) r h').
  right. left. exact Hop.
Defined.

(** ** Linking, then reading *)

Section LinkThenRead.
Context `{ArrayText}.


(** A relation field that holds a string.  [add] does not fault on it: the
    field becomes a longer string, the text of the related nodes appended.
    [remove] faults on it as soon as there is something to unlink, and the
    traversal faults on it always. *)
Theorem string_field_is_concatenated nodes K related h l o s R :
  h !! nodes = Some (Arr [VRef l]) →
  h !! l = Some (Obj o) →
  o !! K = Some (VStr s) →
  h !! related = Some (Arr R) →
  add nodes K related h
  = Ok nodes (<[l := Obj (<[K := VStr (s +:+ array_to_string h R)]> o)]> h)
  ∧ (R ≠ [] → returns (remove nodes K related h) = false)
  ∧ (∀ fuel f gen, get (S fuel) h nodes K f gen = Throws).
Proof.
  intros Hn Hl HK Hr. split; [|split].
  - unfold add, bind, forEach. rewrite Hn. simpl. rewrite Hn. simpl.
    unfold bind, add_callback, bind, get_prop, lift. simpl. rewrite Hl. simpl.
    rewrite HK. simpl. rewrite Hr. simpl. unfold set_prop. by rewrite Hl.
  - intros HR. destruct R as [|w R]; [done|].
    assert (returns (forEach nodes
              (fun node => forEach related (remove_callback K node)) h) = false)
      as Hthrow.
    { eapply forEach_throws_first; [done|].
      eapply forEach_throws_first; [done|].
      unfold remove_callback, bind, get_prop, indexOf_in, lift. simpl.
      rewrite Hl. simpl. rewrite HK. simpl. rewrite Hl. simpl. by rewrite HK. }
    unfold remove, bind. by destruct (forEach nodes _ h).
  - assert (∀ fuel h' (f : value → res bool) gen,
              extends h h' → get_rec (S fuel) h' K f (VRef nodes) gen = Throws)
      as Hrec.
    { intros fuel h' f gen Hext. simpl.
      rewrite (Hext _ _ Hn). simpl. rewrite (Hext _ _ Hl). simpl. by rewrite HK. }
    intros fuel f gen. unfold get. destruct f as [p|v].
    + apply Hrec. by unfold extends.
    + destruct (truthy v); apply Hrec; [by unfold extends|apply extends_app].
Qed.

End LinkThenRead.


Lemma string_field_is_concatenated_witness :
  returns (@add no_text 1 "children" 1 store_string_field) = true
  ∧ returns (remove 1 "children" 1 store_string_field) = false
  ∧ children 1 (Handle 1) matches_all GUndefined (initial store_string_field) = Throws.
Proof.
  destruct (@string_field_is_concatenated no_text 1 "children" 1 store_string_field
              0 {[ "children" := VStr "x" ]} "x" [VRef 0]
              eq_refl eq_refl eq_refl eq_refl) as (Hadd & Hrem & Hget).
  split; [by rewrite Hadd|]. split; [by apply Hrem|]. apply Hget.
Defined.
